(** * Y-maze randomizer: the scheduling engine and its properties

    A shallow embedding of the scheduling core of the Y-maze randomizer
    (src/code.py and src/modern-app/backend/main.py): the balanced
    exit-arm assignment, the per-cage dynamic program, the cage-pack
    optimizer, the trial sequence generator, the day-table builder and
    the request handlers of the backend, and the parser, the table
    builder and the actions of the desktop application.

    Python integers are [Z], strings are [string], dictionaries used
    only for lookup are [gmap], dictionaries and sets that are iterated
    are association lists and lists in iteration order.  The process-wide
    pseudorandom generator is an explicit state threaded through the
    functions that draw from it.  What the interpreter and its library
    decide is a parameter: the draws of the generator, the state after
    seeding, the iteration order of a set of strings, the frames that
    the recursion limit leaves for the search of a trial sequence, and
    what reading the example file gives.  Exceptions are values of
    [result]. *)

From Stdlib Require Import ZArith List Lia Bool.
From stdpp Require Import gmap strings list fin_maps pretty.

Open Scope Z_scope.

(** ** Exceptions *)

Inductive exn : Type :=
| KeyError
| ValueError
| TypeError
| FileNotFoundError (message : string)
| ValidationError
| RecursionError
| HTTPException (status_code : Z) (detail : string).

(** [str(e)], as far as the handlers use it: the message of a
    [FileNotFoundError]; for the other exceptions, whose text depends
    on the interpreter and on the failing object, the name of the class
    stands for the message. *)
Definition str_exn (e : exn) : string :=
  match e with
  | KeyError => "KeyError"
  | ValueError => "ValueError"
  | TypeError => "TypeError"
  | FileNotFoundError message => message
  | ValidationError => "ValidationError"
  | RecursionError => "RecursionError"
  | HTTPException _ detail => detail
  end.

Definition result (A : Type) : Type := exn + A.

Definition raise {A : Type} (e : exn) : result A := inl e.
Definition ok {A : Type} (a : A) : result A := inr a.

Definition rbind {A B : Type} (m : result A) (k : A -> result B) : result B :=
  match m with
  | inl e => inl e
  | inr a => k a
  end.

Notation "'try' x <- m ;; k" := (rbind m (fun x => k))
  (at level 10, x name, m at level 99, k at level 200, only parsing).
Notation "'try' ' x <- m ;; k" := (rbind m (fun x => k))
  (at level 10, x strict pattern, m at level 99, k at level 200, only parsing).

(** ** The pseudorandom generator

    The module [random] of the Python library is not part of the
    repository.  Its state is modelled as the infinite tape of the raw
    draws still to come: every primitive call consumes the head of the
    tape.  All outcomes of the draws are covered by quantifying over
    the tape. *)

Module Random.

Definition state : Type := nat -> N.

Definition next (g : state) : N * state :=
  (g 0%nat, fun i => g (S i)).

(** [random.random()]: a float k / 2^53 of [0, 1), kept as its
    numerator k. *)
Definition random (g : state) : N * state :=
  let '(r, g) := next g in ((r mod 2 ^ 53)%N, g).

(** the float 0.5, as a numerator over 2^53 *)
Definition half : N := (2 ^ 52)%N.

(** [random._randbelow(n)], for n > 0 *)
Definition randbelow (n : nat) (g : state) : nat * state :=
  let '(r, g) := next g in ((N.to_nat r) mod n, g)%nat.

(** [x[i], x[j] = x[j], x[i]] *)
Definition swap {A : Type} (i j : nat) (x : list A) : list A :=
  match x !! i, x !! j with
  | Some a, Some b => <[j := a]> (<[i := b]> x)
  | _, _ => x
  end.

(** [random.shuffle(x)]:
    for i in reversed(range(1, len(x))): j = randbelow(i + 1); swap.
    [shuffle_from i] runs the iterations i, i-1, ..., 1. *)
Fixpoint shuffle_from {A : Type} (i : nat) (x : list A) (g : state)
  : list A * state :=
  match i with
  | O => (x, g)
  | S i' =>
      let '(j, g) := randbelow (i + 1) g in
      shuffle_from i' (swap i j x) g
  end.

Definition shuffle {A : Type} (x : list A) (g : state) : list A * state :=
  shuffle_from (length x - 1) x g.

End Random.

(** ** Trial sequence generator *)

(** [valid(seq)]: len(seq) < 3 or not (seq[-1] == seq[-2] == seq[-3]) *)
Definition valid (seq : list Z) : bool :=
  match rev seq with
  | a :: b :: c :: _ => negb ((a =? b) && (b =? c))
  | _ => true
  end.

(** [avoid_first is not None and len(cur) == 0 and cand == avoid_first] *)
Definition skip_first (avoid_first : option Z) (cur : list Z) (cand : Z) : bool :=
  match avoid_first with
  | Some a => (length cur =? 0)%nat && (cand =? a)
  | None => false
  end.

(** [frames] is the number of nested calls of [backtrack] and [valid]
    that the interpreter still allows where
    [generate_pseudorandom_sequence] calls [backtrack]: its recursion
    limit, less the depth of the stack there, less the room that the
    innermost call needs for its own calls into the interpreter (a
    comparison counts against the same limit).  A call beyond it raises
    [RecursionError].  With the default limit of 1000, CPython 3.11
    leaves 997 frames to a generator called from the top level of a
    script.  The search is the one function of the program whose depth
    grows with its input; the other calls nest to a fixed depth and
    are taken to fit. *)

(** The body of [for i, cand in enumerate(items)] of [backtrack], from
    index [i] on; [rest] is [items[i:]], [rec] the recursive call and
    [frames] what is left for the calls made in the loop: [valid(new)]
    and [backtrack(new, ...)]. *)
Fixpoint backtrack_loop (rec : list Z -> list Z -> result (option (list Z)))
    (frames : nat) (avoid_first : option Z) (cur items : list Z) (i : nat)
    (rest : list Z) : result (option (list Z)) :=
  match rest with
  | [] => ok None
  | cand :: rest' =>
      if skip_first avoid_first cur cand
      then backtrack_loop rec frames avoid_first cur items (S i) rest'
      else
        let new := cur ++ [cand] in
        match frames with
        | O => raise RecursionError
        | S _ =>
            if valid new then
              try out <- rec new (take i items ++ drop (S i) items);;
              match out with
              | Some out => ok (Some out)
              | None => backtrack_loop rec frames avoid_first cur items (S i) rest'
              end
            else backtrack_loop rec frames avoid_first cur items (S i) rest'
        end
  end.

(** [backtrack(cur, items)]: the call takes one of the [frames]. *)
Fixpoint backtrack (avoid_first : option Z) (frames : nat) (cur items : list Z)
  : result (option (list Z)) :=
  match frames with
  | O => raise RecursionError
  | S frames' =>
      match items with
      | [] => ok (Some cur)
      | _ :: _ =>
          backtrack_loop (backtrack avoid_first frames') frames' avoid_first
                         cur items 0 items
      end
  end.

(** The balanced pool before the shuffle. *)
Definition balanced_pool (n_trials armA armB : Z) (g : Random.state)
  : list Z * Random.state :=
  let countA := n_trials / 2 in
  let countB := n_trials / 2 in
  let '(countA, countB, g) :=
    if n_trials mod 2 =? 1 then
      let '(r, g) := Random.random g in
      if (r <? Random.half)%N then (countA + 1, countB, g)
      else (countA, countB + 1, g)
    else (countA, countB, g) in
  (repeat armA (Z.to_nat countA) ++ repeat armB (Z.to_nat countB), g).

(** The shuffled pool and the outcome of [backtrack([], pool)]. *)
Definition sequence_search (frames : nat) (n_trials armA armB : Z)
    (avoid_first : option Z) (g : Random.state)
  : result (list Z * option (list Z) * Random.state) :=
  let '(pool, g) := balanced_pool n_trials armA armB g in
  let '(pool, g) := Random.shuffle pool g in
  try seq <- backtrack avoid_first frames [] pool;;
  ok (pool, seq, g).

(** [seq if seq else pool]: an empty list is falsy as [None] is. *)
Definition truthy (seq : option (list Z)) : bool :=
  match seq with
  | Some (_ :: _) => true
  | _ => false
  end.

Definition generate_pseudorandom_sequence (frames : nat) (n_trials armA armB : Z)
    (avoid_first : option Z) (g : Random.state) : result (list Z * Random.state) :=
  try '(pool, seq, g) <- sequence_search frames n_trials armA armB avoid_first g;;
  ok (match seq with
      | Some (x :: s) => x :: s
      | _ => pool
      end, g).

(** The search returned, and the fallback [pool] is what is returned. *)
Definition fallback_taken (frames : nat) (n_trials armA armB : Z)
    (avoid_first : option Z) (g : Random.state) : bool :=
  match sequence_search frames n_trials armA armB avoid_first g with
  | inr (_, seq, _) => negb (truthy seq)
  | inl _ => false
  end.

(** ** Python's [min] and [max] with a key

    Both scan the items in order and keep the first extremal one: the
    running best is replaced only by a strictly better key. *)

Fixpoint first_min {A K : Type} (lt : K -> K -> bool) (best : A * K)
    (items : list (A * K)) : A * K :=
  match items with
  | [] => best
  | x :: items' => first_min lt (if lt x.2 best.2 then x else best) items'
  end.

Definition first_max {A K : Type} (lt : K -> K -> bool) (best : A * K)
    (items : list (A * K)) : A * K :=
  first_min (fun a b => lt b a) best items.

(** Tuples compare lexicographically. *)
Definition lex_lt {A B : Type} (ltA : A -> A -> bool) (eqA : A -> A -> bool)
    (ltB : B -> B -> bool) (p q : A * B) : bool :=
  ltA p.1 q.1 || (eqA p.1 q.1 && ltB p.2 q.2).

(** ** Animals *)

Record Animal : Type := mkAnimal {
  AnimalID : string;
  Tag : string;
  Sex : string;
  Genotype : string;
  Cage : string
}.

(** [d.setdefault(k, []).append(v)] and [d[k].append(v)] on a
    [defaultdict(list)]: the keys keep their order of first insertion. *)
Fixpoint dict_append {K V : Type} `{EqDecision K} (k : K) (v : V)
    (d : list (K * list V)) : list (K * list V) :=
  match d with
  | [] => [(k, [v])]
  | (k', vs) :: d' =>
      if decide (k = k') then (k', vs ++ [v]) :: d'
      else (k', vs) :: dict_append k v d'
  end.

(** [d[k]] on a dictionary kept in insertion order *)
Fixpoint dict_get {K V : Type} `{EqDecision K} (k : K) (d : list (K * V))
  : option V :=
  match d with
  | [] => None
  | (k', v) :: d' => if decide (k = k') then Some v else dict_get k d'
  end.

(** ** Exit-arm balancer *)

Definition group_key (animal : Animal) : string * string * string :=
  (Genotype animal, Sex animal, Cage animal).

Definition groupings_of (animal_data : list Animal)
  : list ((string * string * string) * list Animal) :=
  fold_left (fun groupings animal => dict_append (group_key animal) animal groupings)
            animal_data [].

(** [for key, animals in groupings.items(): ... random.shuffle(animals)] *)
Fixpoint shuffle_groups (groupings : list ((string * string * string) * list Animal))
    (g : Random.state)
  : list ((string * string * string) * list Animal) * Random.state :=
  match groupings with
  | [] => ([], g)
  | (key, animals) :: rest =>
      let '(animals, g) := Random.shuffle animals g in
      let '(groups, g) := shuffle_groups rest g in
      ((key, animals) :: groups, g)
  end.

(** [target = {1: ..., 2: ..., 3: ...}], for [N = len(animal_data)].  The
    quotas are only read at the arms 1, 2, 3, which are their keys, so
    [remaining[a]] is the total lookup. *)
Definition target_of (N : Z) : gmap Z Z :=
  let base := N / 3 in
  let remainder := N mod 3 in
  <[1 := base + (if 1 <=? remainder then 1 else 0)]>
    (<[2 := base + (if 2 <=? remainder then 1 else 0)]>
      (<[3 := base]> ∅)).

(** [[((j + offset) % 3) + 1 for j in range(m)]] *)
Definition seq_from_offset (m : nat) (offset : Z) : list Z :=
  map (fun j => (Z.of_nat j + offset) mod 3 + 1) (seq 0 m).

(** [Counter(seq)[a]] *)
Definition Counter (s : list Z) (a : Z) : Z :=
  Z.of_nat (length (filter (fun x => x = a) s)).

Definition score_sequence (s : list Z) (rem : gmap Z Z) : Z * Z :=
  let c := Counter s in
  let over := foldr Z.add 0 (map (fun a => Z.max 0 (c a - rem !!! a)) [1; 2; 3]) in
  let prefer := - foldr Z.add 0 (map (fun a => Z.min (c a) (rem !!! a)) [1; 2; 3]) in
  (over, prefer).

Definition score_lt : Z * Z -> Z * Z -> bool := lex_lt Z.ltb Z.eqb Z.ltb.

(** [max((1, 2, 3), key=lambda a: (remaining[a], random.random()))]:
    the key of every arm is computed first, one draw each. *)
Definition pick_alt (remaining : gmap Z Z) (g : Random.state) : Z * Random.state :=
  let '(r1, g) := Random.random g in
  let '(r2, g) := Random.random g in
  let '(r3, g) := Random.random g in
  ((first_max (lex_lt Z.ltb Z.eqb N.ltb)
      (1, (remaining !!! 1, r1))
      [(2, (remaining !!! 2, r2)); (3, (remaining !!! 3, r3))]).1, g).

(** [for arm in best_seq: ...] *)
Fixpoint adjust (best_seq : list Z) (adjusted : list Z) (remaining : gmap Z Z)
    (g : Random.state) : list Z * gmap Z Z * Random.state :=
  match best_seq with
  | [] => (adjusted, remaining, g)
  | arm :: rest =>
      if 0 <? remaining !!! arm then
        adjust rest (adjusted ++ [arm])
               (<[arm := remaining !!! arm - 1]> remaining) g
      else
        let '(alt, g) := pick_alt remaining g in
        adjust rest (adjusted ++ [alt])
               (<[alt := remaining !!! alt - 1]> remaining) g
  end.

(** [min(candidates, key=lambda it: score_sequence(it[1], remaining))] *)
Definition best_sequence (m : nat) (remaining : gmap Z Z) : Z * list Z :=
  let candidate o := ((o, seq_from_offset m o), score_sequence (seq_from_offset m o) remaining) in
  (first_min score_lt (candidate 0) [candidate 1; candidate 2]).1.

(** [for animal, arm in zip(animals, adjusted): exit_arm_map[...] = arm] *)
Definition record_arms (animals : list Animal) (arms : list Z)
    (exit_arm_map : gmap string Z) : gmap string Z :=
  fold_left (fun m p => <[AnimalID p.1 := p.2]> m) (zip animals arms) exit_arm_map.

(** [for _, animals in groups: ...] *)
Fixpoint assign_groups (groups : list ((string * string * string) * list Animal))
    (remaining : gmap Z Z) (exit_arm_map : gmap string Z) (g : Random.state)
  : gmap string Z * gmap Z Z * Random.state :=
  match groups with
  | [] => (exit_arm_map, remaining, g)
  | (_, animals) :: rest =>
      let m := length animals in
      let '(best_offset, best_seq) := best_sequence m remaining in
      let '(adjusted, remaining, g) := adjust best_seq [] remaining g in
      assign_groups rest remaining (record_arms animals adjusted exit_arm_map) g
  end.

Definition assign_balanced_exit_arms (animal_data : list Animal) (g : Random.state)
  : gmap string Z * Random.state :=
  let groupings := groupings_of animal_data in
  let '(groups, g) := shuffle_groups groupings g in
  let '(groups, g) := Random.shuffle groups g in
  let N := Z.of_nat (length animal_data) in
  let target := target_of N in
  let remaining := target in
  let '(exit_arm_map, _, g) := assign_groups groups remaining ∅ g in
  (exit_arm_map, g).

(** ** Per-cage dynamic program *)

(** [OrderedDict] of cage -> animals, in order of first appearance *)
Definition group_animals_by_cage_in_order (animal_data : list Animal)
  : list (string * list Animal) :=
  fold_left (fun cages a => dict_append (Cage a) a cages) animal_data [].

(** the dictionary a plan is returned as *)
Record CagePlan : Type := mkPlan {
  cost : Z;
  end_arm : option Z;      (* 'end' *)
  first : option Z;
  colors : list Z
}.

(** [tuple(sorted({1, 2, 3} - {forbid}))] *)
Definition allowed_arms (forbid : Z) : list Z :=
  filter (fun a => a ≠ forbid) [1; 2; 3].

(** [for a in cage_animals: forbid = learning_exit_map[a['AnimalID']]; ...] *)
Fixpoint allowed_of (cage_animals : list Animal) (learning_exit_map : gmap string Z)
  : result (list (list Z)) :=
  match cage_animals with
  | [] => ok []
  | a :: rest =>
      match learning_exit_map !! AnimalID a with
      | None => raise KeyError
      | Some forbid =>
          try allowed <- allowed_of rest learning_exit_map;;
          ok (allowed_arms forbid :: allowed)
      end
  end.

(** [dp[i]]: color -> (cost, prev_color), in insertion order.  The
    colors of [allowed[i]] are distinct, so every assignment
    [dp[i][c] = ...] adds a key. *)
Definition dp_row : Type := list (Z * (Z * option Z)).

Definition row_lookup (c : Z) (row : dp_row) : option (Z * option Z) :=
  dict_get c row.

Definition first_row (prev_arm : option Z) (allowed0 : list Z) : dp_row :=
  map (fun c =>
         let cost0 := match prev_arm with
                      | None => 0
                      | Some p => if c =? p then 0 else 1
                      end in
         (c, (cost0, None))) allowed0.

(** The loop over [dp[i-1].items()] for one color [c].  [dp[i-1]] is
    never empty; Python would leave [(None, None)] there and fail on
    the next use, which is a [TypeError] here. *)
Definition best_predecessor (row_prev : dp_row) (c : Z) : result (Z * option Z) :=
  match map (fun e => (e.1, e.2.1 + (if c =? e.1 then 0 else 1))) row_prev with
  | [] => raise TypeError
  | x :: xs => let b := first_min Z.ltb x xs in ok (b.2, Some b.1)
  end.

Fixpoint next_row (row_prev : dp_row) (allowed_i : list Z) : result dp_row :=
  match allowed_i with
  | [] => ok []
  | c :: cs =>
      try e <- best_predecessor row_prev c;;
      try row <- next_row row_prev cs;;
      ok ((c, e) :: row)
  end.

(** [for i in range(1, m): ...]: the rows [dp[1], ..., dp[m-1]] *)
Fixpoint propagate (row_prev : dp_row) (allowed_rest : list (list Z))
  : result (list dp_row) :=
  match allowed_rest with
  | [] => ok []
  | allowed_i :: rest =>
      try row <- next_row row_prev allowed_i;;
      try rows <- propagate row rest;;
      ok (row :: rows)
  end.

(** [for i in range(m-1, 0, -1): colors[i-1] = dp[i][colors[i]][1]].
    [rows_rev] is [dp[i], dp[i-1], ..., dp[1]], [c] is [colors[i]] and
    [filled] is [colors[i+1:]]. *)
Fixpoint reconstruct (rows_rev : list dp_row) (c : Z) (filled : list Z)
  : result (list Z) :=
  match rows_rev with
  | [] => ok (c :: filled)
  | row :: rest =>
      match row_lookup c row with
      | None => raise KeyError
      | Some (_, None) => raise TypeError
      | Some (_, Some c_prev) => reconstruct rest c_prev (c :: filled)
      end
  end.

Definition plan_cage_dp (cage_animals : list Animal) (prev_arm : option Z)
    (learning_exit_map : gmap string Z) : result CagePlan :=
  match cage_animals with
  | [] => ok {| cost := 0; end_arm := prev_arm; first := prev_arm; colors := [] |}
  | _ :: _ =>
      try allowed <- allowed_of cage_animals learning_exit_map;;
      match allowed with
      | [] => raise TypeError
      | allowed0 :: allowed_rest =>
          let dp0 := first_row prev_arm allowed0 in
          try rows <- propagate dp0 allowed_rest;;
          match map (fun e => (e.1, e.2.1)) (List.last (dp0 :: rows) []) with
          | [] => raise ValueError
          | x :: xs =>
              let '(end_color, total_cost) := first_min Z.ltb x xs in
              try colors <- reconstruct (rev rows) end_color [];;
              ok {| cost := total_cost; end_arm := Some end_color;
                    first := head colors; colors := colors |}
          end
      end
  end.

(** ** Cage-pack optimizer and day tables *)

Inductive cell : Type :=
| CStr (s : string)
| CInt (z : Z).

Record DayTable : Type := mkDayTable {
  day : Z;
  type : string;
  header : list string;
  rows : list (list cell)
}.

Section Engine.

(** The order in which a [set] of cage names is iterated: it depends
    on the hashes of the strings, which are fixed for a process.
    Removing an element leaves the order of the others unchanged. *)
Variable set_order : list string -> list string.

(** The frames left for the search of the trial sequences, see
    [backtrack]. *)
Variable frames : nat.

Definition plans_for (animals : list Animal) (learning_exit_map : gmap string Z)
  : result (gmap Z CagePlan) :=
  try p1 <- plan_cage_dp animals (Some 1) learning_exit_map;;
  try p2 <- plan_cage_dp animals (Some 2) learning_exit_map;;
  try p3 <- plan_cage_dp animals (Some 3) learning_exit_map;;
  ok (<[3 := p3]> (<[2 := p2]> (<[1 := p1]> ∅))).

(** [{c: {s: plan_cage_dp(cages[c], s, ...) for s in (1, 2, 3)} for c in cage_names}] *)
Fixpoint plans_of (cages : list (string * list Animal))
    (learning_exit_map : gmap string Z) : result (gmap string (gmap Z CagePlan)) :=
  match cages with
  | [] => ok ∅
  | (c, animals) :: rest =>
      try p <- plans_for animals learning_exit_map;;
      try plans <- plans_of rest learning_exit_map;;
      ok (<[c := p]> plans)
  end.

(** [plans[ck][prev_end]] *)
Definition plan_at (plans : gmap string (gmap Z CagePlan)) (ck : string)
    (prev_end : option Z) : result CagePlan :=
  match plans !! ck with
  | None => raise KeyError
  | Some by_arm =>
      match prev_end with
      | None => raise KeyError
      | Some s =>
          match by_arm !! s with
          | None => raise KeyError
          | Some plan => ok plan
          end
      end
  end.

(** the keys of [min(remaining, key=lambda ck: plans[ck][prev_end]['cost'])] *)
Fixpoint keyed_by_cost (plans : gmap string (gmap Z CagePlan))
    (prev_end : option Z) (remaining : list string) : result (list (string * Z)) :=
  match remaining with
  | [] => ok []
  | ck :: rest =>
      try plan <- plan_at plans ck prev_end;;
      try keyed <- keyed_by_cost plans prev_end rest;;
      ok ((ck, cost plan) :: keyed)
  end.

Definition cheapest (plans : gmap string (gmap Z CagePlan))
    (prev_end : option Z) (remaining : list string) : result string :=
  try keyed <- keyed_by_cost plans prev_end remaining;;
  match keyed with
  | [] => raise ValueError
  | x :: xs => ok (first_min Z.ltb x xs).1
  end.

(** [remaining.remove(current)] *)
Definition set_remove (current : string) (remaining : list string)
  : result (list string) :=
  if decide (current ∈ remaining)
  then ok (filter (fun ck => ck ≠ current) remaining)
  else raise KeyError.

(** [while remaining: ...].  Every iteration removes a cage from
    [remaining]; [rounds] bounds the number of iterations. *)
Fixpoint greedy (rounds : nat) (plans : gmap string (gmap Z CagePlan))
    (remaining : list string) (current : option string) (prev_end : option Z)
    (total_cost : Z) (seq : list string) (chosen : gmap string CagePlan)
  : result (Z * list string * gmap string CagePlan * option Z) :=
  match remaining with
  | [] => ok (total_cost, seq, chosen, prev_end)
  | _ :: _ =>
      match rounds with
      | O => raise TypeError
      | S rounds' =>
          try current <- match current with
                         | None => cheapest plans prev_end remaining
                         | Some c => ok c
                         end;;
          try plan <- plan_at plans current prev_end;;
          try remaining <- set_remove current remaining;;
          greedy rounds' plans remaining None (end_arm plan)
                 (total_cost + cost plan) (seq ++ [current])
                 (<[current := plan]> chosen)
      end
  end.

(** one pass of the two outer loops, for [start_arm] and [first_cage] *)
Definition greedy_from (plans : gmap string (gmap Z CagePlan))
    (cage_names : list string) (start_arm : Z) (first_cage : string)
  : result (Z * (Z * list string * gmap string CagePlan)) :=
  try r <- greedy (length cage_names) plans (set_order cage_names)
                  (Some first_cage) (Some start_arm) 0 [] ∅;;
  let '(total_cost, seq, chosen, prev_end) := r in
  let total_cost :=
    total_cost + (if decide (prev_end = Some start_arm) then 0 else 1) in
  ok (total_cost, (start_arm, seq, chosen)).

(** [for start_arm in (1, 2, 3): for first_cage in cage_names: ...] *)
Fixpoint search (plans : gmap string (gmap Z CagePlan)) (cage_names : list string)
    (starts : list (Z * string))
    (best : option (Z * (Z * list string * gmap string CagePlan)))
  : result (option (Z * (Z * list string * gmap string CagePlan))) :=
  match starts with
  | [] => ok best
  | (start_arm, first_cage) :: rest =>
      try r <- greedy_from plans cage_names start_arm first_cage;;
      let best :=
        match best with
        | None => Some r
        | Some (best_total, best_solution) =>
            if r.1 <? best_total then Some r else best
        end in
      search plans cage_names rest best
  end.

(** [for c in cage_sequence: ... for a, arm in zip(animals, colors): ...] *)
Fixpoint build_output (cages : list (string * list Animal))
    (chosen_plans : gmap string CagePlan) (cage_sequence : list string)
    (ordered_animals : list Animal) (per_animal_exit : gmap string Z)
  : result (list Animal * gmap string Z) :=
  match cage_sequence with
  | [] => ok (ordered_animals, per_animal_exit)
  | c :: rest =>
      match dict_get c cages, chosen_plans !! c with
      | Some animals, Some plan =>
          let pairs := zip animals (colors plan) in
          build_output cages chosen_plans rest
            (ordered_animals ++ map fst pairs)
            (fold_left (fun m p => <[AnimalID p.1 := p.2]> m) pairs per_animal_exit)
      | _, _ => raise KeyError
      end
  end.

Definition build_nonlearning_plan_cage_packs (animal_data : list Animal)
    (learning_exit_map : gmap string Z) : result (list Animal * gmap string Z) :=
  let cages := group_animals_by_cage_in_order animal_data in
  let cage_names := map fst cages in
  try plans <- plans_of cages learning_exit_map;;
  let starts := s ← [1; 2; 3]; c ← cage_names; [(s, c)] in
  try best <- search plans cage_names starts None;;
  match best with
  | None => raise TypeError
  | Some (_, (_, cage_sequence, chosen_plans)) =>
      build_output cages chosen_plans cage_sequence [] ∅
  end.

(** [range(n)] *)
Definition range (n : Z) : list Z := map Z.of_nat (seq 0 (Z.to_nat n)).

Definition header_of (n_trials : Z) : list string :=
  ["AnimalID"; "Tag"; "Sex"; "Genotype"; "Cage"; "ExitArm"]
    ++ map (fun i => "T" +:+ pretty (i + 1)) (range n_trials).

(** [l.remove(x)]: the first occurrence is removed *)
Fixpoint list_remove (x : Z) (l : list Z) : result (list Z) :=
  match l with
  | [] => raise ValueError
  | y :: l' =>
      if decide (y = x) then ok l'
      else try r <- list_remove x l';; ok (y :: r)
  end.

(** [{a['AnimalID']: exit_arm_map[a['AnimalID']] for a in animals_today}] *)
Fixpoint learning_exits (animals_today : list Animal) (exit_arm_map : gmap string Z)
    (per_day_exit : gmap string Z) : result (gmap string Z) :=
  match animals_today with
  | [] => ok per_day_exit
  | a :: rest =>
      match exit_arm_map !! AnimalID a with
      | None => raise KeyError
      | Some arm => learning_exits rest exit_arm_map (<[AnimalID a := arm]> per_day_exit)
      end
  end.

(** the body of [for animal in animals_today] *)
Definition day_row (in_learning : bool) (n_trials : Z)
    (exit_arm_map per_day_exit : gmap string Z) (animal : Animal)
    (g : Random.state) : result (list cell * Random.state) :=
  let aid := AnimalID animal in
  match per_day_exit !! aid with
  | None => raise KeyError
  | Some exit_arm_today =>
      try other <- list_remove exit_arm_today [1; 2; 3];;
      match other with
      | [armA; armB] =>
          try avoid_first <-
            (if in_learning then ok exit_arm_today
             else match exit_arm_map !! aid with
                  | None => raise KeyError
                  | Some arm => ok arm
                  end);;
          try '(trials, g) <-
            generate_pseudorandom_sequence frames n_trials armA armB
              (Some avoid_first) g;;
          ok ([CStr aid; CStr (Tag animal); CStr (Sex animal);
               CStr (Genotype animal); CStr (Cage animal); CInt exit_arm_today]
                ++ map CInt trials, g)
      | _ => raise ValueError
      end
  end.

Fixpoint day_rows (in_learning : bool) (n_trials : Z)
    (exit_arm_map per_day_exit : gmap string Z) (animals_today : list Animal)
    (g : Random.state) : result (list (list cell) * Random.state) :=
  match animals_today with
  | [] => ok ([], g)
  | animal :: rest =>
      try '(row, g) <- day_row in_learning n_trials exit_arm_map per_day_exit animal g;;
      try '(rows, g) <- day_rows in_learning n_trials exit_arm_map per_day_exit rest g;;
      ok (row :: rows, g)
  end.

(** the body of [for d in range(total_days)] *)
Definition day_table (animal_data : list Animal) (learning_days n_trials : Z)
    (exit_arm_map : gmap string Z) (d : Z) (g : Random.state)
  : result (DayTable * Random.state) :=
  let in_learning := d <? learning_days in
  let header := header_of n_trials in
  try '(animals_today, per_day_exit) <-
    (if in_learning then
       try per_day_exit <- learning_exits animal_data exit_arm_map ∅;;
       ok (animal_data, per_day_exit)
     else build_nonlearning_plan_cage_packs animal_data exit_arm_map);;
  try '(rows, g) <- day_rows in_learning n_trials exit_arm_map per_day_exit animals_today g;;
  ok ({| day := d + 1;
         type := if in_learning then "Learning" else "Reversal";
         header := header;
         rows := rows |}, g).

Fixpoint day_tables_for (animal_data : list Animal) (learning_days n_trials : Z)
    (exit_arm_map : gmap string Z) (days : list Z) (g : Random.state)
  : result (list DayTable * Random.state) :=
  match days with
  | [] => ok ([], g)
  | d :: rest =>
      try '(table, g) <- day_table animal_data learning_days n_trials exit_arm_map d g;;
      try '(tables, g) <- day_tables_for animal_data learning_days n_trials exit_arm_map rest g;;
      ok (table :: tables, g)
  end.

(** [generate_day_tables] of the backend.  The one of the desktop
    application builds the same rows day by day and returns a text
    rendering of every table next to them. *)
Definition generate_day_tables (animal_data : list Animal)
    (learning_days reversal_days n_trials : Z) (exit_arm_map : gmap string Z)
    (g : Random.state) : result (list DayTable * Random.state) :=
  let total_days := learning_days + reversal_days in
  if total_days <=? 0 then ok ([], g)
  else day_tables_for animal_data learning_days n_trials exit_arm_map
                      (range total_days) g.

(** ** The request handler of the backend *)

(** [class ScheduleRequest(BaseModel)] *)
Record ScheduleRequest : Type := mkRequest {
  animals : list Animal;
  learning_days : Z;        (* Field(..., gt=0) *)
  reversal_days : Z;        (* Field(..., ge=0) *)
  trials_per_day : Z;       (* Field(..., gt=0) *)
  seed : option Z;
  use_example : bool
}.

(** The constraints of the fields: building a [ScheduleRequest] that
    violates one raises a validation error, and the handler is not
    entered. *)
Definition validate (request : ScheduleRequest) : result ScheduleRequest :=
  if (0 <? learning_days request) && (0 <=? reversal_days request)
     && (0 <? trials_per_day request)
  then ok request
  else raise ValidationError.

Record ScheduleResponse : Type := mkResponse {
  success : bool;
  exit_arm_map : gmap string Z;
  day_tables : list DayTable
}.

(** [random.seed(s)]: the state of the generator after seeding. *)
Variable seed_state : Z -> Random.state.

(** [str(EXAMPLE_ANIMALS_PATH)], the path of
    example_data/animals.csv next to the backend. *)
Variable EXAMPLE_ANIMALS_PATH : string.

(** The example file: [None] when it does not exist, otherwise what
    [pd.read_csv(...)] followed by [to_dict('records')] makes of it:
    the exception raised by the reader (a file that cannot be opened or
    is not a table), or the records.  The records are taken to have the
    five columns with the cells as the strings of the file; a table
    that lacks a column, or whose cells the reader turns into numbers,
    is outside the model. *)
Variable example_file : option (result (list Animal)).

Definition load_example_animals : result (list Animal) :=
  match example_file with
  | None =>
      raise (FileNotFoundError
               ("Missing example dataset at " +:+ EXAMPLE_ANIMALS_PATH))
  | Some read_csv => read_csv
  end.

(** the [try] block of [generate_schedule] *)
Definition generate_schedule_body (request : ScheduleRequest) (g : Random.state)
  : result (ScheduleResponse * Random.state) :=
  let g := match seed request with
           | Some s => seed_state s
           | None => g
           end in
  try animal_data <-
    (if use_example request || bool_decide (animals request = [])
     then match load_example_animals with
          | inl (FileNotFoundError message) => raise (HTTPException 400 message)
          | r => r
          end
     else ok (animals request));;
  if bool_decide (animal_data = []) then
    raise (HTTPException 400 "No animals provided.")
  else
    let '(exit_arm_map, g) := assign_balanced_exit_arms animal_data g in
    try '(day_tables, g) <-
      generate_day_tables animal_data (learning_days request)
        (reversal_days request) (trials_per_day request) exit_arm_map g;;
    ok ({| success := true; exit_arm_map := exit_arm_map;
           day_tables := day_tables |}, g).

(** [except HTTPException: raise] and
    [except Exception as e: raise HTTPException(status_code=500, ...)] *)
Definition generate_schedule (request : ScheduleRequest) (g : Random.state)
  : result (ScheduleResponse * Random.state) :=
  match generate_schedule_body request g with
  | inl (HTTPException status_code detail) => raise (HTTPException status_code detail)
  | inl e => raise (HTTPException 500 (str_exn e))
  | inr r => ok r
  end.

(** [POST /generate-schedule]: the request model is validated, then
    the handler runs. *)
Definition post_generate_schedule (request : ScheduleRequest) (g : Random.state)
  : result (ScheduleResponse * Random.state) :=
  try request <- validate request;;
  generate_schedule request g.

End Engine.

(** ** The Excel export of the backend *)

(** A sheet handed to the writer: [df.to_excel(writer, sheet_name=...)]
    for a frame with the columns [columns] and the rows [data].  The
    frames are built by the data-frame library and the file is written
    by the spreadsheet library. *)
Record Sheet : Type := mkSheet {
  sheet_title : string;
  columns : list string;
  data : list (list cell)
}.

(** [f"Day{table['day']}_{table['type']}"] *)
Definition sheet_name (table : DayTable) : string :=
  "Day" +:+ pretty (day table) +:+ "_" +:+ type table.

(** [for table in day_tables: ...] *)
Definition write_sheets (day_tables : list DayTable) : list Sheet :=
  map (fun table => {| sheet_title := sheet_name table;
                       columns := header table;
                       data := rows table |}) day_tables.

Section ExcelExport.

Variable set_order : list string -> list string.
Variable frames : nat.
Variable seed_state : Z -> Random.state.
Variable EXAMPLE_ANIMALS_PATH : string.
Variable example_file : option (result (list Animal)).

(** the [try] block of [export_excel] *)
Definition export_excel_body (request : ScheduleRequest) (g : Random.state)
  : result (list Sheet * Random.state) :=
  let g := match seed request with
           | Some s => seed_state s
           | None => g
           end in
  try animal_data <-
    (if use_example request || bool_decide (animals request = [])
     then match load_example_animals EXAMPLE_ANIMALS_PATH example_file with
          | inl (FileNotFoundError message) => raise (HTTPException 400 message)
          | r => r
          end
     else ok (animals request));;
  if bool_decide (animal_data = []) then
    raise (HTTPException 400 "No animals provided.")
  else
    let '(exit_arm_map, g) := assign_balanced_exit_arms animal_data g in
    try '(day_tables, g) <-
      generate_day_tables set_order frames animal_data (learning_days request)
        (reversal_days request) (trials_per_day request) exit_arm_map g;;
    ok (write_sheets day_tables, g).

(** [except HTTPException: raise] and
    [except Exception as e: raise HTTPException(status_code=500, ...)] *)
Definition export_excel (request : ScheduleRequest) (g : Random.state)
  : result (list Sheet * Random.state) :=
  match export_excel_body request g with
  | inl (HTTPException status_code detail) => raise (HTTPException status_code detail)
  | inl e => raise (HTTPException 500 (str_exn e))
  | inr r => ok r
  end.

End ExcelExport.

(** ** The tables of the desktop application *)

(** [sep.join(items)] *)
Fixpoint join (sep : string) (items : list string) : string :=
  match items with
  | [] => ""
  | [x] => x
  | x :: items' => x +:+ sep +:+ join sep items'
  end.

(** [str(x)] for a cell *)
Definition str (x : cell) : string :=
  match x with
  | CStr s => s
  | CInt z => pretty z
  end.

Definition tab : string := String (Ascii.ascii_of_nat 9) "".
Definition newline : string := String (Ascii.ascii_of_nat 10) "".

Module Desktop.

Section Tables.

Variable set_order : list string -> list string.
Variable frames : nat.

(** the body of [for d in range(total_days)]: the table as a list of
    rows with the header first, and its text *)
Definition day_table (animal_data : list Animal) (learning_days n_trials : Z)
    (exit_arm_map : gmap string Z) (d : Z) (g : Random.state)
  : result (list (list cell) * string * Random.state) :=
  let in_learning := d <? learning_days in
  let header := header_of n_trials in
  try '(animals_today, per_day_exit) <-
    (if in_learning then
       try per_day_exit <- learning_exits animal_data exit_arm_map ∅;;
       ok (animal_data, per_day_exit)
     else build_nonlearning_plan_cage_packs set_order animal_data exit_arm_map);;
  try '(rows, g) <-
    day_rows frames in_learning n_trials exit_arm_map per_day_exit animals_today g;;
  let text_lines :=
    ["Day " +:+ pretty (d + 1) +:+ " ("
       +:+ (if in_learning then "Learning" else "Reversal") +:+ "):"]
      ++ [join tab header]
      ++ map (fun r => join tab (map str r)) rows in
  let table_str := join newline text_lines in
  ok (map CStr header :: rows, table_str, g).

Fixpoint day_tables_for (animal_data : list Animal) (learning_days n_trials : Z)
    (exit_arm_map : gmap string Z) (days : list Z) (g : Random.state)
  : result (list (list (list cell)) * list string * Random.state) :=
  match days with
  | [] => ok ([], [], g)
  | d :: rest =>
      try '(table, table_str, g) <-
        day_table animal_data learning_days n_trials exit_arm_map d g;;
      try '(day_tables_data, day_tables_text, g) <-
        day_tables_for animal_data learning_days n_trials exit_arm_map rest g;;
      ok (table :: day_tables_data, table_str :: day_tables_text, g)
  end.

(** [generate_day_tables] of src/code.py: it returns
    [(day_tables_data, day_tables_text)]. *)
Definition generate_day_tables (animal_data : list Animal)
    (learning_days reversal_days n_trials : Z) (exit_arm_map : gmap string Z)
    (g : Random.state)
  : result (list (list (list cell)) * list string * Random.state) :=
  let total_days := learning_days + reversal_days in
  if total_days <=? 0 then ok ([], [], g)
  else day_tables_for animal_data learning_days n_trials exit_arm_map
                      (range total_days) g.

End Tables.

(** The rows that [on_export_one_csv] hands to [writer.writerow], in
    order; [None] when a table has no row at all and [rows[0]] fails.
    [day_idx] counts the tables from [start]. *)
Fixpoint combined_rows (start : Z) (day_tables_data : list (list (list cell)))
  : option (list (list cell)) :=
  match day_tables_data with
  | [] => Some []
  | rows :: rest =>
      match rows with
      | [] => None
      | rows_0 :: rows_1 =>
          let header := CStr "Day" :: rows_0 in
          let written :=
            (if start =? 1 then [header] else [])
              ++ map (fun row => CInt start :: row) rows_1 in
          match combined_rows (start + 1) rest with
          | None => None
          | Some more => Some (written ++ more)
          end
      end
  end.

(** what [on_export_one_csv] does *)
Inductive export_outcome : Type :=
| NothingToExport                         (* "Export aborted: nothing to export." *)
| ExportCanceled                          (* "Export canceled." *)
| IndexError                              (* [rows[0]] of an empty table *)
| Written (save_path : string) (csv_rows : list (list cell)).

(** [on_export_one_csv], for the tables stored by the application and
    the path chosen in the dialog (empty when the dialog is closed) *)
Definition on_export_one_csv (day_tables_data : option (list (list (list cell))))
    (save_path : string) : export_outcome :=
  match day_tables_data with
  | None | Some [] => NothingToExport
  | Some day_tables_data =>
      if bool_decide (save_path = "") then ExportCanceled
      else match combined_rows 1 day_tables_data with
           | None => IndexError
           | Some csv_rows => Written save_path csv_rows
           end
  end.

End Desktop.

(** ** The parser of the desktop application

    The parser looks inside the strings, so here a Python string is
    the list of its code points.  The records it returns go to the
    engine, which only compares and copies their strings: a field of
    a record is the UTF-8 encoding of its code points. *)

Module Parser.

(** the code points of an ASCII literal *)
Definition literal (s : string) : list Z :=
  map (fun c => Z.of_nat (Ascii.nat_of_ascii c)) (String.list_ascii_of_string s).

(** the encoding of a string as the engine holds it *)
Definition utf8_char (c : Z) : list Ascii.ascii :=
  map (fun b => Ascii.ascii_of_nat (Z.to_nat b))
    (if c <? 128 then [c]
     else if c <? 2048 then [192 + c / 64; 128 + c mod 64]
     else if c <? 65536 then
       [224 + c / 4096; 128 + (c / 64) mod 64; 128 + c mod 64]
     else [240 + c / 262144; 128 + (c / 4096) mod 64;
           128 + (c / 64) mod 64; 128 + c mod 64]).

Definition utf8 (s : list Z) : string :=
  String.string_of_list_ascii (concat (map utf8_char s)).

(** [c.isspace()]: the characters that [strip()] removes and at which
    [split()] splits *)
Definition isspace (c : Z) : bool :=
  (9 <=? c) && (c <=? 13) || (28 <=? c) && (c <=? 32)
  || (c =? 133) || (c =? 160) || (c =? 5760)
  || (8192 <=? c) && (c <=? 8202)
  || (c =? 8232) || (c =? 8233) || (c =? 8239) || (c =? 8287) || (c =? 12288).

Fixpoint lstrip (s : list Z) : list Z :=
  match s with
  | [] => []
  | c :: s' => if isspace c then lstrip s' else s
  end.

Definition rstrip (s : list Z) : list Z := rev (lstrip (rev s)).

(** [s.strip()] *)
Definition strip (s : list Z) : list Z := rstrip (lstrip s).

(** [s.replace(old, new)] for two characters *)
Definition replace (old new : Z) (s : list Z) : list Z :=
  map (fun c => if c =? old then new else c) s.

(** U+2011, U+2013, U+2014 and U+2212 become U+002D *)
Definition _norm_hyphens (s : list Z) : list Z :=
  strip (replace 8722 45 (replace 8212 45 (replace 8211 45 (replace 8209 45 s)))).

(** [s.split()]: [cur] is the word being read *)
Fixpoint split_from (cur s : list Z) : list (list Z) :=
  match s with
  | [] => match cur with [] => [] | _ => [cur] end
  | c :: s' =>
      if isspace c then
        match cur with
        | [] => split_from [] s'
        | _ => cur :: split_from [] s'
        end
      else split_from (cur ++ [c]) s'
  end.

Definition split (s : list Z) : list (list Z) := split_from [] s.

(** the characters that end a line for [splitlines()] *)
Definition is_linebreak (c : Z) : bool :=
  (10 <=? c) && (c <=? 13) || (28 <=? c) && (c <=? 30)
  || (c =? 133) || (c =? 8232) || (c =? 8233).

(** [s.splitlines()]: a carriage return with the line feed after it
    ends one line *)
Fixpoint splitlines_from (cur s : list Z) : list (list Z) :=
  match s with
  | [] => match cur with [] => [] | _ => [cur] end
  | c :: s' =>
      if is_linebreak c then
        cur :: match s' with
               | c' :: s'' =>
                   if (c =? 13) && (c' =? 10) then splitlines_from [] s''
                   else splitlines_from [] s'
               | [] => []
               end
      else splitlines_from (cur ++ [c]) s'
  end.

Definition splitlines (s : list Z) : list (list Z) := splitlines_from [] s.

Fixpoint startswith (sub s : list Z) : bool :=
  match sub, s with
  | [], _ => true
  | a :: sub', b :: s' => (a =? b) && startswith sub' s'
  | _ :: _, [] => false
  end.

(** [sub in s] *)
Fixpoint contains (sub s : list Z) : bool :=
  startswith sub s
  || match s with
     | [] => false
     | _ :: s' => contains sub s'
     end.

(** [sep.join(items)] *)
Fixpoint join (sep : list Z) (items : list (list Z)) : list Z :=
  match items with
  | [] => []
  | [x] => x
  | x :: items' => x ++ sep ++ join sep items'
  end.

(** [t in ("Male", "Female")] *)
Definition is_sex (t : list Z) : bool :=
  bool_decide (t = literal "Male") || bool_decide (t = literal "Female").

(** [for i, t in enumerate(tokens): if t in ("Male", "Female"): sex_idx = i; break] *)
Fixpoint find_sex (i : nat) (tokens : list (list Z)) : option nat :=
  match tokens with
  | [] => None
  | t :: tokens' => if is_sex t then Some i else find_sex (S i) tokens'
  end.

(** The body of [for raw in lines]; [None] stands for [continue].  The
    tests before the indexing make every index valid. *)
Definition parse_line (raw : list Z) : option Animal :=
  let line := strip raw in
  if bool_decide (line = []) then None
  else if contains (literal "AnimalID") line && contains (literal "Sex") line then None
  else
    let tokens := split line in
    if (length tokens <? 4)%nat then None
    else
      match find_sex 0 tokens with
      | None => None
      | Some sex_idx =>
          if (sex_idx <? 1)%nat || (length tokens <? sex_idx + 2)%nat then None
          else
            let animal_id := default [] (tokens !! 0%nat) in
            let tag := strip (join [32] (take (sex_idx - 1) (drop 1 tokens))) in
            let sex := default [] (tokens !! sex_idx) in
            let cage := default [] (last tokens) in
            let genotype :=
              strip (join [32] (drop (sex_idx + 1) (take (length tokens - 1) tokens))) in
            let d := {| AnimalID := utf8 (_norm_hyphens animal_id);
                        Tag := utf8 (_norm_hyphens tag);
                        Sex := utf8 (_norm_hyphens sex);
                        Genotype := utf8 (_norm_hyphens genotype);
                        Cage := utf8 (_norm_hyphens cage) |} in
            if bool_decide (Genotype d = "") || bool_decide (Cage d = "") then None
            else Some d
      end.

(** [parse_animal_data(text)] *)
Definition parse_animal_data (text : list Z) : list Animal :=
  let lines := filter (fun line => strip line ≠ []) (splitlines text) in
  omap parse_line lines.

End Parser.

(** ** The actions of the desktop application *)

Module YMazeApp.

(** the attributes and the widgets that the actions read and write;
    [txt_animals] is the text that [txt_animals.get("1.0", tk.END)]
    returns *)
Record app : Type := mkApp {
  day_tables_data : option (list (list (list cell)));
  day_tables_text : option (list string);
  var_learning : list Z;
  var_reversal : list Z;
  var_trials : list Z;
  var_seed_on : bool;
  var_seed_val : list Z;
  txt_animals : list Z;
  txt_output : string;
  var_status : string
}.

(** [self.var_status.set(msg)] *)
Definition _set_status (msg : string) (self : app) : app :=
  {| day_tables_data := day_tables_data self;
     day_tables_text := day_tables_text self;
     var_learning := var_learning self;
     var_reversal := var_reversal self;
     var_trials := var_trials self;
     var_seed_on := var_seed_on self;
     var_seed_val := var_seed_val self;
     txt_animals := txt_animals self;
     txt_output := txt_output self;
     var_status := msg |}.

(** [self.txt_output.insert(tk.END, msg)] *)
Definition _write_output (msg : string) (self : app) : app :=
  {| day_tables_data := day_tables_data self;
     day_tables_text := day_tables_text self;
     var_learning := var_learning self;
     var_reversal := var_reversal self;
     var_trials := var_trials self;
     var_seed_on := var_seed_on self;
     var_seed_val := var_seed_val self;
     txt_animals := txt_animals self;
     txt_output := txt_output self +:+ msg;
     var_status := var_status self |}.

(** the two attributes are assigned, and the output is cleared and
    filled with the texts, two line feeds after each *)
Definition show_tables (data : list (list (list cell))) (text : list string)
    (self : app) : app :=
  {| day_tables_data := Some data;
     day_tables_text := Some text;
     var_learning := var_learning self;
     var_reversal := var_reversal self;
     var_trials := var_trials self;
     var_seed_on := var_seed_on self;
     var_seed_val := var_seed_val self;
     txt_animals := txt_animals self;
     txt_output := String.concat "" (map (fun t => t +:+ newline +:+ newline) text);
     var_status := var_status self |}.

Section Actions.

Variable set_order : list string -> list string.
Variable frames : nat.

(** [random.seed(n)] and [random.seed()]: the state of the generator
    after seeding from [n] and from the operating system *)
Variable seed_state : Z -> Random.state.
Variable entropy_state : Random.state.

(** [int(s)]; [None] when it raises [ValueError] *)
Variable int : list Z -> option Z.

(** [on_generate]: the application after the action, the message box
    shown if any (title and message), and the state of the generator *)
Definition on_generate (self : app) (g : Random.state)
  : result (app * option (string * string) * Random.state) :=
  match int (var_learning self), int (var_reversal self), int (var_trials self) with
  | Some learning_days, Some reversal_days, Some n_trials =>
      let raw_text := txt_animals self in
      let animal_data := Parser.parse_animal_data raw_text in
      if bool_decide (animal_data = []) then
        ok (_write_output ("No valid animal rows parsed. Check spacing/tabs." +:+ newline)
              (_set_status "No valid animal rows parsed. Check spacing/tabs." self),
            None, g)
      else if (learning_days <? 0) || (reversal_days <? 0) || (n_trials <=? 0) then
        ok (self,
            Some ("Invalid input", "Days must be >= 0 and trials/day must be > 0."), g)
      else
        match (if var_seed_on self
               then option_map seed_state (int (var_seed_val self))
               else Some entropy_state) with
        | None => ok (self, Some ("Invalid seed", "Seed must be an integer."), g)
        | Some g =>
            let '(learning_exit_map, g) := assign_balanced_exit_arms animal_data g in
            try '(data, text, g) <-
              Desktop.generate_day_tables set_order frames animal_data learning_days
                reversal_days n_trials learning_exit_map g;;
            ok (_set_status
                  ("Generated " +:+ pretty (learning_days + reversal_days)
                     +:+ " day(s) × " +:+ pretty n_trials +:+ " trials.")
                  (show_tables data text self),
                None, g)
        end
  | _, _, _ =>
      ok (self,
          Some ("Invalid input",
                "Learning days, reversal days, and trials must be integers."), g)
  end.

End Actions.

End YMazeApp.

(** * Properties *)

(** ** The shuffle permutes *)

Lemma swap_Permutation {A : Type} (i j : nat) (x : list A) :
  Random.swap i j x ≡ₚ x.
Proof.
  unfold Random.swap.
  destruct (x !! i) as [a|] eqn:Hi; [|done].
  destruct (x !! j) as [b|] eqn:Hj; [|done].
  by apply Permutation_insert_swap.
Qed.

Lemma shuffle_from_Permutation {A : Type} (i : nat) (x : list A) (g : Random.state) :
  (Random.shuffle_from i x g).1 ≡ₚ x.
Proof.
  revert x g. induction i as [|i IH]; intros x g; [done|].
  cbn [Random.shuffle_from].
  destruct (Random.randbelow (S i + 1) g) as [j g'].
  rewrite IH. apply swap_Permutation.
Qed.

Lemma shuffle_Permutation {A : Type} (x : list A) (g : Random.state) :
  (Random.shuffle x g).1 ≡ₚ x.
Proof. apply shuffle_from_Permutation. Qed.

(** ** Triple repeats *)

(** no index i has seq[i] == seq[i+1] == seq[i+2] *)
Definition no_triple (s : list Z) : Prop :=
  ∀ (i : nat) (a b c : Z),
    s !! i = Some a → s !! S i = Some b → s !! S (S i) = Some c →
    ¬ (a = b ∧ b = c).

(** every step from [cur] along [p] passes the two tests of [free_backtrack] *)
Fixpoint chain_ok (avoid_first : option Z) (cur p : list Z) : Prop :=
  match p with
  | [] => True
  | x :: p' =>
      skip_first avoid_first cur x = false
      ∧ valid (cur ++ [x]) = true
      ∧ chain_ok avoid_first (cur ++ [x]) p'
  end.

Lemma valid_snoc3 (l : list Z) (a b c : Z) :
  valid (l ++ [a; b; c]) = negb ((c =? b) && (b =? a)).
Proof.
  unfold valid. rewrite rev_app_distr. reflexivity.
Qed.

Lemma valid_short (l : list Z) : (length l < 3)%nat → valid l = true.
Proof.
  intros H. unfold valid.
  assert (length (rev l) < 3)%nat as H' by (by rewrite length_rev).
  destruct (rev l) as [|a [|b [|c r]]]; simpl in *; try done; lia.
Qed.

Lemma no_triple_short (l : list Z) : (length l < 3)%nat → no_triple l.
Proof.
  intros H i a b c _ _ Hc. apply lookup_lt_Some in Hc. lia.
Qed.

(** a list of length three or more, split at its last three items *)
Lemma last_three (l : list Z) :
  (3 ≤ length l)%nat → ∃ l' a b c, l = l' ++ [a; b; c].
Proof.
  intros H.
  destruct (rev l) as [|c [|b [|a r]]] eqn:E;
    try (apply (f_equal (@length Z)) in E; rewrite length_rev in E; simpl in E; lia).
  exists (rev r), a, b, c.
  apply (f_equal (@rev Z)) in E. rewrite rev_involutive in E. rewrite E.
  simpl. by rewrite <- !app_assoc.
Qed.

Lemma no_triple_snoc (cur : list Z) (x : Z) :
  no_triple cur → valid (cur ++ [x]) = true → no_triple (cur ++ [x]).
Proof.
  intros Hcur Hv.
  destruct (decide (length cur < 2)%nat) as [Hlt|Hge].
  { apply no_triple_short. rewrite length_app. simpl. lia. }
  destruct (last_three (cur ++ [x])) as (l' & a & b & c & E).
  { rewrite length_app. simpl. lia. }
  assert (cur = l' ++ [a; b] ∧ x = c) as [-> ->].
  { change [a; b; c] with ([a; b] ++ [c]) in E. rewrite app_assoc in E.
    by apply app_inj_tail in E. }
  rewrite E in Hv. rewrite valid_snoc3 in Hv.
  intros i u v w Hu Hv' Hw [-> ->].
  destruct (decide (S (S i) < length (l' ++ [a; b]))%nat) as [Hin|Hout].
  - apply (Hcur i w w w); try done.
    + rewrite lookup_app_l in Hu; [done|lia].
    + rewrite lookup_app_l in Hv'; [done|lia].
    + rewrite lookup_app_l in Hw; [done|lia].
  - assert (i = length l') as ->.
    { apply lookup_lt_Some in Hw. rewrite !length_app in *. simpl in *. lia. }
    rewrite <- app_assoc in Hu, Hv', Hw.
    rewrite lookup_app_r in Hu by lia.
    rewrite lookup_app_r in Hv' by lia.
    rewrite lookup_app_r in Hw by lia.
    replace (length l' - length l')%nat with 0%nat in Hu by lia.
    replace (S (length l') - length l')%nat with 1%nat in Hv' by lia.
    replace (S (S (length l')) - length l')%nat with 2%nat in Hw by lia.
    simpl in *. simplify_eq.
    rewrite !Z.eqb_refl in Hv. done.
Qed.

Lemma no_triple_valid_snoc (cur : list Z) (x : Z) :
  no_triple (cur ++ [x]) → valid (cur ++ [x]) = true.
Proof.
  intros H.
  destruct (decide (length cur < 2)%nat) as [Hlt|Hge].
  { apply valid_short. rewrite length_app. simpl. lia. }
  destruct (last_three (cur ++ [x])) as (l' & a & b & c & E).
  { rewrite length_app. simpl. lia. }
  rewrite E in *. rewrite valid_snoc3.
  destruct (Z.eqb_spec c b) as [->|]; [|done].
  destruct (Z.eqb_spec b a) as [->|]; [|done].
  exfalso. apply (H (length l') a a a); try done.
  - rewrite lookup_app_r by lia. by replace (length l' - length l')%nat with 0%nat by lia.
  - rewrite lookup_app_r by lia. by replace (S (length l') - length l')%nat with 1%nat by lia.
  - rewrite lookup_app_r by lia. by replace (S (S (length l')) - length l')%nat with 2%nat by lia.
Qed.

Lemma no_triple_prefix (l k : list Z) : no_triple (l ++ k) → no_triple l.
Proof.
  intros H i a b c Ha Hb Hc. apply (H i a b c); by apply lookup_app_l_Some.
Qed.

Lemma chain_ok_no_triple (avoid_first : option Z) (p cur : list Z) :
  chain_ok avoid_first cur p → no_triple cur → no_triple (cur ++ p).
Proof.
  revert cur. induction p as [|x p IH]; intros cur Hok Hcur.
  - by rewrite app_nil_r.
  - destruct Hok as (_ & Hv & Hok).
    change (x :: p) with ([x] ++ p). rewrite app_assoc.
    apply IH; [done|]. by apply no_triple_snoc.
Qed.

Lemma no_triple_chain_ok (avoid_first : option Z) (p cur : list Z) :
  no_triple (cur ++ p) →
  (cur = [] → ∀ a, avoid_first = Some a → head p ≠ Some a) →
  chain_ok avoid_first cur p.
Proof.
  revert cur. induction p as [|x p IH]; intros cur Hnt Hhd; [done|].
  change (x :: p) with ([x] ++ p) in Hnt. rewrite app_assoc in Hnt.
  split; [|split].
  - unfold skip_first. destruct avoid_first as [a|]; [|done].
    destruct cur as [|y cur]; [|done].
    simpl. destruct (Z.eqb_spec x a) as [->|]; [|done].
    by destruct (Hhd eq_refl a eq_refl).
  - apply no_triple_valid_snoc. by eapply no_triple_prefix.
  - apply IH; [done|]. by destruct cur.
Qed.

Lemma chain_ok_head (avoid_first : option Z) (p : list Z) (a : Z) :
  chain_ok avoid_first [] p → avoid_first = Some a → head p ≠ Some a.
Proof.
  destruct p as [|x p]; [done|].
  intros (Hs & _) -> [= ->]. simpl in Hs.
  by rewrite Z.eqb_refl in Hs.
Qed.

(** ** The search without the limit of the interpreter

    A device of the proofs: the search as it runs when no call is
    refused.  [depth] bounds the recursion, which removes one item per
    call.  The search of the program agrees with it wherever it
    returns, and returns when it has the frames. *)

(** the loop of the search from index [i] on; [rest] is [items[i:]]
    and [rec] the recursive call *)
Fixpoint free_loop (rec : list Z -> list Z -> option (list Z))
    (avoid_first : option Z) (cur items : list Z) (i : nat) (rest : list Z)
  : option (list Z) :=
  match rest with
  | [] => None
  | cand :: rest' =>
      if skip_first avoid_first cur cand
      then free_loop rec avoid_first cur items (S i) rest'
      else
        let new := cur ++ [cand] in
        if valid new then
          match rec new (take i items ++ drop (S i) items) with
          | Some out => Some out
          | None => free_loop rec avoid_first cur items (S i) rest'
          end
        else free_loop rec avoid_first cur items (S i) rest'
  end.

(** each call removes one item, so the depth of the recursion is
    [len(items)]; [depth] bounds it *)
Fixpoint free_backtrack (avoid_first : option Z) (depth : nat) (cur items : list Z)
  : option (list Z) :=
  match items with
  | [] => Some cur
  | _ :: _ =>
      match depth with
      | O => None
      | S depth' =>
          free_loop (free_backtrack avoid_first depth') avoid_first cur items 0 items
      end
  end.

(** the shuffled pool and the outcome of the search *)
Definition free_search (n_trials armA armB : Z) (avoid_first : option Z)
    (g : Random.state) : list Z * option (list Z) * Random.state :=
  let '(pool, g) := balanced_pool n_trials armA armB g in
  let '(pool, g) := Random.shuffle pool g in
  (pool, free_backtrack avoid_first (length pool) [] pool, g).

Definition free_sequence (n_trials armA armB : Z)
    (avoid_first : option Z) (g : Random.state) : list Z * Random.state :=
  let '(pool, seq, g) := free_search n_trials armA armB avoid_first g in
  (match seq with
   | Some (x :: s) => x :: s
   | _ => pool
   end, g).

(** the fallback is taken *)
Definition free_fallback (n_trials armA armB : Z) (avoid_first : option Z)
    (g : Random.state) : bool :=
  negb (truthy (free_search n_trials armA armB avoid_first g).1.2).

(** ** The backtracking search is sound and complete *)

Definition rec_sound (avoid_first : option Z)
    (rec : list Z → list Z → option (list Z)) : Prop :=
  ∀ cur items out, rec cur items = Some out →
    ∃ p, out = cur ++ p ∧ p ≡ₚ items ∧ chain_ok avoid_first cur p.

Lemma backtrack_loop_sound avoid_first rec cur items :
  rec_sound avoid_first rec →
  ∀ rest i out, drop i items = rest →
    free_loop rec avoid_first cur items i rest = Some out →
    ∃ p, out = cur ++ p ∧ p ≡ₚ items ∧ chain_ok avoid_first cur p.
Proof.
  intros Hrec rest. induction rest as [|cand rest IH]; intros i out Hdrop Hl; [done|].
  assert (items !! i = Some cand) as Hi.
  { rewrite <- (Nat.add_0_r i), <- lookup_drop, Hdrop. done. }
  assert (drop (S i) items = rest) as Hdrop'.
  { replace (S i) with (i + 1)%nat by lia. rewrite <- drop_drop, Hdrop. done. }
  cbn [free_loop] in Hl.
  destruct (skip_first avoid_first cur cand) eqn:Hskip; [by eapply IH|].
  destruct (valid (cur ++ [cand])) eqn:Hv; [|by eapply IH].
  destruct (rec (cur ++ [cand]) (take i items ++ drop (S i) items)) as [o|] eqn:Hr;
    [|by eapply IH].
  injection Hl as ->.
  apply Hrec in Hr as (p & -> & Hp & Hok).
  exists (cand :: p). split; [by rewrite <- app_assoc|]. split; [|done].
  rewrite Hp, <- delete_take_drop. symmetry. by apply delete_Permutation.
Qed.

Lemma backtrack_sound avoid_first depth : rec_sound avoid_first (free_backtrack avoid_first depth).
Proof.
  induction depth as [|depth IH]; intros cur items out H.
  - destruct items; [|done]. injection H as <-. exists []. by rewrite app_nil_r.
  - destruct items as [|x items].
    + injection H as <-. exists []. by rewrite app_nil_r.
    + cbn [free_backtrack] in H.
      eapply (backtrack_loop_sound _ _ _ _ IH _ 0%nat); [|exact H]. done.
Qed.

Definition rec_complete (avoid_first : option Z) (depth : nat)
    (rec : list Z → list Z → option (list Z)) : Prop :=
  ∀ cur items p, (length items ≤ depth)%nat → p ≡ₚ items →
    chain_ok avoid_first cur p → is_Some (rec cur items).

Lemma backtrack_loop_complete avoid_first depth rec cur items x p :
  rec_complete avoid_first depth rec →
  (length items ≤ S depth)%nat →
  x :: p ≡ₚ items → chain_ok avoid_first cur (x :: p) →
  ∀ rest i, drop i items = rest → x ∈ rest →
    is_Some (free_loop rec avoid_first cur items i rest).
Proof.
  intros Hrec Hlen Hp (Hskip & Hv & Hok) rest.
  induction rest as [|cand rest IH]; intros i Hdrop Hin; [by apply elem_of_nil in Hin|].
  assert (items !! i = Some cand) as Hi.
  { rewrite <- (Nat.add_0_r i), <- lookup_drop, Hdrop. done. }
  assert (drop (S i) items = rest) as Hdrop'.
  { replace (S i) with (i + 1)%nat by lia. rewrite <- drop_drop, Hdrop. done. }
  cbn [free_loop].
  destruct (decide (cand = x)) as [->|Hne].
  - rewrite Hskip, Hv.
    destruct (Hrec (cur ++ [x]) (take i items ++ drop (S i) items) p) as [o Ho].
    + rewrite <- delete_take_drop, length_delete by eauto. lia.
    + rewrite <- delete_take_drop.
      apply (Permutation_cons_inv (a := x)).
      rewrite Hp. by apply delete_Permutation.
    + done.
    + rewrite Ho. eauto.
  - assert (x ∈ rest) as Hin' by (apply elem_of_cons in Hin as [->|]; done).
    specialize (IH (S i) Hdrop' Hin').
    destruct (skip_first avoid_first cur cand); [done|].
    destruct (valid (cur ++ [cand])); [|done].
    destruct (rec _ _); eauto.
Qed.

Lemma backtrack_complete avoid_first depth :
  rec_complete avoid_first depth (free_backtrack avoid_first depth).
Proof.
  induction depth as [|depth IH]; intros cur items p Hlen Hp Hok.
  - destruct items; [by eexists|simpl in Hlen; lia].
  - destruct items as [|y items]; [by eexists|].
    cbn [free_backtrack].
    destruct p as [|x p]; [by apply Permutation_nil_cons in Hp|].
    eapply backtrack_loop_complete; eauto.
    rewrite <- Hp. by left.
Qed.

(** The bound on the depth only has to be large enough. *)
Lemma backtrack_depth avoid_first d1 d2 cur items :
  (length items ≤ d1)%nat → (length items ≤ d2)%nat →
  free_backtrack avoid_first d1 cur items = free_backtrack avoid_first d2 cur items.
Proof.
  revert d2 cur items. induction d1 as [|d1 IH]; intros d2 cur items H1 H2.
  - destruct items; [|simpl in H1; lia]. by destruct d2.
  - destruct items as [|y items]; [by destruct d2|].
    destruct d2 as [|d2]; [simpl in H2; lia|].
    cbn [free_backtrack].
    assert (∀ rest i, (i + length rest = length (y :: items))%nat →
      free_loop (free_backtrack avoid_first d1) avoid_first cur (y :: items) i rest
      = free_loop (free_backtrack avoid_first d2) avoid_first cur (y :: items) i rest) as Hl.
    { intros rest. induction rest as [|c rest IHr]; intros i Hi; [done|].
      cbn [free_loop].
      rewrite (IHr (S i)) by (simpl in *; lia).
      rewrite (IH d2).
      - done.
      - rewrite <- delete_take_drop.
        rewrite length_delete by (apply lookup_lt_is_Some_2; simpl in *; lia).
        simpl in *. lia.
      - rewrite <- delete_take_drop.
        rewrite length_delete by (apply lookup_lt_is_Some_2; simpl in *; lia).
        simpl in *. lia. }
    apply Hl. simpl. lia.
Qed.

(** ** The balanced pool *)

Lemma Counter_Permutation (s t : list Z) (a : Z) : s ≡ₚ t → Counter s a = Counter t a.
Proof. intros H. unfold Counter. by rewrite H. Qed.

Lemma Counter_app (s t : list Z) (a : Z) : Counter (s ++ t) a = Counter s a + Counter t a.
Proof. unfold Counter. rewrite filter_app, length_app. lia. Qed.

Lemma Counter_cons (x : Z) (s : list Z) (a : Z) :
  Counter (x :: s) a = (if decide (x = a) then 1 else 0) + Counter s a.
Proof.
  unfold Counter. rewrite filter_cons. destruct (decide (x = a)); simpl; lia.
Qed.

Lemma Counter_repeat (x : Z) (n : nat) (a : Z) :
  Counter (repeat x n) a = if decide (x = a) then Z.of_nat n else 0.
Proof.
  induction n as [|n IH]; simpl repeat.
  - unfold Counter. simpl. by destruct (decide (x = a)).
  - rewrite Counter_cons, IH. destruct (decide (x = a)); lia.
Qed.

Lemma balanced_pool_shape (n_trials armA armB : Z) (g : Random.state) :
  0 ≤ n_trials →
  ∃ countA countB : nat,
    (balanced_pool n_trials armA armB g).1 = repeat armA countA ++ repeat armB countB
    ∧ Z.of_nat countA + Z.of_nat countB = n_trials
    ∧ Z.abs (Z.of_nat countA - Z.of_nat countB) ≤ 1.
Proof.
  intros Hn. unfold balanced_pool.
  pose proof (Z.div_mod n_trials 2 ltac:(lia)) as Hdm.
  pose proof (Z.mod_pos_bound n_trials 2 ltac:(lia)) as Hmod.
  assert (0 ≤ n_trials / 2) as Hdiv by (apply Z.div_pos; lia).
  destruct (Z.eqb_spec (n_trials mod 2) 1) as [H1|H1].
  - destruct (Random.random g) as [r g'].
    destruct (r <? Random.half)%N; simpl.
    + exists (Z.to_nat (n_trials / 2 + 1)), (Z.to_nat (n_trials / 2)).
      split; [done|]. lia.
    + exists (Z.to_nat (n_trials / 2)), (Z.to_nat (n_trials / 2 + 1)).
      split; [done|]. lia.
  - simpl. exists (Z.to_nat (n_trials / 2)), (Z.to_nat (n_trials / 2)).
    split; [done|]. lia.
Qed.

(** ** A valid arrangement of every balanced pool of two or more trials *)

Fixpoint no_tripleb (s : list Z) : bool :=
  match s with
  | [] => true
  | a :: t =>
      match t with
      | b :: c :: _ => negb ((a =? b) && (b =? c))
      | _ => true
      end && no_tripleb t
  end.

Lemma no_tripleb_sound (s : list Z) : no_tripleb s = true → no_triple s.
Proof.
  induction s as [|a t IH]; intros H; [by apply no_triple_short; simpl; lia|].
  cbn [no_tripleb] in H. apply andb_true_iff in H as [H0 Ht].
  intros [|i] u v w Hu Hv Hw [-> ->].
  - destruct t as [|b [|c t]]; simpl in *; simplify_eq.
    rewrite !Z.eqb_refl in H0. done.
  - simpl in *. by apply (IH Ht i w w w).
Qed.

(** y, x, y, x, ... : [k] pairs *)
Fixpoint alternate (y x : Z) (k : nat) : list Z :=
  match k with
  | O => []
  | S k' => y :: x :: alternate y x k'
  end.

(** an arrangement of [cx] times x and [cy] times y that starts with y *)
Definition arrangement (x y : Z) (cx cy : nat) : list Z :=
  if (cx <=? cy)%nat then alternate y x cx ++ repeat y (cy - cx)
  else [y; x; x] ++ alternate y x (cy - 1).

Lemma alternate_Permutation (y x : Z) (k : nat) :
  alternate y x k ≡ₚ repeat x k ++ repeat y k.
Proof.
  induction k as [|k IH]; [done|].
  simpl. rewrite IH, perm_swap. apply perm_skip, Permutation_middle.
Qed.

Lemma arrangement_Permutation (x y : Z) (cx cy : nat) :
  (cx ≤ S cy)%nat → (cy ≤ S cx)%nat → (2 ≤ cx + cy)%nat →
  arrangement x y cx cy ≡ₚ repeat x cx ++ repeat y cy.
Proof.
  intros H1 H2 H3. unfold arrangement.
  destruct (Nat.leb_spec cx cy) as [Hle|Hgt].
  - rewrite alternate_Permutation, <- app_assoc, <- repeat_app.
    by replace (cx + (cy - cx))%nat with cy by lia.
  - assert (cx = S cy) as -> by lia.
    destruct cy as [|cy]; [lia|].
    replace (S cy - 1)%nat with cy by lia.
    rewrite alternate_Permutation.
    simpl.
    rewrite <- (Permutation_middle (repeat x cy) (repeat y cy) y).
    rewrite (perm_swap x y). apply perm_skip.
    rewrite (perm_swap x y). done.
Qed.

Lemma no_tripleb_cons (a : Z) (t : list Z) :
  no_tripleb (a :: t)
  = match t with
    | b :: c :: _ => negb ((a =? b) && (b =? c))
    | _ => true
    end && no_tripleb t.
Proof. reflexivity. Qed.

Lemma alternate_no_triple (y x : Z) (k : nat) (tl : list Z) :
  x ≠ y → tl = [] ∨ tl = [y] →
  no_tripleb (alternate y x k ++ tl) = true
  ∧ no_tripleb (x :: alternate y x k ++ tl) = true.
Proof.
  intros Hne Htl. induction k as [|k [IH1 IH2]].
  - destruct Htl as [-> | ->]; done.
  - assert (no_tripleb (y :: x :: alternate y x k ++ tl) = true) as Hy.
    { rewrite no_tripleb_cons, IH2.
      destruct (alternate y x k ++ tl);
        destruct (Z.eqb_spec y x); try done; congruence. }
    split; [exact Hy|].
    cbn [alternate app]. rewrite no_tripleb_cons, Hy.
    destruct (Z.eqb_spec x y); try done; congruence.
Qed.

Lemma arrangement_no_triple (x y : Z) (cx cy : nat) :
  x ≠ y → (cx ≤ S cy)%nat → (cy ≤ S cx)%nat →
  no_triple (arrangement x y cx cy).
Proof.
  intros Hne H1 H2. apply no_tripleb_sound. unfold arrangement.
  destruct (Nat.leb_spec cx cy) as [Hle|Hgt].
  - apply alternate_no_triple; [done|].
    assert (cy - cx = 0 ∨ cy - cx = 1)%nat as [-> | ->] by lia; auto.
  - destruct (alternate_no_triple y x (cy - 1) [] Hne) as [Ha Hb]; [by left|].
    rewrite app_nil_r in *.
    change ([y; x; x] ++ ?l) with (y :: x :: x :: l).
    rewrite !no_tripleb_cons. rewrite no_tripleb_cons in Hb.
    apply andb_true_iff in Hb as [Hb1 Hb2]. rewrite Hb2.
    destruct (alternate y x (cy - 1)) as [|z l] eqn:E.
    + destruct (Z.eqb_spec y x); try done; congruence.
    + assert (z = y) as -> by (destruct (cy - 1)%nat; simpl in E; congruence).
      rewrite Hb1, !Z.eqb_refl.
      destruct (Z.eqb_spec y x); destruct (Z.eqb_spec x y); try done; congruence.
Qed.

Lemma arrangement_head (x y : Z) (cx cy : nat) :
  (2 ≤ cx + cy)%nat → (cx ≤ S cy)%nat → head (arrangement x y cx cy) = Some y.
Proof.
  intros H1 H2. unfold arrangement.
  destruct (Nat.leb_spec cx cy) as [Hle|Hgt]; [|done].
  destruct cx as [|cx]; [|done].
  destruct cy as [|cy]; [lia|done].
Qed.

Lemma valid_arrangement_exists (armA armB : Z) (countA countB : nat)
    (avoid_first : option Z) :
  armA ≠ armB → (2 ≤ countA + countB)%nat →
  (countA ≤ S countB)%nat → (countB ≤ S countA)%nat →
  ∃ p, p ≡ₚ repeat armA countA ++ repeat armB countB
       ∧ chain_ok avoid_first [] p.
Proof.
  intros Hne H2 HA HB.
  destruct (decide (avoid_first = Some armB)) as [->|Hav].
  - exists (arrangement armB armA countB countA). split.
    + rewrite arrangement_Permutation by lia. apply Permutation_app_comm.
    + apply no_triple_chain_ok.
      * apply arrangement_no_triple; [done|lia|lia].
      * intros _ a [= <-]. rewrite arrangement_head by lia. congruence.
  - exists (arrangement armA armB countA countB). split.
    + apply arrangement_Permutation; lia.
    + apply no_triple_chain_ok.
      * apply arrangement_no_triple; [done|lia|lia].
      * intros _ a ->. rewrite arrangement_head by lia. congruence.
Qed.

(** ** The generator *)

Lemma sequence_search_pool (n_trials armA armB : Z) (avoid_first : option Z)
    (g : Random.state) :
  0 ≤ n_trials →
  ∃ countA countB : nat,
    (free_search n_trials armA armB avoid_first g).1.1
      ≡ₚ repeat armA countA ++ repeat armB countB
    ∧ Z.of_nat countA + Z.of_nat countB = n_trials
    ∧ Z.abs (Z.of_nat countA - Z.of_nat countB) ≤ 1.
Proof.
  intros Hn.
  destruct (balanced_pool_shape n_trials armA armB g Hn) as (cA & cB & Hp & Hc).
  exists cA, cB. split; [|done].
  unfold free_search.
  destruct (balanced_pool n_trials armA armB g) as [pool g1]. simpl in Hp. subst pool.
  pose proof (shuffle_Permutation (repeat armA cA ++ repeat armB cB) g1) as Hs.
  destruct (Random.shuffle _ g1) as [pool g2]. done.
Qed.

Lemma sequence_search_found (n_trials armA armB : Z) (avoid_first : option Z)
    (g : Random.state) (out : list Z) :
  (free_search n_trials armA armB avoid_first g).1.2 = Some out →
  out ≡ₚ (free_search n_trials armA armB avoid_first g).1.1
  ∧ chain_ok avoid_first [] out.
Proof.
  unfold free_search.
  destruct (balanced_pool n_trials armA armB g) as [pool g1].
  destruct (Random.shuffle pool g1) as [pool' g2]. simpl.
  intros H. apply backtrack_sound in H as (p & -> & Hp & Hok). done.
Qed.

Lemma sequence_search_complete (n_trials armA armB : Z) (avoid_first : option Z)
    (g : Random.state) (p : list Z) :
  p ≡ₚ (free_search n_trials armA armB avoid_first g).1.1 →
  chain_ok avoid_first [] p →
  is_Some (free_search n_trials armA armB avoid_first g).1.2.
Proof.
  unfold free_search.
  destruct (balanced_pool n_trials armA armB g) as [pool g1].
  destruct (Random.shuffle pool g1) as [pool' g2]. simpl.
  intros Hp Hok.
  by apply (backtrack_complete avoid_first (length pool') [] pool' p).
Qed.

Lemma generate_pseudorandom_sequence_cases (n_trials armA armB : Z)
    (avoid_first : option Z) (g : Random.state) :
  let s := (free_sequence n_trials armA armB avoid_first g).1 in
  let search := (free_search n_trials armA armB avoid_first g).1 in
  (free_fallback n_trials armA armB avoid_first g = false ∧ search.2 = Some s)
  ∨ (free_fallback n_trials armA armB avoid_first g = true ∧ s = search.1).
Proof.
  unfold free_sequence, free_fallback.
  destruct (free_search n_trials armA armB avoid_first g) as [[pool [[|x s]|]] g'];
    simpl; auto.
Qed.

Lemma generate_pseudorandom_sequence_Permutation (n_trials armA armB : Z)
    (avoid_first : option Z) (g : Random.state) :
  (free_sequence n_trials armA armB avoid_first g).1
    ≡ₚ (free_search n_trials armA armB avoid_first g).1.1.
Proof.
  destruct (generate_pseudorandom_sequence_cases n_trials armA armB avoid_first g)
    as [[_ H]|[_ H]].
  - by apply sequence_search_found in H as [H _].
  - by rewrite H.
Qed.

(** the search finds a non-empty sequence when the pool of a positive
    number of items has an arrangement that passes the tests *)
Lemma fallback_not_taken (n_trials armA armB : Z) (avoid_first : option Z)
    (g : Random.state) (p : list Z) :
  p ≡ₚ (free_search n_trials armA armB avoid_first g).1.1 →
  p ≠ [] → chain_ok avoid_first [] p →
  free_fallback n_trials armA armB avoid_first g = false.
Proof.
  intros Hp Hnil Hok.
  destruct (sequence_search_complete n_trials armA armB avoid_first g p Hp Hok)
    as [out H].
  pose proof (sequence_search_found _ _ _ _ _ _ H) as [Hout _].
  unfold free_fallback. rewrite H.
  destruct out; [|done].
  rewrite <- Hp in Hout. by apply Permutation_nil in Hout.
Qed.

(** ** The search within the limit of the interpreter *)

(** the search raises nothing but [RecursionError] *)
Lemma backtrack_loop_raises rec frames avoid_first cur items rest i e :
  (∀ cur items e, rec cur items = inl e → e = RecursionError) →
  backtrack_loop rec frames avoid_first cur items i rest = inl e →
  e = RecursionError.
Proof.
  intros Hrec. revert i. induction rest as [|cand rest IH]; intros i H; [done|].
  cbn [backtrack_loop] in H.
  destruct (skip_first avoid_first cur cand); [by eapply IH|].
  destruct frames; [by injection H|].
  destruct (valid (cur ++ [cand])); [|by eapply IH].
  destruct (rec (cur ++ [cand]) (take i items ++ drop (S i) items))
    as [e'|[out|]] eqn:Hr; cbn [rbind] in H.
  - injection H as <-. by eapply Hrec.
  - done.
  - by eapply IH.
Qed.

Lemma backtrack_raises avoid_first frames cur items e :
  backtrack avoid_first frames cur items = inl e → e = RecursionError.
Proof.
  revert cur items e. induction frames as [|frames IH]; intros cur items e H.
  - by injection H.
  - destruct items as [|y items]; [done|].
    cbn [backtrack] in H. by eapply backtrack_loop_raises.
Qed.

Lemma length_pop {A : Type} (i : nat) (items rest : list A) :
  rest ≠ [] → (i + length rest = length items)%nat →
  S (length (take i items ++ drop (S i) items)) = length items.
Proof.
  intros Hrest Hi. destruct rest; [done|]. simpl in Hi.
  rewrite length_app, length_take, length_drop. lia.
Qed.

(** where the search returns, it returns what the search without the
    limit does *)
Lemma backtrack_loop_returns rec frec frames avoid_first cur items :
  (∀ cur items' r, S (length items') = length items →
     rec cur items' = ok r → frec cur items' = r) →
  ∀ rest i r, (i + length rest = length items)%nat →
    backtrack_loop rec frames avoid_first cur items i rest = ok r →
    free_loop frec avoid_first cur items i rest = r.
Proof.
  intros Hrec rest. induction rest as [|cand rest IH]; intros i r Hi H.
  - by injection H.
  - cbn [backtrack_loop] in H. cbn [free_loop].
    assert (S i + length rest = length items)%nat as Hi' by (simpl in Hi; lia).
    destruct (skip_first avoid_first cur cand); [by apply IH|].
    destruct frames; [done|].
    destruct (valid (cur ++ [cand])); [|by apply IH].
    destruct (rec (cur ++ [cand]) (take i items ++ drop (S i) items))
      as [e|out] eqn:Hr; cbn [rbind] in H; [done|].
    apply Hrec in Hr; [|by apply (length_pop i items (cand :: rest))].
    rewrite Hr. destruct out; [by injection H|by apply IH].
Qed.

Lemma backtrack_returns avoid_first frames cur items r :
  backtrack avoid_first frames cur items = ok r →
  free_backtrack avoid_first (length items) cur items = r.
Proof.
  revert cur items r. induction frames as [|frames IH]; intros cur items r H; [done|].
  destruct items as [|y items]; [by injection H|].
  cbn [backtrack] in H. cbn [length free_backtrack].
  eapply backtrack_loop_returns; [|by simpl|exact H].
  intros cur' items' r' Hlen Hr. apply IH in Hr.
  simpl in Hlen. by replace (length items) with (length items') by lia.
Qed.

(** with a frame more than there are items the search returns *)
Lemma backtrack_loop_frames rec frec frames avoid_first cur items :
  (∀ cur items', S (length items') = length items →
     rec cur items' = ok (frec cur items')) →
  ∀ rest i, (i + length rest = length items)%nat →
    backtrack_loop rec (S frames) avoid_first cur items i rest
    = ok (free_loop frec avoid_first cur items i rest).
Proof.
  intros Hrec rest. induction rest as [|cand rest IH]; intros i Hi; [done|].
  cbn [backtrack_loop free_loop].
  assert (S i + length rest = length items)%nat as Hi' by (simpl in Hi; lia).
  destruct (skip_first avoid_first cur cand); [by apply IH|].
  destruct (valid (cur ++ [cand])); [|by apply IH].
  rewrite Hrec by (by apply (length_pop i items (cand :: rest))). cbn [rbind ok].
  destruct (frec (cur ++ [cand]) (take i items ++ drop (S i) items)); [done|].
  by apply IH.
Qed.

Lemma backtrack_frames avoid_first frames cur items :
  (length items < frames)%nat →
  backtrack avoid_first frames cur items
  = ok (free_backtrack avoid_first (length items) cur items).
Proof.
  revert cur items. induction frames as [|frames IH]; intros cur items Hlen; [lia|].
  destruct items as [|y items]; [done|].
  cbn [backtrack length free_backtrack]. simpl in Hlen.
  destruct frames as [|frames]; [lia|].
  apply backtrack_loop_frames; [|by simpl].
  intros cur' items' Hlen'. simpl in Hlen'.
  replace (length items) with (length items') by lia.
  apply IH. lia.
Qed.

(** a sequence is only found with a frame more than there are items *)
Lemma backtrack_loop_found rec frames avoid_first cur items :
  (∀ cur items' out, S (length items') = length items →
     rec cur items' = ok (Some out) → (length items' < frames)%nat) →
  ∀ rest i out, (i + length rest = length items)%nat →
    backtrack_loop rec frames avoid_first cur items i rest = ok (Some out) →
    (length items < S frames)%nat.
Proof.
  intros Hrec rest. induction rest as [|cand rest IH]; intros i out Hi H; [done|].
  cbn [backtrack_loop] in H.
  assert (S i + length rest = length items)%nat as Hi' by (simpl in Hi; lia).
  destruct (skip_first avoid_first cur cand); [by eapply IH|].
  destruct frames; [done|].
  destruct (valid (cur ++ [cand])); [|by eapply IH].
  destruct (rec (cur ++ [cand]) (take i items ++ drop (S i) items))
    as [e|[out'|]] eqn:Hr; cbn [rbind] in H; [done| |by eapply IH].
  pose proof (length_pop i items (cand :: rest) ltac:(done) Hi) as Hpop.
  apply Hrec in Hr; [lia|done].
Qed.

Lemma backtrack_found avoid_first frames cur items out :
  backtrack avoid_first frames cur items = ok (Some out) →
  (length items < frames)%nat.
Proof.
  revert cur items out. induction frames as [|frames IH]; intros cur items out H; [done|].
  destruct items as [|y items]; [simpl; lia|].
  cbn [backtrack] in H.
  refine (backtrack_loop_found _ _ _ _ _ _ _ 0%nat out _ H); [|done].
  intros cur' items' out' _ Hr. by eapply IH.
Qed.

Lemma sequence_search_returns frames n_trials armA armB avoid_first g r :
  sequence_search frames n_trials armA armB avoid_first g = ok r →
  r = free_search n_trials armA armB avoid_first g.
Proof.
  unfold sequence_search, free_search.
  destruct (balanced_pool n_trials armA armB g) as [pool g1].
  destruct (Random.shuffle pool g1) as [pool' g2].
  destruct (backtrack avoid_first frames [] pool') as [e|seq] eqn:Hb; [done|].
  apply backtrack_returns in Hb. intros [= <-]. by rewrite Hb.
Qed.

Lemma sequence_search_raises frames n_trials armA armB avoid_first g e :
  sequence_search frames n_trials armA armB avoid_first g = inl e →
  e = RecursionError.
Proof.
  unfold sequence_search.
  destruct (balanced_pool n_trials armA armB g) as [pool g1].
  destruct (Random.shuffle pool g1) as [pool' g2].
  destruct (backtrack avoid_first frames [] pool') as [e'|seq] eqn:Hb; [|done].
  intros [= <-]. by eapply backtrack_raises.
Qed.

(** the pool has [n_trials] items, none when [n_trials] is negative *)
Lemma balanced_pool_length n_trials armA armB g :
  length (balanced_pool n_trials armA armB g).1 = Z.to_nat n_trials.
Proof.
  unfold balanced_pool.
  pose proof (Z.div_mod n_trials 2 ltac:(lia)) as Hdm.
  pose proof (Z.mod_pos_bound n_trials 2 ltac:(lia)) as Hmod.
  destruct (Z.eqb_spec (n_trials mod 2) 1) as [H1|H1].
  - destruct (Random.random g) as [r g'].
    destruct (r <? Random.half)%N; simpl;
      rewrite length_app, !repeat_length; lia.
  - simpl. rewrite length_app, !repeat_length. lia.
Qed.

Lemma sequence_search_length n_trials armA armB avoid_first g :
  length (free_search n_trials armA armB avoid_first g).1.1 = Z.to_nat n_trials.
Proof.
  pose proof (balanced_pool_length n_trials armA armB g) as Hlen.
  unfold free_search.
  destruct (balanced_pool n_trials armA armB g) as [pool g1]. simpl in Hlen.
  pose proof (shuffle_Permutation pool g1) as Hs.
  destruct (Random.shuffle pool g1) as [pool' g2]. simpl in *.
  by rewrite Hs.
Qed.

Lemma sequence_search_frames frames n_trials armA armB avoid_first g :
  (Z.to_nat n_trials < frames)%nat →
  sequence_search frames n_trials armA armB avoid_first g
  = ok (free_search n_trials armA armB avoid_first g).
Proof.
  intros Hfr.
  pose proof (sequence_search_length n_trials armA armB avoid_first g) as Hlen.
  revert Hlen. unfold sequence_search, free_search.
  destruct (balanced_pool n_trials armA armB g) as [pool g1].
  destruct (Random.shuffle pool g1) as [pool' g2]. simpl. intros Hlen.
  rewrite backtrack_frames by lia. done.
Qed.

Lemma generate_pseudorandom_sequence_returns frames n_trials armA armB avoid_first g r :
  generate_pseudorandom_sequence frames n_trials armA armB avoid_first g = ok r →
  r = free_sequence n_trials armA armB avoid_first g.
Proof.
  unfold generate_pseudorandom_sequence, free_sequence.
  destruct (sequence_search frames n_trials armA armB avoid_first g)
    as [e|[[pool seq] g']] eqn:Hs; [done|].
  apply sequence_search_returns in Hs. rewrite <- Hs. by intros [= <-].
Qed.

Lemma generate_pseudorandom_sequence_frames frames n_trials armA armB avoid_first g :
  (Z.to_nat n_trials < frames)%nat →
  generate_pseudorandom_sequence frames n_trials armA armB avoid_first g
  = ok (free_sequence n_trials armA armB avoid_first g).
Proof.
  intros Hfr. unfold generate_pseudorandom_sequence, free_sequence.
  rewrite sequence_search_frames by done.
  by destruct (free_search n_trials armA armB avoid_first g) as [[pool seq] g'].
Qed.

Lemma generate_pseudorandom_sequence_raises frames n_trials armA armB avoid_first g e :
  generate_pseudorandom_sequence frames n_trials armA armB avoid_first g = inl e →
  e = RecursionError.
Proof.
  unfold generate_pseudorandom_sequence.
  destruct (sequence_search frames n_trials armA armB avoid_first g)
    as [e'|[[pool seq] g']] eqn:Hs; [|done].
  intros [= <-]. by eapply sequence_search_raises.
Qed.

(** the fallback of the program is the fallback of the search without
    the limit, where the search returns *)
Lemma fallback_taken_returns frames n_trials armA armB avoid_first g :
  fallback_taken frames n_trials armA armB avoid_first g = true →
  free_fallback n_trials armA armB avoid_first g = true.
Proof.
  unfold fallback_taken, free_fallback.
  destruct (sequence_search frames n_trials armA armB avoid_first g)
    as [e|[[pool seq] g']] eqn:Hs; [done|].
  apply sequence_search_returns in Hs. by rewrite <- Hs.
Qed.

Lemma free_fallback_two (n_trials armA armB : Z) (avoid_first : option Z)
    (g : Random.state) :
  armA ≠ armB → 2 ≤ n_trials →
  free_fallback n_trials armA armB avoid_first g = false.
Proof.
  intros Hne Hn.
  destruct (sequence_search_pool n_trials armA armB avoid_first g ltac:(lia))
    as (cA & cB & Hpool & Hsum & Hbal).
  destruct (valid_arrangement_exists armA armB cA cB avoid_first Hne)
    as (p & Hp & Hok); [lia..|].
  apply (fallback_not_taken _ _ _ _ _ p); [by rewrite Hp, Hpool| |done].
  intros ->. apply Permutation_nil in Hp.
  apply (f_equal (@length Z)) in Hp. rewrite length_app, !repeat_length in Hp.
  simpl in Hp. lia.
Qed.

(** with two trials or more and no frame more than there are trials,
    the search is cut short *)
Lemma sequence_search_limit frames n_trials armA armB avoid_first g :
  armA ≠ armB → 2 ≤ n_trials → (frames ≤ Z.to_nat n_trials)%nat →
  sequence_search frames n_trials armA armB avoid_first g = raise RecursionError.
Proof.
  intros Hne Hn Hfr.
  destruct (sequence_search frames n_trials armA armB avoid_first g)
    as [e|r] eqn:Hs.
  { apply sequence_search_raises in Hs. by subst e. }
  exfalso.
  pose proof (sequence_search_returns _ _ _ _ _ _ _ Hs) as Hr.
  pose proof (free_fallback_two n_trials armA armB avoid_first g Hne Hn) as Hfb.
  pose proof (sequence_search_length n_trials armA armB avoid_first g) as Hlen.
  unfold free_fallback in Hfb. rewrite <- Hr in Hfb, Hlen. clear Hr.
  revert Hs. unfold sequence_search.
  destruct (balanced_pool n_trials armA armB g) as [pool g1].
  destruct (Random.shuffle pool g1) as [pool' g2].
  destruct (backtrack avoid_first frames [] pool') as [e|seq] eqn:Hb; [done|].
  intros [= <-]. simpl in Hfb, Hlen.
  destruct seq as [out|]; [|done].
  apply backtrack_found in Hb. lia.
Qed.

(** what the search without the limit gives for [n_trials] trials over
    two arms *)
Definition free_spec (n_trials armA armB : Z) (avoid_first : option Z)
    (g : Random.state) : Prop :=
  let s := (free_sequence n_trials armA armB avoid_first g).1 in
  let pool := (free_search n_trials armA armB avoid_first g).1.1 in
  Z.of_nat (length s) = n_trials
  ∧ Counter s armA + Counter s armB = n_trials
  ∧ Z.abs (Counter s armA - Counter s armB) ≤ 1
  ∧ (free_fallback n_trials armA armB avoid_first g = false →
     no_triple s ∧ ∀ a, avoid_first = Some a → head s ≠ Some a)
  ∧ (∀ p, p ≡ₚ pool → p ≠ [] → no_triple p →
          (∀ a, avoid_first = Some a → head p ≠ Some a) →
          free_fallback n_trials armA armB avoid_first g = false).

Lemma free_sequence_spec (n_trials armA armB : Z)
    (avoid_first : option Z) (g : Random.state) :
  0 ≤ n_trials → armA ≠ armB →
  free_spec n_trials armA armB avoid_first g.
Proof.
  intros Hn Hne. unfold free_spec.
  destruct (sequence_search_pool n_trials armA armB avoid_first g Hn)
    as (cA & cB & Hpool & Hsum & Hbal).
  pose proof (generate_pseudorandom_sequence_Permutation
                n_trials armA armB avoid_first g) as Hperm.
  assert (∀ a, Counter (free_sequence n_trials armA armB avoid_first g).1 a
               = (if decide (armA = a) then Z.of_nat cA else 0)
                 + (if decide (armB = a) then Z.of_nat cB else 0)) as Hcount.
  { intros a. rewrite (Counter_Permutation _ _ a Hperm), (Counter_Permutation _ _ a Hpool).
    by rewrite Counter_app, !Counter_repeat. }
  split; [|split; [|split; [|split]]].
  - rewrite Hperm, Hpool, length_app, !repeat_length. lia.
  - rewrite !Hcount. repeat case_decide; try congruence; lia.
  - rewrite !Hcount. repeat case_decide; try congruence; lia.
  - intros Hfb.
    destruct (generate_pseudorandom_sequence_cases n_trials armA armB avoid_first g)
      as [[_ H]|[H _]]; [|congruence].
    apply sequence_search_found in H as [_ Hok]. split.
    + apply (chain_ok_no_triple avoid_first _ [] Hok). apply no_triple_short. simpl. lia.
    + intros a. by apply chain_ok_head.
  - intros p Hp Hnil Hnt Hhd.
    apply (fallback_not_taken _ _ _ _ _ p Hp Hnil).
    apply no_triple_chain_ok; [done|]. intros _. exact Hhd.
Qed.

Lemma fallback_taken_ok frames n_trials armA armB avoid_first g r :
  sequence_search frames n_trials armA armB avoid_first g = ok r →
  fallback_taken frames n_trials armA armB avoid_first g
  = free_fallback n_trials armA armB avoid_first g.
Proof.
  intros Hs. unfold fallback_taken, free_fallback.
  rewrite Hs. apply sequence_search_returns in Hs. rewrite <- Hs.
  by destruct r as [[pool seq] g'].
Qed.

(** what the generator promises for [n_trials] trials over two arms,
    with [frames] frames left for the search: it returns a sequence
    when the frames are more than the trials, and every sequence it
    returns is as described *)
Definition sequence_spec (frames : nat) (n_trials armA armB : Z)
    (avoid_first : option Z) (g : Random.state) : Prop :=
  ((Z.to_nat n_trials < frames)%nat →
   ∃ s g',
     generate_pseudorandom_sequence frames n_trials armA armB avoid_first g
     = ok (s, g'))
  ∧ ∀ s g',
      generate_pseudorandom_sequence frames n_trials armA armB avoid_first g
      = ok (s, g') →
      ∃ pool seq,
        sequence_search frames n_trials armA armB avoid_first g = ok (pool, seq, g')
        ∧ Z.of_nat (length s) = n_trials
        ∧ Counter s armA + Counter s armB = n_trials
        ∧ Z.abs (Counter s armA - Counter s armB) ≤ 1
        ∧ (fallback_taken frames n_trials armA armB avoid_first g = false →
           no_triple s ∧ ∀ a, avoid_first = Some a → head s ≠ Some a)
        ∧ (∀ p, p ≡ₚ pool → p ≠ [] → no_triple p →
                (∀ a, avoid_first = Some a → head p ≠ Some a) →
                fallback_taken frames n_trials armA armB avoid_first g = false).

(** C5: every sequence returned for n trials over two distinct arms has
    length n and per-arm counts that differ by at most 1; when the
    fallback is not taken it has no three equal values in a row and does
    not start with [avoid_first]; and the fallback is not taken whenever
    the pool has a valid arrangement that does not start with
    [avoid_first].  A sequence is returned when the interpreter has
    more frames left for the search than there are trials. *)
Theorem generate_pseudorandom_sequence_spec (frames : nat) (n_trials armA armB : Z)
    (avoid_first : option Z) (g : Random.state) :
  0 ≤ n_trials → armA ≠ armB →
  sequence_spec frames n_trials armA armB avoid_first g.
Proof.
  intros Hn Hne. split.
  - intros Hfr. rewrite generate_pseudorandom_sequence_frames by done.
    destruct (free_sequence n_trials armA armB avoid_first g) as [s g']. eauto.
  - intros s g' Hgen.
    destruct (sequence_search frames n_trials armA armB avoid_first g)
      as [e|[[pool seq] g'']] eqn:Hs.
    { unfold generate_pseudorandom_sequence in Hgen. by rewrite Hs in Hgen. }
    pose proof (fallback_taken_ok _ _ _ _ _ _ _ Hs) as Hfb.
    pose proof (sequence_search_returns _ _ _ _ _ _ _ Hs) as Hfree.
    pose proof (generate_pseudorandom_sequence_returns _ _ _ _ _ _ _ Hgen) as Hseq.
    assert (g'' = g') as ->.
    { unfold generate_pseudorandom_sequence in Hgen. rewrite Hs in Hgen.
      by injection Hgen. }
    pose proof (free_sequence_spec n_trials armA armB avoid_first g Hn Hne) as Hspec.
    unfold free_spec in Hspec. rewrite <- Hseq, <- Hfree, <- Hfb in Hspec.
    exists pool, seq. split; [done|]. exact Hspec.
Qed.

Lemma generate_pseudorandom_sequence_spec_witness :
  sequence_spec 10 4 1 2 (Some 1) (fun _ => 0%N).
Proof.
  apply generate_pseudorandom_sequence_spec; [lia|done].
Defined.

(** C9, as stated, fails: the search does not always find an
    arrangement.  It recurses once per trial, and with the 1000 frames
    of the default limit of the interpreter a search over 1000 trials
    is cut short by a [RecursionError]. *)
Lemma backtrack_exceeds_limit :
  generate_pseudorandom_sequence 1000 1000 1 2 None (fun _ => 0%N)
  = raise RecursionError.
Proof.
  unfold generate_pseudorandom_sequence.
  rewrite sequence_search_limit; [done|done|lia|lia].
Qed.

(** C9, amended: with two trials or more over two distinct arms the
    fallback is never taken, whatever the coin flip, the shuffle and
    [avoid_first] are.  When the interpreter has more frames left than
    there are trials the search finds an arrangement: a permutation of
    the pool, of the length asked for, balanced, without three equal
    values in a row and not starting with [avoid_first], and this is
    the sequence returned.  When it has not, the search ends in a
    [RecursionError].  The fallback can only be taken when
    n_trials <= 1. *)
Theorem fallback_unreachable (frames : nat) (n_trials armA armB : Z)
    (avoid_first : option Z) (g : Random.state) :
  armA ≠ armB →
  (2 ≤ n_trials →
   fallback_taken frames n_trials armA armB avoid_first g = false
   ∧ ((Z.to_nat n_trials < frames)%nat →
      ∃ pool s g',
        sequence_search frames n_trials armA armB avoid_first g
        = ok (pool, Some s, g')
        ∧ generate_pseudorandom_sequence frames n_trials armA armB avoid_first g
          = ok (s, g')
        ∧ s ≡ₚ pool
        ∧ Z.of_nat (length s) = n_trials
        ∧ Z.abs (Counter s armA - Counter s armB) ≤ 1
        ∧ no_triple s
        ∧ ∀ a, avoid_first = Some a → head s ≠ Some a)
   ∧ ((frames ≤ Z.to_nat n_trials)%nat →
      generate_pseudorandom_sequence frames n_trials armA armB avoid_first g
      = raise RecursionError))
  ∧ (fallback_taken frames n_trials armA armB avoid_first g = true → n_trials ≤ 1).
Proof.
  intros Hne.
  assert (2 ≤ n_trials →
          fallback_taken frames n_trials armA armB avoid_first g = false) as Hnot.
  { intros Hn.
    destruct (fallback_taken frames n_trials armA armB avoid_first g) eqn:E; [|done].
    apply fallback_taken_returns in E.
    by rewrite free_fallback_two in E. }
  split.
  - intros Hn. split; [by apply Hnot|]. split.
    + intros Hfr.
      pose proof (sequence_search_frames frames n_trials armA armB avoid_first g Hfr)
        as Hs.
      pose proof (generate_pseudorandom_sequence_frames
                    frames n_trials armA armB avoid_first g Hfr) as Hgen.
      pose proof (free_fallback_two n_trials armA armB avoid_first g Hne Hn) as Hfb.
      pose proof (free_sequence_spec n_trials armA armB avoid_first g ltac:(lia) Hne)
        as (Hlen & _ & Hbal & Hvalid & _).
      destruct (Hvalid Hfb) as [Hnt Hhd].
      destruct (generate_pseudorandom_sequence_cases n_trials armA armB avoid_first g)
        as [[_ Hfound]|[Htaken _]]; [|congruence].
      pose proof (sequence_search_found _ _ _ _ _ _ Hfound) as [Hperm _].
      revert Hs Hgen Hfound Hperm Hlen Hbal Hnt Hhd.
      destruct (free_sequence n_trials armA armB avoid_first g) as [s g1].
      destruct (free_search n_trials armA armB avoid_first g) as [[pool seq] g2] eqn:Efree.
      cbn [fst snd]. intros Hs Hgen -> Hperm Hlen Hbal Hnt Hhd.
      assert (g2 = g1) as ->.
      { revert Hgen. unfold generate_pseudorandom_sequence. rewrite Hs. cbn [rbind ok].
        by intros [= _ ->]. }
      exists pool, s, g1. done.
    + intros Hfr. unfold generate_pseudorandom_sequence.
      by rewrite sequence_search_limit.
  - intros Hfb. destruct (Z_le_gt_dec n_trials 1) as [|Hgt]; [done|].
    rewrite Hnot in Hfb by lia. done.
Qed.

Lemma fallback_unreachable_witness :
  ∃ pool s g',
    sequence_search 10 5 1 3 (Some 3) (fun i => N.of_nat i) = ok (pool, Some s, g')
    ∧ generate_pseudorandom_sequence 10 5 1 3 (Some 3) (fun i => N.of_nat i)
      = ok (s, g')
    ∧ s ≡ₚ pool
    ∧ Z.of_nat (length s) = 5
    ∧ Z.abs (Counter s 1 - Counter s 3) ≤ 1
    ∧ no_triple s
    ∧ ∀ a, Some 3 = Some a → head s ≠ Some a.
Proof.
  destruct (fallback_unreachable 10 5 1 3 (Some 3) (fun i => N.of_nat i) ltac:(done))
    as [H _].
  destruct (H ltac:(lia)) as (_ & Hfound & _).
  apply Hfound. simpl. lia.
Defined.

(** With a single trial the fallback is taken when the pool is the arm
    to avoid. *)
Example fallback_single_trial :
  fallback_taken 10 1 1 2 (Some 1) (fun _ => 0%N) = true
  ∧ ∃ g', generate_pseudorandom_sequence 10 1 1 2 (Some 1) (fun _ => 0%N)
          = ok ([1], g').
Proof. split; [reflexivity|]. eexists. reflexivity. Qed.

(** ** The exit-arm balancer *)

Definition is_arm (a : Z) : Prop := a = 1 ∨ a = 2 ∨ a = 3.

(** the quotas are not negative *)
Definition quota_ok (remaining : gmap Z Z) : Prop :=
  0 ≤ remaining !!! 1 ∧ 0 ≤ remaining !!! 2 ∧ 0 ≤ remaining !!! 3.

Definition quota_sum (remaining : gmap Z Z) : Z :=
  remaining !!! 1 + remaining !!! 2 + remaining !!! 3.

Lemma dict_append_concat {K V : Type} `{EqDecision K} (k : K) (v : V)
    (d : list (K * list V)) :
  concat (dict_append k v d).*2 ≡ₚ v :: concat d.*2.
Proof.
  induction d as [|[k' vs] d IH]; [done|].
  simpl. destruct (decide (k = k')); simpl.
  - rewrite <- app_assoc. simpl. symmetry. apply Permutation_middle.
  - rewrite IH. symmetry. apply Permutation_middle.
Qed.

Lemma groupings_of_concat (animal_data : list Animal) :
  concat (groupings_of animal_data).*2 ≡ₚ animal_data.
Proof.
  unfold groupings_of.
  assert (∀ d, concat (fold_left (fun groupings animal =>
            dict_append (group_key animal) animal groupings) animal_data d).*2
          ≡ₚ animal_data ++ concat d.*2) as H.
  { induction animal_data as [|a l IH]; intros d; [done|].
    simpl. rewrite IH, dict_append_concat. symmetry. apply Permutation_middle. }
  rewrite H. simpl. by rewrite app_nil_r.
Qed.

Lemma shuffle_groups_concat groupings (g : Random.state) :
  concat (shuffle_groups groupings g).1.*2 ≡ₚ concat groupings.*2.
Proof.
  revert g. induction groupings as [|[key animals] rest IH]; intros g; [done|].
  simpl.
  pose proof (shuffle_Permutation animals g) as Hs.
  destruct (Random.shuffle animals g) as [animals' g1].
  specialize (IH g1).
  destruct (shuffle_groups rest g1) as [groups g2].
  simpl in *. by rewrite IH, Hs.
Qed.

Lemma seq_from_offset_length (m : nat) (offset : Z) :
  length (seq_from_offset m offset) = m.
Proof. unfold seq_from_offset. by rewrite length_map, length_seq. Qed.

Lemma seq_from_offset_arms (m : nat) (offset : Z) :
  Forall is_arm (seq_from_offset m offset).
Proof.
  unfold seq_from_offset. apply Forall_forall. intros a Ha.
  apply list_elem_of_In, in_map_iff in Ha as (j & <- & _).
  unfold is_arm.
  pose proof (Z.mod_pos_bound (Z.of_nat j + offset) 3). lia.
Qed.

Lemma best_sequence_shape (m : nat) (remaining : gmap Z Z) :
  length (best_sequence m remaining).2 = m
  ∧ Forall is_arm (best_sequence m remaining).2.
Proof.
  unfold best_sequence. cbn [first_min].
  repeat match goal with |- context [if ?b then _ else _] => destruct b end;
    simpl; auto using seq_from_offset_length, seq_from_offset_arms.
Qed.

Lemma pick_alt_max (remaining : gmap Z Z) (g : Random.state) :
  is_arm (pick_alt remaining g).1
  ∧ ∀ a, is_arm a → remaining !!! a ≤ remaining !!! (pick_alt remaining g).1.
Proof.
  unfold pick_alt.
  destruct (Random.random g) as [r1 g1].
  destruct (Random.random g1) as [r2 g2].
  destruct (Random.random g2) as [r3 g3].
  unfold first_max, first_min, lex_lt, is_arm. cbn [fst snd].
  destruct ((remaining !!! 1 <? remaining !!! 2)
            || (remaining !!! 1 =? remaining !!! 2) && (r1 <? r2)%N) eqn:E1;
    cbn [fst snd];
    match goal with
    | |- context [if ?b then _ else _] => destruct b eqn:E2
    end; cbn [fst snd];
    repeat match goal with
           | H : _ || _ = true |- _ => apply orb_true_iff in H as [H|H]
           | H : _ && _ = true |- _ => apply andb_true_iff in H as [H _]
           | H : _ || _ = false |- _ => apply orb_false_iff in H as [H _]
           | H : (_ <? _) = true |- _ => apply Z.ltb_lt in H
           | H : (_ =? _) = true |- _ => apply Z.eqb_eq in H
           | H : (_ <? _) = false |- _ => apply Z.ltb_ge in H
           end;
    (split; [auto|intros a [->|[->| ->]]; lia]).
Qed.

Lemma quota_update (remaining : gmap Z Z) (arm : Z) :
  is_arm arm →
  let remaining' := <[arm := remaining !!! arm - 1]> remaining in
  ∀ a, remaining' !!! a = remaining !!! a - (if decide (arm = a) then 1 else 0).
Proof.
  intros Harm remaining' a. unfold remaining'.
  rewrite lookup_total_insert. destruct (decide (arm = a)) as [->|]; lia.
Qed.

Lemma adjust_spec (best_seq adjusted : list Z) (remaining : gmap Z Z)
    (g : Random.state) :
  Forall is_arm best_seq → quota_ok remaining →
  Z.of_nat (length best_seq) ≤ quota_sum remaining →
  ∃ new,
    (adjust best_seq adjusted remaining g).1.1 = adjusted ++ new
    ∧ length new = length best_seq
    ∧ Forall is_arm new
    ∧ quota_ok (adjust best_seq adjusted remaining g).1.2
    ∧ ∀ a, (adjust best_seq adjusted remaining g).1.2 !!! a
           = remaining !!! a - Counter new a.
Proof.
  revert adjusted remaining g.
  induction best_seq as [|arm rest IH]; intros adjusted remaining g Harms Hok Hsum.
  - exists []. simpl. rewrite app_nil_r.
    split; [done|]. split; [done|]. split; [done|]. split; [done|].
    intros a. unfold Counter. rewrite filter_nil. simpl. lia.
  - apply Forall_cons in Harms as [Harm Harms].
    assert (∀ chosen g', is_arm chosen → 0 < remaining !!! chosen →
      ∃ new,
        (adjust rest (adjusted ++ [chosen])
           (<[chosen := remaining !!! chosen - 1]> remaining) g').1.1 = adjusted ++ new
        ∧ length new = length (arm :: rest)
        ∧ Forall is_arm new
        ∧ quota_ok (adjust rest (adjusted ++ [chosen])
           (<[chosen := remaining !!! chosen - 1]> remaining) g').1.2
        ∧ ∀ a, (adjust rest (adjusted ++ [chosen])
           (<[chosen := remaining !!! chosen - 1]> remaining) g').1.2 !!! a
           = remaining !!! a - Counter new a) as Hstep.
    { intros chosen g' Hc Hpos.
      pose proof (quota_update remaining chosen Hc) as Hupd. simpl in Hupd.
      destruct (IH (adjusted ++ [chosen])
                  (<[chosen := remaining !!! chosen - 1]> remaining) g' Harms)
        as (new & Hadj & Hlen & Hnew & Hok' & Hrem).
      - unfold quota_ok in *. rewrite !Hupd.
        destruct Hc as [->|[->| ->]]; repeat case_decide; try done; lia.
      - unfold quota_sum in *. rewrite !Hupd. simpl length in Hsum.
        destruct Hc as [->|[->| ->]]; repeat case_decide; try done; lia.
      - exists (chosen :: new). split; [by rewrite Hadj, <- app_assoc|].
        split; [simpl; lia|]. split; [by constructor|]. split; [done|].
        intros a. rewrite Hrem, Hupd, Counter_cons. lia. }
    cbn [adjust].
    destruct (Z.ltb_spec 0 (remaining !!! arm)) as [Hpos|Hzero].
    + by apply Hstep.
    + destruct (pick_alt_max remaining g) as [Halt Hmax].
      destruct (pick_alt remaining g) as [alt g']. simpl in *.
      apply Hstep; [done|].
      pose proof (Hmax 1 ltac:(by left)).
      pose proof (Hmax 2 ltac:(by right; left)).
      pose proof (Hmax 3 ltac:(by right; right)).
      unfold quota_sum, quota_ok in *. lia.
Qed.

Definition insert_all (pairs : list (string * Z)) (m : gmap string Z)
  : gmap string Z :=
  fold_left (fun m p => <[p.1 := p.2]> m) pairs m.

Lemma record_arms_insert_all (animals : list Animal) (arms : list Z)
    (m : gmap string Z) :
  record_arms animals arms m = insert_all (zip (AnimalID <$> animals) arms) m.
Proof.
  unfold record_arms, insert_all. revert arms m.
  induction animals as [|a animals IH]; intros [|arm arms] m; try done.
  simpl. apply IH.
Qed.

Lemma insert_all_app (l1 l2 : list (string * Z)) (m : gmap string Z) :
  insert_all (l1 ++ l2) m = insert_all l2 (insert_all l1 m).
Proof. apply fold_left_app. Qed.

Lemma insert_all_to_list (pairs : list (string * Z)) (m : gmap string Z) :
  NoDup pairs.*1 → (∀ k, k ∈ pairs.*1 → m !! k = None) →
  map_to_list (insert_all pairs m) ≡ₚ pairs ++ map_to_list m.
Proof.
  revert m. induction pairs as [|[k v] pairs IH]; intros m Hnd Hfresh; [done|].
  simpl in *. apply NoDup_cons in Hnd as [Hk Hnd].
  change (insert_all ((k, v) :: pairs) m) with (insert_all pairs (<[k := v]> m)).
  rewrite IH; [|done|].
  - rewrite map_to_list_insert by (apply Hfresh; left).
    symmetry. apply Permutation_middle.
  - intros k' Hk'. rewrite lookup_insert_ne by (intros ->; done).
    apply Hfresh. by right.
Qed.

Lemma insert_all_dom (pairs : list (string * Z)) (m : gmap string Z) :
  dom (insert_all pairs m) = list_to_set pairs.*1 ∪ dom m.
Proof.
  revert m. induction pairs as [|[k v] pairs IH]; intros m.
  - simpl. by rewrite (left_id_L ∅ (∪)).
  - change (insert_all ((k, v) :: pairs) m) with (insert_all pairs (<[k := v]> m)).
    rewrite IH, dom_insert_L. simpl.
    rewrite (assoc_L (∪)). f_equal. apply (comm_L (∪)).
Qed.

Lemma Counter_arms (arms : list Z) :
  Forall is_arm arms →
  Counter arms 1 + Counter arms 2 + Counter arms 3 = Z.of_nat (length arms).
Proof.
  induction 1 as [|a arms Ha _ IH].
  - unfold Counter. rewrite !filter_nil. done.
  - rewrite !Counter_cons. simpl length.
    destruct Ha as [->|[->| ->]]; repeat case_decide; try done; lia.
Qed.

Lemma assign_groups_spec groups (remaining : gmap Z Z) (m0 : gmap string Z)
    (g : Random.state) :
  quota_ok remaining →
  quota_sum remaining = Z.of_nat (length (concat groups.*2)) →
  ∃ arms,
    (assign_groups groups remaining m0 g).1.1
      = insert_all (zip (AnimalID <$> concat groups.*2) arms) m0
    ∧ length arms = length (concat groups.*2)
    ∧ Forall is_arm arms
    ∧ quota_ok (assign_groups groups remaining m0 g).1.2
    ∧ ∀ a, (assign_groups groups remaining m0 g).1.2 !!! a
           = remaining !!! a - Counter arms a.
Proof.
  revert remaining m0 g.
  induction groups as [|[key animals] groups IH]; intros remaining m0 g Hok Hsum.
  - exists []. simpl. split; [done|]. split; [done|]. split; [done|].
    split; [done|]. intros a. unfold Counter. rewrite filter_nil. simpl. lia.
  - cbn [assign_groups].
    destruct (best_sequence_shape (length animals) remaining) as [Hlen Harms].
    destruct (best_sequence (length animals) remaining) as [best_offset best_seq].
    simpl in Hlen, Harms.
    rewrite fmap_cons, concat_cons, length_app in Hsum. cbn [snd] in Hsum.
    destruct (adjust_spec best_seq [] remaining g Harms Hok)
      as (new & Hadj & Hnew_len & Hnew & Hok1 & Hrem1); [lia|].
    destruct (adjust best_seq [] remaining g) as [[adjusted remaining1] g1].
    simpl in Hadj, Hok1, Hrem1. subst adjusted.
    destruct (IH remaining1 (record_arms animals new m0) g1 Hok1)
      as (arms & Hmap & Harms_len & Harms' & Hok2 & Hrem2).
    { unfold quota_sum in *. rewrite !Hrem1.
      pose proof (Counter_arms new Hnew). lia. }
    exists (new ++ arms). split; [|split; [|split; [|split]]].
    + rewrite Hmap, record_arms_insert_all.
      rewrite (fmap_cons snd), concat_cons. cbn [snd].
      rewrite fmap_app.
      rewrite (zip_with_app pair (AnimalID <$> animals) _ new arms)
        by (rewrite length_fmap; lia).
      by rewrite insert_all_app.
    + rewrite (fmap_cons snd), concat_cons. cbn [snd]. rewrite !length_app. lia.
    + by apply Forall_app.
    + done.
    + intros a. rewrite Hrem2, Hrem1, Counter_app. lia.
Qed.

(** ** The balance of the exit-arm map *)

(** the number of animals assigned to [arm] *)
Definition arm_count (m : gmap string Z) (arm : Z) : Z :=
  Counter (map_to_list m).*2 arm.

Definition balanced_spec (animal_data : list Animal) (m : gmap string Z) : Prop :=
  let N := Z.of_nat (length animal_data) in
  let base := N / 3 in
  dom m = list_to_set (AnimalID <$> animal_data)
  ∧ size m = length animal_data
  ∧ (∀ a, a ∈ animal_data → ∃ arm, m !! AnimalID a = Some arm ∧ is_arm arm)
  ∧ arm_count m 1 = base + (if decide (1 ≤ N mod 3) then 1 else 0)
  ∧ arm_count m 2 = base + (if decide (2 ≤ N mod 3) then 1 else 0)
  ∧ arm_count m 3 = base
  ∧ (∀ a b, is_arm a → is_arm b → Z.abs (arm_count m a - arm_count m b) ≤ 1).

Lemma target_of_lookup (N : Z) :
  target_of N !!! 1 = N / 3 + (if decide (1 ≤ N mod 3) then 1 else 0)
  ∧ target_of N !!! 2 = N / 3 + (if decide (2 ≤ N mod 3) then 1 else 0)
  ∧ target_of N !!! 3 = N / 3.
Proof.
  unfold target_of.
  rewrite lookup_total_insert_eq.
  rewrite lookup_total_insert_ne, lookup_total_insert_eq by done.
  rewrite !lookup_total_insert_ne, lookup_total_insert_eq by done.
  destruct (Z.leb_spec 1 (N mod 3)), (Z.leb_spec 2 (N mod 3));
    repeat case_decide; try lia; done.
Qed.

(** C1: for a roster with pairwise distinct AnimalIDs and for every
    outcome of the draws, the map has exactly one entry per animal of
    the roster, every value is one of the arms 1, 2, 3, and the arms
    are used N // 3 times each, plus once more for arm 1 when
    N % 3 >= 1 and for arm 2 when N % 3 >= 2; so the counts differ by
    at most 1. *)
Theorem assign_balanced_exit_arms_balanced (animal_data : list Animal)
    (g : Random.state) :
  NoDup (AnimalID <$> animal_data) →
  balanced_spec animal_data (assign_balanced_exit_arms animal_data g).1.
Proof.
  intros Hnd. unfold assign_balanced_exit_arms.
  pose proof (shuffle_groups_concat (groupings_of animal_data) g) as Hsg.
  destruct (shuffle_groups (groupings_of animal_data) g) as [groups0 g1].
  pose proof (shuffle_Permutation groups0 g1) as Hsh.
  destruct (Random.shuffle groups0 g1) as [groups g2]. simpl in Hsg, Hsh.
  assert (concat groups.*2 ≡ₚ animal_data) as Hall.
  { rewrite Hsh, Hsg. apply groupings_of_concat. }
  set (N := Z.of_nat (length animal_data)).
  destruct (target_of_lookup N) as (Ht1 & Ht2 & Ht3).
  pose proof (Z.mod_pos_bound N 3) as Hmod.
  pose proof (Z.div_mod N 3) as Hdiv.
  destruct (assign_groups_spec groups (target_of N) ∅ g2)
    as (arms & Hmap & Hlen & Harms & Hok & Hrem).
  { unfold quota_ok. rewrite Ht1, Ht2, Ht3.
    assert (0 ≤ N / 3) by (apply Z.div_pos; lia).
    repeat case_decide; lia. }
  { unfold quota_sum. rewrite Ht1, Ht2, Ht3, Hall. fold N.
    repeat case_decide; lia. }
  destruct (assign_groups groups (target_of N) ∅ g2) as [[m remaining] g3].
  simpl in *.
  set (ids := AnimalID <$> concat groups.*2) in *.
  assert (ids ≡ₚ AnimalID <$> animal_data) as Hids by (unfold ids; by rewrite Hall).
  assert (length ids = length arms) as Hlen'.
  { unfold ids. by rewrite length_fmap. }
  assert (map_to_list m ≡ₚ zip ids arms) as Hlist.
  { rewrite Hmap, insert_all_to_list.
    - by rewrite map_to_list_empty, app_nil_r.
    - rewrite fst_zip by lia. by rewrite Hids.
    - intros. apply lookup_empty. }
  assert (∀ a, arm_count m a = Counter arms a) as Hcount.
  { intros a. unfold arm_count. rewrite (Counter_Permutation _ arms); [done|].
    rewrite Hlist, snd_zip by lia. done. }
  assert (length arms = length animal_data) as HlenN.
  { rewrite Hlen. by rewrite Hall. }
  pose proof (Counter_arms arms Harms) as Hsum.
  assert (∀ a, 0 ≤ Counter arms a) as Hnn by (intros; unfold Counter; lia).
  assert (remaining !!! 1 = 0 ∧ remaining !!! 2 = 0 ∧ remaining !!! 3 = 0)
    as (Hr1 & Hr2 & Hr3).
  { destruct Hok as (? & ? & ?).
    pose proof (Hrem 1). pose proof (Hrem 2). pose proof (Hrem 3).
    assert (target_of N !!! 1 + target_of N !!! 2 + target_of N !!! 3 = N) as HtN.
    { rewrite Ht1, Ht2, Ht3. repeat case_decide; lia. }
    fold N in HlenN. lia. }
  assert (arm_count m 1 = target_of N !!! 1) as H1
    by (rewrite Hcount; pose proof (Hrem 1); lia).
  assert (arm_count m 2 = target_of N !!! 2) as H2
    by (rewrite Hcount; pose proof (Hrem 2); lia).
  assert (arm_count m 3 = target_of N !!! 3) as H3
    by (rewrite Hcount; pose proof (Hrem 3); lia).
  unfold balanced_spec. fold N.
  split; [|split; [|split; [|split; [|split; [|split]]]]].
  - rewrite Hmap, insert_all_dom, fst_zip by lia.
    rewrite dom_empty_L, (right_id_L ∅ (∪)).
    by apply list_to_set_perm_L.
  - rewrite <- length_map_to_list, Hlist, length_zip. lia.
  - intros a Ha.
    assert (AnimalID a ∈ (zip ids arms).*1) as Hin.
    { rewrite fst_zip by lia. rewrite Hids. by apply list_elem_of_fmap_2. }
    apply list_elem_of_fmap in Hin as ([k arm] & Hk & Hin). simpl in Hk. subst k.
    exists arm. split.
    + apply elem_of_map_to_list. by rewrite Hlist.
    + apply elem_of_zip_r in Hin. by eapply Forall_forall in Harms.
  - by rewrite H1, Ht1.
  - by rewrite H2, Ht2.
  - by rewrite H3, Ht3.
  - intros a b Ha Hb. rewrite Ht1 in H1. rewrite Ht2 in H2. rewrite Ht3 in H3.
    destruct Ha as [->|[->| ->]], Hb as [->|[->| ->]];
      rewrite ?H1, ?H2, ?H3; repeat case_decide; lia.
Qed.

Definition roster4 : list Animal :=
  [mkAnimal "A1" "t1" "Male" "WT" "C1"; mkAnimal "A2" "t2" "Male" "WT" "C1";
   mkAnimal "A3" "t3" "Female" "KO" "C2"; mkAnimal "A4" "t4" "Female" "KO" "C2"].

Lemma assign_balanced_exit_arms_balanced_witness :
  balanced_spec roster4 (assign_balanced_exit_arms roster4 (fun i => N.of_nat i)).1.
Proof.
  apply assign_balanced_exit_arms_balanced.
  apply (bool_decide_unpack _). vm_compute. exact I.
Defined.

(** ** The per-cage dynamic program *)

Lemma first_min_spec {A : Type} (best : A * Z) (items : list (A * Z)) :
  first_min Z.ltb best items ∈ best :: items
  ∧ ∀ x, x ∈ best :: items → (first_min Z.ltb best items).2 ≤ x.2.
Proof.
  revert best. induction items as [|y items IH]; intros best.
  - simpl. split; [by left|]. intros x Hx. apply list_elem_of_singleton in Hx as ->. lia.
  - cbn [first_min].
    destruct (IH (if y.2 <? best.2 then y else best)) as [Hin Hmin].
    split.
    + apply elem_of_cons in Hin as [Hin|Hin].
      * rewrite Hin. destruct (y.2 <? best.2); [right; left|left].
      * by right; right.
    + intros x Hx.
      assert ((if y.2 <? best.2 then y else best).2 ≤ best.2
              ∧ (if y.2 <? best.2 then y else best).2 ≤ y.2) as [Hb Hy].
      { destruct (Z.ltb_spec y.2 best.2); lia. }
      pose proof (Hmin _ ltac:(left)) as H0.
      apply elem_of_cons in Hx as [->|Hx]; [lia|].
      apply elem_of_cons in Hx as [->|Hx]; [lia|].
      apply Hmin. by right.
Qed.

(** the cost of a switch between two arms *)
Definition switch (c c_prev : Z) : Z := if c =? c_prev then 0 else 1.

(** the boundary switch against the incoming arm *)
Definition boundary (prev_arm : option Z) (c : Z) : Z :=
  match prev_arm with
  | None => 0
  | Some p => switch c p
  end.

(** the number of adjacent positions where the arm changes *)
Fixpoint switches (s : list Z) : Z :=
  match s with
  | a :: (b :: _) as t => switch b a + switches t
  | _ => 0
  end.

(** the cost of a sequence: its switches, plus 1 when an incoming arm
    is given and the first arm differs from it *)
Definition switch_cost (prev_arm : option Z) (s : list Z) : Z :=
  match s with
  | [] => 0
  | c :: _ => boundary prev_arm c
  end + switches s.

(** the same cost, read from the last arm backwards *)
Fixpoint rcost (prev_arm : option Z) (rs : list Z) : Z :=
  match rs with
  | [] => 0
  | c :: t =>
      match t with
      | [] => boundary prev_arm c
      | c_prev :: _ => rcost prev_arm t + switch c c_prev
      end
  end.

Lemma rcost_cons (prev_arm : option Z) (c c_prev : Z) (t : list Z) :
  rcost prev_arm (c :: c_prev :: t) = rcost prev_arm (c_prev :: t) + switch c c_prev.
Proof. reflexivity. Qed.

Lemma switches_snoc (s : list Z) (a b : Z) :
  switches (s ++ [a; b]) = switches (s ++ [a]) + switch b a.
Proof.
  induction s as [|x s IH]; [simpl; lia|].
  destruct s as [|y s]; [simpl; lia|].
  change (switches ((x :: y :: s) ++ [a; b]))
    with (switch y x + switches ((y :: s) ++ [a; b])).
  change (switches ((x :: y :: s) ++ [a]))
    with (switch y x + switches ((y :: s) ++ [a])).
  rewrite IH. lia.
Qed.

Lemma switch_cost_rcost (prev_arm : option Z) (s : list Z) :
  switch_cost prev_arm s = rcost prev_arm (rev s).
Proof.
  induction s as [|b s IH] using rev_ind; [done|].
  rewrite rev_app_distr. cbn [rev app rcost].
  destruct s as [|a s _] using rev_ind.
  - simpl. unfold switch_cost. simpl. lia.
  - rewrite rev_app_distr in *. cbn [rev app] in *.
    rewrite <- IH. unfold switch_cost.
    rewrite <- app_assoc. cbn [app].
    rewrite switches_snoc.
    destruct s; simpl; lia.
Qed.

(** [rs], read backwards, takes each arm from the allowed arms of its
    position *)
Definition admissible (allowed_rev : list (list Z)) (rs : list Z) : Prop :=
  Forall2 (fun c allowed_i => c ∈ allowed_i) rs allowed_rev.

(** the path that [reconstruct] follows from color [c], read backwards;
    [stack] is [dp[i], ..., dp[1], dp[0]] *)
Fixpoint rpath (stack : list dp_row) (c : Z) : option (list Z) :=
  match stack with
  | [] => None
  | row :: rest =>
      match rest with
      | [] => match row_lookup c row with
              | Some _ => Some [c]
              | None => None
              end
      | _ :: _ =>
          match row_lookup c row with
          | Some (_, Some c_prev) =>
              match rpath rest c_prev with
              | Some rs => Some (c :: rs)
              | None => None
              end
          | _ => None
          end
      end
  end.

Lemma rpath_cons (row r0 : dp_row) (rr : list dp_row) (c : Z) :
  rpath (row :: r0 :: rr) c
  = match row_lookup c row with
    | Some (_, Some c_prev) =>
        match rpath (r0 :: rr) c_prev with
        | Some rs => Some (c :: rs)
        | None => None
        end
    | _ => None
    end.
Proof. reflexivity. Qed.

Lemma rpath_head (stack : list dp_row) (c : Z) (rs : list Z) :
  rpath stack c = Some rs → head rs = Some c.
Proof.
  destruct stack as [|row [|row' rest]]; [done| |].
  - simpl. destruct (row_lookup c row); [|done]. by intros [= <-].
  - rewrite rpath_cons. destruct (row_lookup c row) as [[? [p|]]|]; try done.
    destruct (rpath (row' :: rest) p); [|done]. by intros [= <-].
Qed.

Lemma reconstruct_rpath (rows_rev : list dp_row) (dp0 : dp_row) (c : Z)
    (rs filled : list Z) :
  rpath (rows_rev ++ [dp0]) c = Some rs →
  reconstruct rows_rev c filled = ok (rev rs ++ filled).
Proof.
  revert c rs filled. induction rows_rev as [|row rows_rev IH]; intros c rs filled.
  - simpl. destruct (row_lookup c dp0); [|done]. by intros [= <-].
  - change ((row :: rows_rev) ++ [dp0]) with (row :: (rows_rev ++ [dp0])).
    destruct (rows_rev ++ [dp0]) as [|r0 rr] eqn:E; [by destruct rows_rev|].
    rewrite rpath_cons. cbn [reconstruct].
    destruct (row_lookup c row) as [[cost [p|]]|]; try done.
    destruct (rpath (r0 :: rr) p) as [rs'|] eqn:Hp; [|done].
    intros [= <-]. rewrite (IH p rs' (c :: filled) Hp).
    simpl. by rewrite <- app_assoc.
Qed.

Lemma row_lookup_elem (row : dp_row) (c : Z) (e : Z * option Z) :
  NoDup row.*1 → (c, e) ∈ row → row_lookup c row = Some e.
Proof.
  unfold row_lookup. induction row as [|[k v] row IH]; intros Hnd Hin.
  - by apply elem_of_nil in Hin.
  - simpl in *. apply NoDup_cons in Hnd as [Hk Hnd].
    destruct (decide (c = k)) as [->|Hne].
    + apply elem_of_cons in Hin as [[= <-]|Hin]; [done|].
      destruct Hk. by apply (list_elem_of_fmap_2 fst) in Hin.
    + apply elem_of_cons in Hin as [[= -> ->]|Hin]; [done|]. by apply IH.
Qed.

Lemma best_predecessor_spec (row_prev : dp_row) (c : Z) :
  row_prev ≠ [] →
  ∃ p e, best_predecessor row_prev c = ok (e.1 + switch c p, Some p)
         ∧ (p, e) ∈ row_prev
         ∧ ∀ q e', (q, e') ∈ row_prev → e.1 + switch c p ≤ e'.1 + switch c q.
Proof.
  intros Hne. unfold best_predecessor.
  set (key := fun e : Z * (Z * option Z) => (e.1, e.2.1 + (if c =? e.1 then 0 else 1))).
  destruct row_prev as [|x xs]; [done|].
  change (map key (x :: xs)) with (key x :: map key xs).
  destruct (first_min_spec (key x) (map key xs)) as [Hin Hmin].
  change (key x :: map key xs) with (map key (x :: xs)) in Hin, Hmin.
  apply list_elem_of_In, in_map_iff in Hin as ([p e] & Hb & Hin).
  apply list_elem_of_In in Hin.
  exists p, e. rewrite <- Hb. split; [done|]. split; [done|].
  intros q e' Hq.
  assert (key (q, e') ∈ map key (x :: xs)) as Hkq.
  { apply list_elem_of_In, in_map. by apply list_elem_of_In. }
  specialize (Hmin (key (q, e')) Hkq). rewrite <- Hb in Hmin.
  unfold key in Hmin. simpl in Hmin. unfold switch. exact Hmin.
Qed.

Lemma next_row_spec (row_prev : dp_row) (allowed_i : list Z) :
  row_prev ≠ [] →
  ∃ row, next_row row_prev allowed_i = ok row
         ∧ row.*1 = allowed_i
         ∧ ∀ c e, (c, e) ∈ row → best_predecessor row_prev c = ok e.
Proof.
  intros Hne. induction allowed_i as [|c cs (row & Hrow & Hkeys & Hent)].
  - exists []. split; [done|]. split; [done|]. intros c e H. by apply elem_of_nil in H.
  - destruct (best_predecessor_spec row_prev c Hne) as (p & e & Hbp & _).
    exists ((c, (e.1 + switch c p, Some p)) :: row).
    cbn [next_row]. rewrite Hbp, Hrow. split; [done|]. split.
    + rewrite fmap_cons. by rewrite Hkeys.
    + intros c' e' Hin. apply elem_of_cons in Hin as [[= -> ->]|Hin]; [done|].
      by apply Hent.
Qed.

(** The invariant of the table: the keys of the last row are the
    allowed arms of its position, and the entry of a color holds the
    cost of the path that the predecessors trace from it, which no
    admissible sequence that ends in this color undercuts. *)
Definition table_ok (prev_arm : option Z) (allowed_rev : list (list Z))
    (stack : list dp_row) : Prop :=
  length stack = length allowed_rev
  ∧ (∀ row, head stack = Some row → head allowed_rev = Some row.*1)
  ∧ ∀ row c e, head stack = Some row → (c, e) ∈ row →
      ∃ rs, rpath stack c = Some rs
            ∧ admissible allowed_rev rs
            ∧ rcost prev_arm rs = e.1
            ∧ ∀ rs', admissible allowed_rev rs' → head rs' = Some c →
                     e.1 ≤ rcost prev_arm rs'.

Lemma first_row_ok (prev_arm : option Z) (allowed0 : list Z) :
  NoDup allowed0 →
  table_ok prev_arm [allowed0] [first_row prev_arm allowed0].
Proof.
  intros Hnd. unfold table_ok. split; [done|]. split.
  - intros row [= <-]. simpl. f_equal. unfold first_row.
    rewrite <- list_fmap_compose. by rewrite list_fmap_id.
  - intros row c e [= <-] Hin.
    exists [c].
    assert ((first_row prev_arm allowed0).*1 = allowed0) as Hkeys.
    { unfold first_row. rewrite <- list_fmap_compose. by rewrite list_fmap_id. }
    split.
    { simpl. rewrite (row_lookup_elem _ c e); [done| |done]. by rewrite Hkeys. }
    apply list_elem_of_In, in_map_iff in Hin as (c' & [= <- <-] & Hc).
    apply list_elem_of_In in Hc.
    split; [by repeat constructor|]. split; [done|].
    intros rs' Hadm Hhd.
    apply Forall2_length in Hadm as Hlen.
    destruct rs' as [|x [|y rs']]; simpl in Hlen; try lia.
    simpl in Hhd. injection Hhd as ->. simpl.
    unfold boundary, switch. destruct prev_arm; lia.
Qed.

Lemma next_row_ok (prev_arm : option Z) (allowed_i : list Z)
    (allowed_rev : list (list Z)) (row_prev : dp_row) (rest : list dp_row) :
  NoDup allowed_i → NoDup row_prev.*1 → row_prev ≠ [] →
  table_ok prev_arm allowed_rev (row_prev :: rest) →
  ∃ row, next_row row_prev allowed_i = ok row
         ∧ row.*1 = allowed_i
         ∧ table_ok prev_arm (allowed_i :: allowed_rev) (row :: row_prev :: rest).
Proof.
  intros Hnd Hnd_prev Hne (Hlen & Hkeys_prev & Hinv).
  destruct (next_row_spec row_prev allowed_i Hne) as (row & Hrow & Hkeys & Hent).
  exists row. split; [done|]. split; [done|].
  split; [simpl in *; lia|]. split; [intros ? [= <-]; simpl; by rewrite Hkeys|].
  intros row' c e [= <-] Hin.
  destruct (best_predecessor_spec row_prev c Hne) as (p & ep & Hbp & Hp & Hmin).
  rewrite (Hent c e Hin) in Hbp. injection Hbp as ->.
  destruct (Hinv row_prev p ep eq_refl Hp) as (rs & Hrs & Hadm & Hcost & Hopt).
  pose proof (rpath_head _ _ _ Hrs) as Hhd.
  destruct rs as [|p' rs]; [done|]. simpl in Hhd. injection Hhd as ->.
  exists (c :: p :: rs). split; [|split; [|split]].
  - rewrite rpath_cons, (row_lookup_elem row c _ ltac:(by rewrite Hkeys) Hin).
    by rewrite Hrs.
  - constructor; [|done].
    rewrite <- Hkeys. by apply (list_elem_of_fmap_2 fst) in Hin.
  - rewrite rcost_cons, Hcost. done.
  - intros rs' Hadm' Hhd'.
    destruct rs' as [|c' rs']; [done|]. simpl in Hhd'. injection Hhd' as ->.
    apply Forall2_cons in Hadm' as [_ Hadm'].
    destruct allowed_rev as [|allowed_prev allowed_rev]; [simpl in Hlen; lia|].
    destruct rs' as [|q rs']; [by apply Forall2_length in Hadm'|].
    pose proof Hadm' as Hq. apply Forall2_cons in Hq as [Hq _].
    specialize (Hkeys_prev row_prev eq_refl).
    simpl in Hkeys_prev. injection Hkeys_prev as Hkeys_prev.
    rewrite Hkeys_prev in Hq.
    apply list_elem_of_fmap in Hq as ([q' eq] & -> & Hq). cbn [fst] in *.
    destruct (Hinv row_prev q' eq eq_refl Hq) as (_ & _ & _ & _ & Hoptq).
    specialize (Hoptq (q' :: rs') Hadm' eq_refl).
    specialize (Hmin q' eq Hq).
    rewrite rcost_cons. lia.
Qed.

(** the allowed arms are good: distinct, and some arm is allowed *)
Definition good_allowed (allowed_i : list Z) : Prop :=
  NoDup allowed_i ∧ allowed_i ≠ [].

Lemma propagate_ok (prev_arm : option Z) (allowed_rest : list (list Z))
    (allowed_rev : list (list Z)) (row_prev : dp_row) (rest : list dp_row) :
  Forall good_allowed allowed_rest →
  NoDup row_prev.*1 → row_prev ≠ [] →
  table_ok prev_arm allowed_rev (row_prev :: rest) →
  ∃ rows, propagate row_prev allowed_rest = ok rows
          ∧ length rows = length allowed_rest
          ∧ table_ok prev_arm (rev allowed_rest ++ allowed_rev)
                     (rev rows ++ row_prev :: rest)
          ∧ (∃ last_row, head (rev rows ++ row_prev :: rest) = Some last_row
                         ∧ NoDup last_row.*1 ∧ last_row ≠ []).
Proof.
  revert allowed_rev row_prev rest.
  induction allowed_rest as [|allowed_i allowed_rest IH];
    intros allowed_rev row_prev rest Hgood Hnd Hne Hok.
  - exists []. simpl. split; [done|]. split; [done|]. split; [done|]. eauto.
  - apply Forall_cons in Hgood as [[Hnd_i Hne_i] Hgood].
    destruct (next_row_ok prev_arm allowed_i allowed_rev row_prev rest Hnd_i Hnd Hne Hok)
      as (row & Hrow & Hkeys & Hok').
    destruct (IH (allowed_i :: allowed_rev) row (row_prev :: rest) Hgood)
      as (rows & Hrows & Hlen & Hok'' & Hlast); [by rewrite Hkeys| |done|].
    { intros ->. by destruct allowed_i. }
    exists (row :: rows). cbn [propagate]. rewrite Hrow. simpl. rewrite Hrows. simpl.
    split; [done|]. split; [by rewrite Hlen|].
    rewrite <- !app_assoc. simpl. done.
Qed.

Lemma Forall2_rev {A B : Type} (P : A → B → Prop) (l : list A) (k : list B) :
  Forall2 P l k → Forall2 P (rev l) (rev k).
Proof.
  induction 1 as [|x y l k Hxy _ IH]; [constructor|].
  simpl. apply Forall2_app; [done|]. by repeat constructor.
Qed.

Lemma rev_head_last {A : Type} (l : list A) (x : A) (t : list A) (d : A) :
  rev l = x :: t → List.last l d = x.
Proof.
  intros H. apply (f_equal (@rev A)) in H. rewrite rev_involutive in H.
  subst l. simpl. apply last_last.
Qed.

Lemma rev_head_last_opt {A : Type} (l : list A) : head (rev l) = last l.
Proof.
  induction l as [|x l _] using rev_ind; [done|].
  rewrite rev_app_distr, last_snoc. done.
Qed.

Lemma allowed_arms_elem (forbid c : Z) :
  c ∈ allowed_arms forbid ↔ is_arm c ∧ c ≠ forbid.
Proof.
  unfold allowed_arms, is_arm. rewrite list_elem_of_filter.
  rewrite !elem_of_cons, elem_of_nil. tauto.
Qed.

Lemma allowed_arms_good (forbid : Z) : good_allowed (allowed_arms forbid).
Proof.
  split.
  - unfold allowed_arms. apply NoDup_filter.
    repeat (apply NoDup_cons; split; [rewrite ?elem_of_cons, elem_of_nil; lia|]).
    apply NoDup_nil_2.
  - destruct (decide (forbid = 1)) as [->|Hne].
    + intros H. assert (2 ∈ allowed_arms 1) as H2
        by (apply allowed_arms_elem; unfold is_arm; lia).
      rewrite H in H2. by apply elem_of_nil in H2.
    + intros H. assert (1 ∈ allowed_arms forbid) as H1
        by (apply allowed_arms_elem; unfold is_arm; lia).
      rewrite H in H1. by apply elem_of_nil in H1.
Qed.

(** the learning exit arm of every animal is known *)
Definition covered (animals : list Animal) (learning_exit_map : gmap string Z) : Prop :=
  ∀ a, a ∈ animals → is_Some (learning_exit_map !! AnimalID a).

Lemma allowed_of_spec (cage_animals : list Animal) (learning_exit_map : gmap string Z) :
  covered cage_animals learning_exit_map →
  ∃ allowed,
    allowed_of cage_animals learning_exit_map = ok allowed
    ∧ Forall2 (fun a allowed_i =>
                 ∃ forbid, learning_exit_map !! AnimalID a = Some forbid
                           ∧ allowed_i = allowed_arms forbid)
              cage_animals allowed.
Proof.
  induction cage_animals as [|a rest IH]; intros Hcov.
  - exists []. split; [done|constructor].
  - destruct IH as (allowed & Hal & Hall).
    { intros b Hb. apply Hcov. by right. }
    destruct (Hcov a ltac:(by left)) as [forbid Hf].
    exists (allowed_arms forbid :: allowed). cbn [allowed_of].
    rewrite Hf, Hal. split; [done|]. constructor; eauto.
Qed.

(** what a plan promises for the cage, given the allowed arms of its
    animals *)
Definition plan_spec (prev_arm : option Z) (allowed : list (list Z))
    (plan : CagePlan) : Prop :=
  Forall2 (fun c allowed_i => c ∈ allowed_i) (colors plan) allowed
  ∧ cost plan = switch_cost prev_arm (colors plan)
  ∧ (∀ s, Forall2 (fun c allowed_i => c ∈ allowed_i) s allowed →
          cost plan ≤ switch_cost prev_arm s)
  ∧ end_arm plan = last (colors plan)
  ∧ first plan = head (colors plan).

Lemma plan_cage_dp_ok (cage_animals : list Animal) (prev_arm : option Z)
    (learning_exit_map : gmap string Z) :
  cage_animals ≠ [] → covered cage_animals learning_exit_map →
  ∃ plan allowed,
    plan_cage_dp cage_animals prev_arm learning_exit_map = ok plan
    ∧ allowed_of cage_animals learning_exit_map = ok allowed
    ∧ plan_spec prev_arm allowed plan.
Proof.
  intros Hne Hcov.
  destruct (allowed_of_spec cage_animals learning_exit_map Hcov) as (allowed & Hal & Hall).
  assert (Forall good_allowed allowed) as Hgood.
  { clear -Hall. induction Hall as [|a al ? ? (f & _ & ->) _ IH]; constructor; [|done].
    apply allowed_arms_good. }
  destruct cage_animals as [|a0 arest]; [done|].
  destruct allowed as [|allowed0 allowed_rest]; [by apply Forall2_length in Hall|].
  unfold plan_cage_dp. rewrite Hal. cbn [rbind ok]. cbv beta iota.
  apply Forall_cons in Hgood as [[Hnd0 Hne0] Hgood].
  pose proof (first_row_ok prev_arm allowed0 Hnd0) as Hok0.
  assert ((first_row prev_arm allowed0).*1 = allowed0) as Hkeys0.
  { unfold first_row. rewrite <- list_fmap_compose. by rewrite list_fmap_id. }
  destruct (propagate_ok prev_arm allowed_rest [allowed0]
              (first_row prev_arm allowed0) [] Hgood)
    as (rows & Hrows & Hlen & Htable & last_row & Hlast & Hnd_last & Hne_last);
    [by rewrite Hkeys0| |done|].
  { intros E. rewrite E in Hkeys0. by destruct allowed0. }
  rewrite Hrows. cbn [rbind ok].
  set (dp0 := first_row prev_arm allowed0) in *.
  set (stack := rev rows ++ [dp0]) in *.
  assert (List.last (dp0 :: rows) [] = last_row) as ->.
  { destruct stack as [|r t] eqn:E; [done|]. simpl in Hlast. injection Hlast as ->.
    apply (rev_head_last _ last_row t). simpl. exact E. }
  destruct Htable as (Hlen_stack & Hkeys & Hinv).
  set (key := fun e : Z * (Z * option Z) => (e.1, e.2.1)).
  destruct last_row as [|x xs] eqn:Elast; [done|]. rewrite <- Elast in *.
  assert (map key last_row = key x :: map key xs) as -> by (by rewrite Elast).
  destruct (first_min_spec (key x) (map key xs)) as [Hin Hmin].
  change (key x :: map key xs) with (map key (x :: xs)) in Hin, Hmin.
  rewrite <- Elast in Hin, Hmin.
  destruct (first_min Z.ltb (key x) (map key xs)) as [end_color total_cost].
  apply list_elem_of_In, in_map_iff in Hin as ([c e] & [= -> <-] & Hin).
  apply list_elem_of_In in Hin.
  destruct (Hinv last_row end_color e Hlast Hin) as (rs & Hrs & Hadm & Hcost & Hopt).
  rewrite (reconstruct_rpath (rev rows) dp0 end_color rs [] Hrs). cbn [rbind ok].
  rewrite app_nil_r.
  eexists. exists (allowed0 :: allowed_rest). split; [reflexivity|]. split; [done|].
  unfold plan_spec. cbn [colors cost end_arm first].
  assert (rev (allowed0 :: allowed_rest) = rev allowed_rest ++ [allowed0]) as Hrev by done.
  split; [|split; [|split; [|split]]].
  - apply Forall2_rev in Hadm. rewrite rev_app_distr, rev_involutive in Hadm. done.
  - by rewrite switch_cost_rcost, rev_involutive.
  - intros s Hs. rewrite switch_cost_rcost.
    apply Forall2_rev in Hs. rewrite Hrev in Hs.
    specialize (Hkeys last_row Hlast).
    destruct (rev allowed_rest ++ [allowed0]) as [|al_last al_rev] eqn:Eal;
      [by destruct (rev allowed_rest)|].
    simpl in Hkeys. injection Hkeys as ->.
    destruct (rev s) as [|c' rs'] eqn:Es; [by apply Forall2_length in Hs|].
    pose proof Hs as Hc'. apply Forall2_cons in Hc' as [Hc' _].
    apply list_elem_of_fmap in Hc' as ([c'' e'] & -> & Hc').
    destruct (Hinv last_row c'' e' Hlast Hc') as (_ & _ & _ & _ & Hopt').
    specialize (Hopt' (c'' :: rs') Hs eq_refl).
    assert (key (c'', e') ∈ map key last_row) as Hk.
    { apply list_elem_of_In, in_map. by apply list_elem_of_In. }
    specialize (Hmin _ Hk). unfold key in Hmin. cbn [fst snd] in *. lia.
  - rewrite <- rev_head_last_opt, rev_involutive. symmetry. by eapply rpath_head.
  - done.
Qed.

(** [s] gives every animal of the cage an arm of 1, 2, 3 that is not
    its learning exit arm *)
Definition avoids_learning_exit (cage_animals : list Animal)
    (learning_exit_map : gmap string Z) (s : list Z) : Prop :=
  Forall2 (fun a c => is_arm c ∧ learning_exit_map !! AnimalID a ≠ Some c)
          cage_animals s.

Lemma allowed_avoids (cage_animals : list Animal) (learning_exit_map : gmap string Z)
    (allowed : list (list Z)) (s : list Z) :
  Forall2 (fun a allowed_i =>
             ∃ forbid, learning_exit_map !! AnimalID a = Some forbid
                       ∧ allowed_i = allowed_arms forbid)
          cage_animals allowed →
  Forall2 (fun c allowed_i => c ∈ allowed_i) s allowed
  ↔ avoids_learning_exit cage_animals learning_exit_map s.
Proof.
  intros Hall. revert s.
  induction Hall as [|a al cage allowed (f & Hf & ->) _ IH]; intros s.
  - split; intros H; inversion H; constructor.
  - split; intros H; inversion H as [|x y l k Hx Hrest]; subst.
    + constructor; [|by apply IH].
      apply allowed_arms_elem in Hx as [Harm Hne]. split; [done|].
      rewrite Hf. congruence.
    + constructor; [|by apply IH].
      destruct Hx as [Harm Hne]. apply allowed_arms_elem. split; [done|].
      intros ->. by rewrite Hf in Hne.
Qed.

(** what [plan_cage_dp] promises for a cage *)
Definition dp_spec (cage_animals : list Animal) (prev_arm : option Z)
    (learning_exit_map : gmap string Z) : Prop :=
  ∃ plan,
    plan_cage_dp cage_animals prev_arm learning_exit_map = ok plan
    ∧ length (colors plan) = length cage_animals
    ∧ avoids_learning_exit cage_animals learning_exit_map (colors plan)
    ∧ cost plan = switch_cost prev_arm (colors plan)
    ∧ ∀ s, avoids_learning_exit cage_animals learning_exit_map s →
           cost plan ≤ switch_cost prev_arm s.

(** C2: for a non-empty cage whose animals all have a learning exit
    arm, and for every incoming arm or none, [plan_cage_dp] returns a
    plan; its colors are as many as the animals, each avoids the
    learning exit arm of its animal, the cost is the number of switches
    of the colors, the boundary included, and no sequence that avoids
    the learning exit arms costs less. *)
Theorem plan_cage_dp_minimal (cage_animals : list Animal) (prev_arm : option Z)
    (learning_exit_map : gmap string Z) :
  cage_animals ≠ [] → covered cage_animals learning_exit_map →
  dp_spec cage_animals prev_arm learning_exit_map.
Proof.
  intros Hne Hcov.
  destruct (plan_cage_dp_ok cage_animals prev_arm learning_exit_map Hne Hcov)
    as (plan & allowed & Hplan & Hal & Hadm & Hcost & Hopt & _).
  destruct (allowed_of_spec cage_animals learning_exit_map Hcov) as (allowed' & Hal' & Hall).
  rewrite Hal in Hal'. injection Hal' as <-.
  exists plan. split; [done|].
  pose proof (proj1 (allowed_avoids _ _ _ _ Hall) Hadm) as Hav.
  split; [symmetry; by eapply Forall2_length|]. split; [done|]. split; [done|].
  intros s Hs. apply Hopt. by apply (allowed_avoids _ _ _ _ Hall).
Qed.

Definition cage3 : list Animal :=
  [mkAnimal "A1" "t1" "Male" "WT" "C1"; mkAnimal "A2" "t2" "Male" "WT" "C1";
   mkAnimal "A3" "t3" "Male" "WT" "C1"].

Definition exits3 : gmap string Z :=
  <["A1" := 1]> (<["A2" := 2]> (<["A3" := 3]> ∅)).

Lemma plan_cage_dp_minimal_witness : dp_spec cage3 (Some 1) exits3.
Proof.
  apply plan_cage_dp_minimal; [done|].
  intros a Ha. unfold cage3 in Ha.
  repeat (apply elem_of_cons in Ha as [->|Ha]; [by eexists|]).
  by apply elem_of_nil in Ha.
Defined.

Example plan_cage_dp_cage3 :
  plan_cage_dp cage3 (Some 1) exits3
  = ok {| cost := 2; end_arm := Some 1; first := Some 2; colors := [2; 1; 1] |}.
Proof. reflexivity. Qed.

(** ** Cages *)

(** the animals of cage [c], in the order of the roster *)
Definition cage_of (c : string) (animal_data : list Animal) : list Animal :=
  filter (fun a => Cage a = c) animal_data.

Lemma dict_get_append {K V : Type} `{EqDecision K} (k c : K) (v : V)
    (d : list (K * list V)) :
  dict_get c (dict_append k v d)
  = if decide (c = k) then Some (default [] (dict_get c d) ++ [v])
    else dict_get c d.
Proof.
  induction d as [|[k' vs] d IH].
  - simpl. by destruct (decide (c = k)).
  - simpl. destruct (decide (k = k')) as [->|Hne]; simpl.
    + destruct (decide (c = k')); [done|]. done.
    + destruct (decide (c = k')) as [->|Hne'].
      * destruct (decide (k' = k)); [congruence|done].
      * exact IH.
Qed.

Lemma dict_append_keys {K V : Type} `{EqDecision K} (k : K) (v : V)
    (d : list (K * list V)) :
  (dict_append k v d).*1 = if decide (k ∈ d.*1) then d.*1 else d.*1 ++ [k].
Proof.
  induction d as [|[k' vs] d IH].
  - simpl. destruct (decide (k ∈ [])) as [H|]; [by apply elem_of_nil in H|done].
  - simpl. destruct (decide (k = k')) as [->|Hne].
    + rewrite decide_True by (by left). done.
    + rewrite fmap_cons, IH. simpl.
      destruct (decide (k ∈ d.*1)) as [Hin|Hnin].
      * rewrite decide_True by (by right). done.
      * rewrite decide_False; [done|].
        intros H. apply elem_of_cons in H as [?|?]; done.
Qed.

Lemma dict_get_Some_keys {K V : Type} `{EqDecision K} (c : K) (d : list (K * V)) :
  is_Some (dict_get c d) ↔ c ∈ d.*1.
Proof.
  induction d as [|[k v] d IH]; simpl.
  - split; [by intros [? ?]|intros H; by apply elem_of_nil in H].
  - destruct (decide (c = k)) as [->|Hne].
    + split; [intros _; by left|eauto].
    + rewrite IH. split; [by right|].
      intros H. apply elem_of_cons in H as [?|?]; done.
Qed.

(** [cages[c]] is the cage of [c], for the cages that have animals *)
Definition cages_ok (animal_data : list Animal)
    (cages : list (string * list Animal)) : Prop :=
  NoDup cages.*1
  ∧ ∀ c, dict_get c cages
         = match cage_of c animal_data with
           | [] => None
           | animals => Some animals
           end.

Lemma group_animals_by_cage_in_order_ok (animal_data : list Animal) :
  cages_ok animal_data (group_animals_by_cage_in_order animal_data).
Proof.
  unfold group_animals_by_cage_in_order.
  assert (∀ l pre d, cages_ok pre d →
            cages_ok (pre ++ l)
              (fold_left (fun cages a => dict_append (Cage a) a cages) l d)) as H.
  { induction l as [|a l IH]; intros pre d Hd; [by rewrite app_nil_r|].
    simpl. replace (pre ++ a :: l) with ((pre ++ [a]) ++ l) by (by rewrite <- app_assoc).
    apply IH. destruct Hd as [Hnd Hget]. split.
    - rewrite dict_append_keys. destruct (decide (Cage a ∈ d.*1)); [done|].
      apply NoDup_app. split; [done|]. split; [|apply NoDup_singleton].
      intros x Hx Hx'. apply list_elem_of_singleton in Hx' as ->. done.
    - intros c. rewrite dict_get_append, Hget. unfold cage_of.
      rewrite filter_app, filter_cons, filter_nil.
      destruct (decide (c = Cage a)) as [->|Hne].
      + rewrite decide_True by done.
        destruct (filter (λ a0, Cage a0 = Cage a) pre); done.
      + rewrite decide_False by done. by rewrite app_nil_r. }
  apply (H animal_data [] []). split; [apply NoDup_nil_2|done].
Qed.

Lemma cages_ok_names (animal_data : list Animal) (cages : list (string * list Animal))
    (a : Animal) :
  cages_ok animal_data cages → a ∈ animal_data → Cage a ∈ cages.*1.
Proof.
  intros [_ Hget] Ha. apply dict_get_Some_keys. rewrite Hget.
  assert (a ∈ cage_of (Cage a) animal_data) as Hin by (by apply list_elem_of_filter).
  destruct (cage_of (Cage a) animal_data); [by apply elem_of_nil in Hin|done].
Qed.

Lemma cages_ok_lookup (animal_data : list Animal) (cages : list (string * list Animal))
    (c : string) :
  cages_ok animal_data cages → c ∈ cages.*1 →
  dict_get c cages = Some (cage_of c animal_data) ∧ cage_of c animal_data ≠ [].
Proof.
  intros [_ Hget] Hc. apply dict_get_Some_keys in Hc as [animals Ha].
  rewrite Hget in Ha. rewrite Hget.
  destruct (cage_of c animal_data); done.
Qed.

Lemma cage_of_cage_of (c n : string) (animal_data : list Animal) :
  cage_of c (cage_of n animal_data)
  = if decide (c = n) then cage_of c animal_data else [].
Proof.
  unfold cage_of. destruct (decide (c = n)) as [->|Hne].
  - induction animal_data as [|a l IH]; [done|].
    rewrite filter_cons. destruct (decide (Cage a = n)) as [He|Hn]; [|done].
    rewrite filter_cons. rewrite decide_True by done. by rewrite IH.
  - induction animal_data as [|a l IH]; [done|].
    rewrite filter_cons. destruct (decide (Cage a = n)) as [He|Hn]; [|done].
    rewrite filter_cons. rewrite decide_False by congruence. done.
Qed.

Lemma cage_of_concat (animal_data : list Animal) (names : list string) (c : string) :
  NoDup names →
  cage_of c (concat ((fun c' => cage_of c' animal_data) <$> names))
  = if decide (c ∈ names) then cage_of c animal_data else [].
Proof.
  induction names as [|n names IH]; intros Hnd.
  - destruct (decide (c ∈ [])) as [H|]; [by apply elem_of_nil in H|done].
  - apply NoDup_cons in Hnd as [Hn Hnd].
    rewrite fmap_cons, concat_cons. unfold cage_of at 1. rewrite filter_app.
    fold (cage_of c (cage_of n animal_data)).
    fold (cage_of c (concat ((λ c', cage_of c' animal_data) <$> names))).
    rewrite (IH Hnd).
    rewrite cage_of_cage_of.
    destruct (decide (c = n)) as [->|Hne];
      destruct (decide (_ ∈ names)) as [H1|H1];
      destruct (decide (_ ∈ n :: names)) as [H2|H2];
      rewrite ?app_nil_r; try done.
    + destruct H2. by left.
    + destruct H2. by right.
    + apply elem_of_cons in H2 as [?|?]; done.
Qed.

Lemma cage_blocks_Permutation (animal_data : list Animal) (names : list string) :
  NoDup names → (∀ a, a ∈ animal_data → Cage a ∈ names) →
  concat ((fun c => cage_of c animal_data) <$> names) ≡ₚ animal_data.
Proof.
  intros Hnd. induction animal_data as [|a l IH]; intros Hin.
  - clear. induction names as [|n names IH]; [done|]. by rewrite fmap_cons.
  - assert (Cage a ∈ names) as Ha by (apply Hin; by left).
    assert (concat ((λ c, cage_of c l) <$> names) ≡ₚ l) as IH'
      by (apply IH; intros b Hb; apply Hin; by right).
    transitivity (a :: concat ((λ c, cage_of c l) <$> names));
      [|by apply perm_skip].
    clear IH IH' Hin.
    induction names as [|n names IHn]; [by apply elem_of_nil in Ha|].
    apply NoDup_cons in Hnd as [Hn Hnd].
    rewrite !fmap_cons, !concat_cons. unfold cage_of at 1. rewrite filter_cons.
    destruct (decide (Cage a = n)) as [He|Hne].
    + simpl. apply perm_skip. apply Permutation_app_head.
      assert ((λ c, cage_of c (a :: l)) <$> names = (λ c, cage_of c l) <$> names) as ->; [|done].
      apply list_fmap_ext. intros i c Hc. unfold cage_of. rewrite filter_cons.
      rewrite decide_False; [done|]. intros E. apply Hn. rewrite <- He, E.
      by eapply list_elem_of_lookup_2.
    + fold (cage_of n l). rewrite IHn; [|done|].
      * symmetry. apply Permutation_middle.
      * apply elem_of_cons in Ha as [?|?]; done.
Qed.

(** ** The cage-pack optimizer *)

(** a plan fits the animals of its cage *)
Definition good_plan (animals : list Animal) (learning_exit_map : gmap string Z)
    (plan : CagePlan) : Prop :=
  avoids_learning_exit animals learning_exit_map (colors plan)
  ∧ ∃ e, end_arm plan = Some e ∧ is_arm e.

Lemma plan_cage_dp_good (animals : list Animal) (prev_arm : option Z)
    (learning_exit_map : gmap string Z) :
  animals ≠ [] → covered animals learning_exit_map →
  ∃ plan, plan_cage_dp animals prev_arm learning_exit_map = ok plan
          ∧ good_plan animals learning_exit_map plan.
Proof.
  intros Hne Hcov.
  destruct (plan_cage_dp_ok animals prev_arm learning_exit_map Hne Hcov)
    as (plan & allowed & Hplan & Hal & Hadm & _ & _ & Hend & _).
  destruct (allowed_of_spec animals learning_exit_map Hcov) as (allowed' & Hal' & Hall).
  rewrite Hal in Hal'. injection Hal' as <-.
  pose proof (proj1 (allowed_avoids _ _ _ _ Hall) Hadm) as Hav.
  exists plan. split; [done|]. split; [done|].
  rewrite Hend.
  destruct (last (colors plan)) as [e|] eqn:El.
  - exists e. split; [done|].
    apply last_Some in El as [l' El].
    unfold avoids_learning_exit in Hav. rewrite El in Hav.
    apply Forall2_app_inv_r in Hav as (? & ? & _ & Hlast & _).
    inversion Hlast as [|? ? ? ? [Harm _]]; done.
  - apply last_None in El. apply Forall2_length in Hav. rewrite El in Hav.
    by destruct animals.
Qed.

(** every cage has its three plans *)
Definition plans_ok (cages : list (string * list Animal))
    (learning_exit_map : gmap string Z)
    (plans : gmap string (gmap Z CagePlan)) : Prop :=
  ∀ c animals s, dict_get c cages = Some animals → is_arm s →
    ∃ plan, plan_at plans c (Some s) = ok plan
            ∧ plan_cage_dp animals (Some s) learning_exit_map = ok plan
            ∧ good_plan animals learning_exit_map plan.

Lemma plans_of_ok (cages : list (string * list Animal))
    (learning_exit_map : gmap string Z) :
  (∀ c animals, (c, animals) ∈ cages → animals ≠ [] ∧ covered animals learning_exit_map) →
  ∃ plans, plans_of cages learning_exit_map = ok plans
           ∧ plans_ok cages learning_exit_map plans.
Proof.
  induction cages as [|[c animals] cages IH]; intros Hall.
  - exists ∅. split; [done|]. intros c animals s H. done.
  - destruct IH as (plans & Hplans & Hok).
    { intros c' a' Hin. apply (Hall c' a'). by right. }
    destruct (Hall c animals ltac:(by left)) as [Hne Hcov].
    destruct (plan_cage_dp_good animals (Some 1) learning_exit_map Hne Hcov) as (p1 & Hp1 & Hg1).
    destruct (plan_cage_dp_good animals (Some 2) learning_exit_map Hne Hcov) as (p2 & Hp2 & Hg2).
    destruct (plan_cage_dp_good animals (Some 3) learning_exit_map Hne Hcov) as (p3 & Hp3 & Hg3).
    eexists. cbn [plans_of]. unfold plans_for. rewrite Hp1, Hp2, Hp3. cbn [rbind ok].
    rewrite Hplans. cbn [rbind ok]. split; [reflexivity|].
    intros c' animals' s Hget Hs. simpl in Hget. unfold plan_at.
    destruct (decide (c' = c)) as [->|Hne'].
    + injection Hget as <-. rewrite lookup_insert_eq.
      destruct Hs as [->|[->| ->]].
      * rewrite lookup_insert_ne, lookup_insert_ne, lookup_insert_eq by done. eauto.
      * rewrite lookup_insert_ne, lookup_insert_eq by done. eauto.
      * rewrite lookup_insert_eq. eauto.
    + rewrite lookup_insert_ne by done. by apply Hok.
Qed.

Lemma remove_Permutation (c : string) (l : list string) :
  NoDup l → c ∈ l → l ≡ₚ c :: filter (fun ck => ck ≠ c) l.
Proof.
  induction l as [|x l IH]; intros Hnd Hin; [by apply elem_of_nil in Hin|].
  apply NoDup_cons in Hnd as [Hx Hnd]. rewrite filter_cons.
  destruct (decide (x = c)) as [->|Hne].
  - rewrite decide_False by (intros H; by apply H).
    apply perm_skip.
    assert (filter (λ ck, ck ≠ c) l = l) as ->; [|done].
    clear -Hx. induction l as [|y l IH]; [done|].
    rewrite filter_cons, decide_True.
    + rewrite IH; [done|]. intros H. apply Hx. by right.
    + intros ->. apply Hx. by left.
  - rewrite decide_True by done.
    apply elem_of_cons in Hin as [->|Hin]; [done|].
    rewrite (IH Hnd Hin) at 1. apply perm_swap.
Qed.

Section CagePacks.

Variable set_order : list string → list string.
Hypothesis set_order_perm : ∀ l, NoDup l → set_order l ≡ₚ l.

Variable cages : list (string * list Animal).
Variable learning_exit_map : gmap string Z.
Variable plans : gmap string (gmap Z CagePlan).
Hypothesis Hplans : plans_ok cages learning_exit_map plans.

(** the plan chosen for a cage is one of its plans *)
Definition chosen_ok (chosen : gmap string CagePlan) (c : string) : Prop :=
  ∃ plan animals, chosen !! c = Some plan
                  ∧ dict_get c cages = Some animals
                  ∧ good_plan animals learning_exit_map plan.

Lemma keyed_by_cost_ok (remaining : list string) (s : Z) :
  is_arm s → (∀ c, c ∈ remaining → c ∈ cages.*1) →
  ∃ keyed, keyed_by_cost plans (Some s) remaining = ok keyed
           ∧ keyed.*1 = remaining.
Proof.
  intros Hs. induction remaining as [|ck rest IH]; intros Hin.
  - by exists [].
  - destruct IH as (keyed & Hk & Hkeys); [intros c Hc; apply Hin; by right|].
    destruct (proj2 (dict_get_Some_keys ck cages) (Hin ck ltac:(by left)))
      as [animals Ha].
    destruct (Hplans ck animals s Ha Hs) as (plan & Hp & _).
    exists ((ck, cost plan) :: keyed). cbn [keyed_by_cost].
    rewrite Hp, Hk. split; [done|]. rewrite fmap_cons. by rewrite Hkeys.
Qed.

Lemma cheapest_ok (remaining : list string) (s : Z) :
  is_arm s → remaining ≠ [] → (∀ c, c ∈ remaining → c ∈ cages.*1) →
  ∃ c, cheapest plans (Some s) remaining = ok c ∧ c ∈ remaining.
Proof.
  intros Hs Hne Hin.
  destruct (keyed_by_cost_ok remaining s Hs Hin) as (keyed & Hk & Hkeys).
  unfold cheapest. rewrite Hk. cbn [rbind ok].
  destruct keyed as [|x xs]; [by destruct remaining|].
  eexists. split; [reflexivity|].
  destruct (first_min_spec x xs) as [Hmem _].
  rewrite <- Hkeys. by apply list_elem_of_fmap_2.
Qed.

Lemma greedy_ok (rounds : nat) (remaining : list string) (current : option string)
    (prev_end : option Z) (total_cost : Z) (seq : list string)
    (chosen : gmap string CagePlan) :
  NoDup remaining → (∀ c, c ∈ remaining → c ∈ cages.*1) →
  (length remaining ≤ rounds)%nat →
  (∀ c, current = Some c → c ∈ remaining) →
  (∃ s, prev_end = Some s ∧ is_arm s) →
  ∃ total' new chosen' prev_end',
    greedy rounds plans remaining current prev_end total_cost seq chosen
      = ok (total', seq ++ new, chosen', prev_end')
    ∧ new ≡ₚ remaining
    ∧ (∀ c, c ∈ remaining → chosen_ok chosen' c)
    ∧ (∀ c, c ∉ remaining → chosen' !! c = chosen !! c).
Proof.
  revert remaining current prev_end total_cost seq chosen.
  induction rounds as [|rounds IH];
    intros remaining current prev_end total_cost seq chosen Hnd Hin Hlen Hcur Hprev.
  - destruct remaining; [|simpl in Hlen; lia].
    exists total_cost, [], chosen, prev_end. rewrite app_nil_r.
    split; [done|]. split; [done|]. split; [|done].
    intros c Hc. by apply elem_of_nil in Hc.
  - destruct remaining as [|r0 rest] eqn:Erem.
    { exists total_cost, [], chosen, prev_end. rewrite app_nil_r.
      split; [done|]. split; [done|]. split; [|done].
      intros c Hc. by apply elem_of_nil in Hc. }
    rewrite <- Erem in *.
    destruct Hprev as (s & -> & Hs).
    assert (∃ cur, match current with
                   | None => cheapest plans (Some s) remaining
                   | Some c => ok c
                   end = ok cur ∧ cur ∈ remaining) as (cur & Hcur_eq & Hcur_in).
    { destruct current as [c|]; [exists c; auto|].
      apply cheapest_ok; [done| |done]. by rewrite Erem. }
    destruct (proj2 (dict_get_Some_keys cur cages) (Hin cur Hcur_in)) as [animals Ha].
    destruct (Hplans cur animals s Ha Hs) as (plan & Hp & _ & Hgood).
    pose proof (remove_Permutation cur remaining Hnd Hcur_in) as Hperm.
    set (remaining' := filter (λ ck, ck ≠ cur) remaining) in *.
    destruct (IH remaining' None (end_arm plan) (total_cost + cost plan)
                (seq ++ [cur]) (<[cur := plan]> chosen))
      as (total' & new & chosen' & prev_end' & Hg & Hnew & Hch & Hout).
    + by apply NoDup_filter.
    + intros c Hc. apply Hin. by apply list_elem_of_filter in Hc as [_ Hc].
    + apply Permutation_length in Hperm. simpl in Hperm. lia.
    + done.
    + destruct Hgood as [_ (e & He & Harm)]. eauto.
    + exists total', (cur :: new), chosen', prev_end'.
      rewrite Erem. cbn [greedy]. rewrite <- Erem.
      rewrite Hcur_eq. cbn [rbind ok]. rewrite Hp. cbn [rbind ok].
      unfold set_remove. rewrite decide_True by done. cbn [rbind ok].
      fold remaining'. rewrite Hg. rewrite <- app_assoc.
      split; [done|]. split; [by rewrite Hperm, Hnew|]. split.
      * intros c Hc. rewrite Hperm in Hc.
        apply elem_of_cons in Hc as [->|Hc]; [|by apply Hch].
        exists plan, animals. split; [|done].
        rewrite Hout, lookup_insert_eq; [done|].
        intros H. by apply list_elem_of_filter in H as [H _].
      * intros c Hc. rewrite Hout.
        -- rewrite lookup_insert_ne; [done|]. intros ->. done.
        -- intros H. apply Hc. by apply list_elem_of_filter in H as [_ H].
Qed.

Variable cage_names : list string.
Hypothesis Hnames : cage_names = cages.*1.
Hypothesis Hnodup : NoDup cage_names.

(** a solution places every cage once and has a plan for each *)
Definition solution_ok (r : Z * (Z * list string * gmap string CagePlan)) : Prop :=
  r.2.1.2 ≡ₚ cage_names ∧ ∀ c, c ∈ cage_names → chosen_ok r.2.2 c.

Lemma greedy_from_ok (start_arm : Z) (first_cage : string) :
  is_arm start_arm → first_cage ∈ cage_names →
  ∃ r, greedy_from set_order plans cage_names start_arm first_cage = ok r
       ∧ solution_ok r.
Proof.
  intros Hs Hc. unfold greedy_from.
  pose proof (set_order_perm cage_names Hnodup) as Hperm.
  destruct (greedy_ok (length cage_names) (set_order cage_names) (Some first_cage)
              (Some start_arm) 0 [] ∅)
    as (total' & new & chosen' & prev_end' & Hg & Hnew & Hch & _).
  - by rewrite Hperm.
  - intros c Hin. rewrite Hperm in Hin. by rewrite <- Hnames.
  - by rewrite Hperm.
  - intros c [= <-]. by rewrite Hperm.
  - eauto.
  - rewrite Hg. cbn [rbind ok]. eexists. split; [reflexivity|].
    split; simpl.
    + by rewrite Hnew.
    + intros c Hin. apply Hch. by rewrite Hperm.
Qed.

Lemma search_ok (starts : list (Z * string))
    (best : option (Z * (Z * list string * gmap string CagePlan))) :
  (∀ s c, (s, c) ∈ starts → is_arm s ∧ c ∈ cage_names) →
  (∀ r, best = Some r → solution_ok r) →
  ∃ best', search set_order plans cage_names starts best = ok best'
           ∧ (∀ r, best' = Some r → solution_ok r)
           ∧ (starts ≠ [] → is_Some best').
Proof.
  revert best. induction starts as [|[s c] starts IH]; intros best Hstarts Hbest.
  - exists best. split; [done|]. split; [done|]. done.
  - destruct (Hstarts s c ltac:(by left)) as [Hs Hc].
    destruct (greedy_from_ok s c Hs Hc) as (r & Hr & Hsol).
    cbn [search]. rewrite Hr. cbn [rbind ok].
    set (best1 := match best with
                  | Some (best_total, _) => if r.1 <? best_total then Some r else best
                  | None => Some r
                  end).
    destruct (IH best1) as (best' & Hsearch & Hok & Hsome).
    + intros s' c' Hin. apply Hstarts. by right.
    + intros r' Hr'. unfold best1 in Hr'.
      destruct best as [[bt bs]|]; [|by injection Hr' as <-].
      destruct (r.1 <? bt); [by injection Hr' as <-|by apply Hbest].
    + exists best'. split; [exact Hsearch|]. split; [done|].
      intros _. destruct starts as [|x starts'].
      * simpl in Hsearch. injection Hsearch as <-. unfold best1.
        destruct best as [[bt bs]|]; [|done]. by destruct (r.1 <? bt).
      * by apply Hsome.
Qed.

End CagePacks.

(** the exit arms of a day are arms, and never the learning exit arm *)
Definition exits_ok (learning_exit_map per_animal_exit : gmap string Z) : Prop :=
  ∀ aid arm, per_animal_exit !! aid = Some arm →
    is_arm arm ∧ learning_exit_map !! aid ≠ Some arm.

Lemma record_arms_ok (learning_exit_map : gmap string Z) (animals : list Animal)
    (arms : list Z) (per_animal_exit : gmap string Z) :
  avoids_learning_exit animals learning_exit_map arms →
  exits_ok learning_exit_map per_animal_exit →
  exits_ok learning_exit_map (record_arms animals arms per_animal_exit)
  ∧ (∀ a, a ∈ animals → is_Some (record_arms animals arms per_animal_exit !! AnimalID a))
  ∧ (∀ aid, is_Some (per_animal_exit !! aid) →
            is_Some (record_arms animals arms per_animal_exit !! aid)).
Proof.
  unfold record_arms. intros Hav. revert per_animal_exit.
  induction Hav as [|a c animals arms [Harm Hne] _ IH]; intros m Hm.
  - split; [done|]. split; [|done]. intros a Ha. by apply elem_of_nil in Ha.
  - simpl.
    destruct (IH (<[AnimalID a := c]> m)) as (Hok & Hcov & Hkeep).
    { intros aid arm. rewrite lookup_insert.
      destruct (decide (AnimalID a = aid)) as [<-|]; [|by apply Hm].
      by intros [= <-]. }
    split; [done|]. split.
    + intros b Hb. apply elem_of_cons in Hb as [->|Hb]; [|by apply Hcov].
      apply Hkeep. rewrite lookup_insert_eq. eauto.
    + intros aid Haid. apply Hkeep. rewrite lookup_insert.
      destruct (decide (AnimalID a = aid)); eauto.
Qed.

Lemma build_output_ok (cages : list (string * list Animal))
    (learning_exit_map : gmap string Z) (chosen_plans : gmap string CagePlan)
    (cage_sequence : list string) (ordered_animals : list Animal)
    (per_animal_exit : gmap string Z) :
  (∀ c, c ∈ cage_sequence → chosen_ok cages learning_exit_map chosen_plans c) →
  exits_ok learning_exit_map per_animal_exit →
  ∃ per_animal_exit',
    build_output cages chosen_plans cage_sequence ordered_animals per_animal_exit
    = ok (ordered_animals
            ++ concat ((fun c => default [] (dict_get c cages)) <$> cage_sequence),
          per_animal_exit')
    ∧ exits_ok learning_exit_map per_animal_exit'
    ∧ (∀ c a, c ∈ cage_sequence → a ∈ default [] (dict_get c cages) →
              is_Some (per_animal_exit' !! AnimalID a))
    ∧ (∀ aid, is_Some (per_animal_exit !! aid) → is_Some (per_animal_exit' !! aid)).
Proof.
  revert ordered_animals per_animal_exit.
  induction cage_sequence as [|c rest IH]; intros ordered m Hch Hm.
  - exists m. simpl. rewrite app_nil_r. split; [done|]. split; [done|].
    split; [|done]. intros c a Hc. by apply elem_of_nil in Hc.
  - destruct (Hch c ltac:(by left)) as (plan & animals & Hplan & Hget & Hav & _).
    destruct (record_arms_ok learning_exit_map animals (colors plan) m Hav Hm)
      as (Hok1 & Hcov1 & Hkeep1).
    destruct (IH (ordered ++ animals) (record_arms animals (colors plan) m))
      as (m' & Hb & Hok' & Hcov' & Hkeep'); [intros c' Hc'; apply Hch; by right|done|].
    exists m'. cbn [build_output]. rewrite Hget, Hplan.
    assert ((zip animals (colors plan)).*1 = animals) as Hfst.
    { apply fst_zip. apply Forall2_length in Hav. lia. }
    change (map fst (zip animals (colors plan))) with ((zip animals (colors plan)).*1).
    rewrite Hfst. fold (record_arms animals (colors plan) m). rewrite Hb.
    rewrite fmap_cons, concat_cons, Hget. simpl default. rewrite <- app_assoc.
    split; [done|]. split; [done|]. split.
    + intros c' a Hc' Ha. apply elem_of_cons in Hc' as [->|Hc'].
      * apply Hkeep'. apply Hcov1. by rewrite Hget in Ha.
      * by eapply Hcov'.
    + intros aid Haid. by apply Hkeep', Hkeep1.
Qed.

(** what the cage-pack optimizer returns *)
Definition cage_packs_spec (animal_data : list Animal)
    (learning_exit_map : gmap string Z)
    (ordered_animals : list Animal) (per_animal_exit : gmap string Z) : Prop :=
  ∃ cage_sequence,
    cage_sequence ≡ₚ (group_animals_by_cage_in_order animal_data).*1
    ∧ ordered_animals
      = concat ((fun c => cage_of c animal_data) <$> cage_sequence)
    ∧ exits_ok learning_exit_map per_animal_exit
    ∧ ∀ a, a ∈ animal_data → is_Some (per_animal_exit !! AnimalID a).

Section Optimizer.

Variable set_order : list string → list string.
Hypothesis set_order_perm : ∀ l, NoDup l → set_order l ≡ₚ l.

Lemma build_nonlearning_plan_cage_packs_ok (animal_data : list Animal)
    (learning_exit_map : gmap string Z) :
  animal_data ≠ [] → covered animal_data learning_exit_map →
  ∃ ordered_animals per_animal_exit,
    build_nonlearning_plan_cage_packs set_order animal_data learning_exit_map
    = ok (ordered_animals, per_animal_exit)
    ∧ cage_packs_spec animal_data learning_exit_map ordered_animals per_animal_exit.
Proof.
  intros Hne Hcov. unfold build_nonlearning_plan_cage_packs.
  pose proof (group_animals_by_cage_in_order_ok animal_data) as Hcages.
  set (cages := group_animals_by_cage_in_order animal_data) in *.
  pose proof Hcages as [Hnd Hget].
  destruct (plans_of_ok cages learning_exit_map) as (plans & Hplans & Hpok).
  { intros c animals Hin.
    assert (c ∈ cages.*1) as Hc by (by apply (list_elem_of_fmap_2 fst) in Hin).
    destruct (cages_ok_lookup animal_data cages c Hcages Hc) as [Hl Hnil].
    assert (dict_get c cages = Some animals) as Hl'.
    { clear -Hnd Hin. induction cages as [|[k v] l IH]; [by apply elem_of_nil in Hin|].
      simpl in *. apply NoDup_cons in Hnd as [Hk Hnd].
      apply elem_of_cons in Hin as [[= -> ->]|Hin]; [by rewrite decide_True|].
      rewrite decide_False; [by apply IH|].
      intros ->. apply Hk. by apply (list_elem_of_fmap_2 fst) in Hin. }
    rewrite Hl in Hl'. injection Hl' as <-. split; [done|].
    intros a Ha. apply Hcov. by apply list_elem_of_filter in Ha as [_ Ha]. }
  rewrite Hplans. cbn [rbind ok].
  change (map fst cages) with (cages.*1).
  set (cage_names := cages.*1) in *.
  set (starts := s ← [1; 2; 3]; c ← cage_names; [(s, c)]).
  destruct (search_ok set_order set_order_perm cages learning_exit_map plans Hpok
              cage_names eq_refl Hnd starts None)
    as (best & Hsearch & Hsol & Hsome); [|done|].
  { intros s c Hin. unfold starts in Hin.
    apply list_elem_of_bind in Hin as (s' & Hin & Hs').
    apply list_elem_of_bind in Hin as (c' & Hin & Hc').
    apply list_elem_of_singleton in Hin as [= -> ->]. split; [|done].
    unfold is_arm. rewrite !elem_of_cons, elem_of_nil in Hs'. tauto. }
  rewrite Hsearch. cbn [rbind ok].
  assert (starts ≠ []) as Hstarts.
  { destruct animal_data as [|a l]; [done|].
    assert (Cage a ∈ cage_names) as Hc
      by (eapply cages_ok_names; [exact Hcages|by left]).
    destruct cage_names as [|n names]; [by apply elem_of_nil in Hc|]. done. }
  destruct (Hsome Hstarts) as [[total [[start cage_sequence] chosen]] ->].
  destruct (Hsol _ eq_refl) as [Hperm Hch]. simpl in Hperm, Hch.
  destruct (build_output_ok cages learning_exit_map chosen cage_sequence [] ∅)
    as (per & Hb & Hok & Hcovd & _).
  { intros c Hc. apply Hch. by rewrite <- Hperm. }
  { intros aid arm H. by rewrite lookup_empty in H. }
  exists (concat ((λ c, default [] (dict_get c cages)) <$> cage_sequence)), per.
  split; [exact Hb|].
  exists cage_sequence. split; [done|].
  assert (∀ c, c ∈ cage_sequence → default [] (dict_get c cages) = cage_of c animal_data)
    as Hblocks.
  { intros c Hc. rewrite Hperm in Hc.
    destruct (cages_ok_lookup animal_data cages c Hcages Hc) as [-> _]. done. }
  split; [|split; [done|]].
  - f_equal. apply list_fmap_ext. intros i c Hc. apply Hblocks.
    by eapply list_elem_of_lookup_2.
  - intros a Ha.
    assert (Cage a ∈ cage_sequence) as Hc.
    { rewrite Hperm. by eapply cages_ok_names. }
    apply (Hcovd (Cage a) a Hc). rewrite (Hblocks _ Hc).
    by apply list_elem_of_filter.
Qed.

End Optimizer.

(** the order of the cage packs *)
Definition cage_order_spec (animal_data ordered_animals : list Animal) : Prop :=
  ordered_animals ≡ₚ animal_data
  ∧ (∀ c, cage_of c ordered_animals = cage_of c animal_data)
  ∧ ∃ cage_sequence,
      NoDup cage_sequence
      ∧ ordered_animals = concat ((fun c => cage_of c animal_data) <$> cage_sequence).

Lemma cage_packs_spec_order (animal_data : list Animal)
    (learning_exit_map : gmap string Z)
    (ordered_animals : list Animal) (per_animal_exit : gmap string Z) :
  cage_packs_spec animal_data learning_exit_map ordered_animals per_animal_exit →
  cage_order_spec animal_data ordered_animals.
Proof.
  intros (cage_sequence & Hperm & -> & _).
  pose proof (group_animals_by_cage_in_order_ok animal_data) as Hcages.
  pose proof Hcages as [Hnd _].
  assert (NoDup cage_sequence) as Hnd' by (by rewrite Hperm).
  split; [|split].
  - apply cage_blocks_Permutation; [done|].
    intros a Ha. rewrite Hperm. by eapply cages_ok_names.
  - intros c. rewrite cage_of_concat by done.
    destruct (decide (c ∈ cage_sequence)) as [|Hnin]; [done|].
    symmetry. unfold cage_of.
    destruct (filter (λ a, Cage a = c) animal_data) as [|a l] eqn:E; [done|].
    destruct Hnin. rewrite Hperm.
    assert (a ∈ filter (λ a, Cage a = c) animal_data) as Ha by (rewrite E; by left).
    apply list_elem_of_filter in Ha as [<- Ha]. by eapply cages_ok_names.
  - by exists cage_sequence.
Qed.

(** C4: for a non-empty roster whose animals all have a learning exit
    arm, the optimizer returns the animals of the roster, each once;
    the list is the concatenation of whole cages, every cage once, so
    no cage is interleaved with another; and the animals of a cage keep
    the order they have in the roster. *)
Theorem build_nonlearning_plan_cage_packs_order
    (set_order : list string → list string)
    (animal_data : list Animal) (learning_exit_map : gmap string Z) :
  (∀ l, NoDup l → set_order l ≡ₚ l) →
  animal_data ≠ [] → covered animal_data learning_exit_map →
  ∃ ordered_animals per_animal_exit,
    build_nonlearning_plan_cage_packs set_order animal_data learning_exit_map
    = ok (ordered_animals, per_animal_exit)
    ∧ cage_order_spec animal_data ordered_animals.
Proof.
  intros Hset Hne Hcov.
  destruct (build_nonlearning_plan_cage_packs_ok set_order Hset animal_data
              learning_exit_map Hne Hcov)
    as (ordered & per & Hb & Hpacks).
  exists ordered, per. split; [done|]. by eapply cage_packs_spec_order.
Qed.

Definition roster6 : list Animal :=
  [mkAnimal "A1" "t1" "Male" "WT" "C1"; mkAnimal "A2" "t2" "Male" "WT" "C2";
   mkAnimal "A3" "t3" "Male" "WT" "C1"; mkAnimal "A4" "t4" "Female" "KO" "C3";
   mkAnimal "A5" "t5" "Female" "KO" "C2"; mkAnimal "A6" "t6" "Female" "KO" "C3"].

Definition exits6 : gmap string Z :=
  <["A1" := 1]> (<["A2" := 2]> (<["A3" := 3]>
    (<["A4" := 1]> (<["A5" := 2]> (<["A6" := 3]> ∅))))).

Lemma covered_roster6 : covered roster6 exits6.
Proof.
  intros a Ha. unfold roster6 in Ha.
  repeat (apply elem_of_cons in Ha as [->|Ha]; [by eexists|]).
  by apply elem_of_nil in Ha.
Defined.

Lemma build_nonlearning_plan_cage_packs_order_witness :
  ∃ ordered_animals per_animal_exit,
    build_nonlearning_plan_cage_packs (fun l => l) roster6 exits6
    = ok (ordered_animals, per_animal_exit)
    ∧ cage_order_spec roster6 ordered_animals.
Proof.
  apply build_nonlearning_plan_cage_packs_order;
    [done|done|exact covered_roster6].
Defined.

(** ** Day tables *)

(** the identity columns of a row and its ExitArm column *)
Definition identity_cells (a : Animal) (exit_arm : Z) : list cell :=
  [CStr (AnimalID a); CStr (Tag a); CStr (Sex a); CStr (Genotype a);
   CStr (Cage a); CInt exit_arm].

(** the row of animal [a] on a day whose exit arms are [per_day_exit] *)
Definition row_for (per_day_exit : gmap string Z) (a : Animal) (row : list cell) : Prop :=
  ∃ exit_arm trials,
    per_day_exit !! AnimalID a = Some exit_arm
    ∧ row = identity_cells a exit_arm ++ map CInt trials.

Lemma elem_of_concat {A : Type} (x : A) (ls : list (list A)) :
  x ∈ concat ls → ∃ l, x ∈ l ∧ l ∈ ls.
Proof.
  induction ls as [|l ls IH]; simpl; intros H; [by apply elem_of_nil in H|].
  apply elem_of_app in H as [H|H].
  - exists l. split; [done|by left].
  - destruct (IH H) as (l' & Hx & Hl'). exists l'. split; [done|by right].
Qed.

Lemma list_remove_arm (arm : Z) :
  is_arm arm → ∃ armA armB, list_remove arm [1; 2; 3] = ok [armA; armB].
Proof. intros [->|[->| ->]]; by eexists _, _. Qed.

Lemma day_row_ok (frames : nat) (in_learning : bool) (n_trials : Z)
    (exit_arm_map per_day_exit : gmap string Z) (a : Animal) (g : Random.state)
    (exit_arm : Z) :
  (Z.to_nat n_trials < frames)%nat →
  per_day_exit !! AnimalID a = Some exit_arm → is_arm exit_arm →
  is_Some (exit_arm_map !! AnimalID a) →
  ∃ row g', day_row frames in_learning n_trials exit_arm_map per_day_exit a g = ok (row, g')
            ∧ row_for per_day_exit a row.
Proof.
  intros Hfr He Harm [learn Hl]. unfold day_row. rewrite He.
  destruct (list_remove_arm exit_arm Harm) as (armA & armB & ->). cbn [rbind ok].
  rewrite Hl.
  assert (∃ avoid, (if in_learning then ok exit_arm else ok learn) = ok avoid)
    as [avoid ->] by (destruct in_learning; eauto).
  cbn [rbind ok].
  rewrite generate_pseudorandom_sequence_frames by done.
  destruct (free_sequence n_trials armA armB (Some avoid) g)
    as [trials g']. cbn [rbind ok].
  eexists _, _. split; [reflexivity|]. by exists exit_arm, trials.
Qed.

Lemma day_rows_ok (frames : nat) (in_learning : bool) (n_trials : Z)
    (exit_arm_map per_day_exit : gmap string Z) (animals_today : list Animal)
    (g : Random.state) :
  (Z.to_nat n_trials < frames)%nat →
  (∀ a, a ∈ animals_today →
        (∃ exit_arm, per_day_exit !! AnimalID a = Some exit_arm ∧ is_arm exit_arm)
        ∧ is_Some (exit_arm_map !! AnimalID a)) →
  ∃ rows g',
    day_rows frames in_learning n_trials exit_arm_map per_day_exit animals_today g
    = ok (rows, g')
    ∧ Forall2 (row_for per_day_exit) animals_today rows.
Proof.
  intros Hfr. revert g. induction animals_today as [|a rest IH]; intros g Hall.
  - exists [], g. split; [done|constructor].
  - destruct (Hall a ltac:(by left)) as [(e & He & Harm) Hl].
    destruct (day_row_ok frames in_learning n_trials exit_arm_map per_day_exit a g e
                Hfr He Harm Hl)
      as (row & g1 & Hrow & Hfor).
    destruct (IH g1) as (rows & g2 & Hrows & Hfors);
      [intros b Hb; apply Hall; by right|].
    exists (row :: rows), g2. cbn [day_rows]. rewrite Hrow. cbn [rbind ok].
    rewrite Hrows. cbn [rbind ok]. split; [done|]. by constructor.
Qed.

(** with the exit arms in place, a row fails only when the search of
    its trials runs out of frames *)
Lemma day_row_raises (frames : nat) (in_learning : bool) (n_trials : Z)
    (exit_arm_map per_day_exit : gmap string Z) (a : Animal) (g : Random.state)
    (exit_arm : Z) (e : exn) :
  per_day_exit !! AnimalID a = Some exit_arm → is_arm exit_arm →
  is_Some (exit_arm_map !! AnimalID a) →
  day_row frames in_learning n_trials exit_arm_map per_day_exit a g = inl e →
  e = RecursionError.
Proof.
  intros He Harm [learn Hl]. unfold day_row. rewrite He.
  destruct (list_remove_arm exit_arm Harm) as (armA & armB & ->). cbn [rbind ok].
  rewrite Hl.
  assert (∃ avoid, (if in_learning then ok exit_arm else ok learn) = ok avoid)
    as [avoid ->] by (destruct in_learning; eauto).
  cbn [rbind ok].
  destruct (generate_pseudorandom_sequence frames n_trials armA armB (Some avoid) g)
    as [e'|[trials g']] eqn:Hgen; cbn [rbind ok]; [|done].
  intros [= <-]. by eapply generate_pseudorandom_sequence_raises.
Qed.

Lemma day_rows_raises (frames : nat) (in_learning : bool) (n_trials : Z)
    (exit_arm_map per_day_exit : gmap string Z) (animals_today : list Animal)
    (g : Random.state) (e : exn) :
  (∀ a, a ∈ animals_today →
        (∃ exit_arm, per_day_exit !! AnimalID a = Some exit_arm ∧ is_arm exit_arm)
        ∧ is_Some (exit_arm_map !! AnimalID a)) →
  day_rows frames in_learning n_trials exit_arm_map per_day_exit animals_today g = inl e →
  e = RecursionError.
Proof.
  revert g. induction animals_today as [|a rest IH]; intros g Hall; [done|].
  destruct (Hall a ltac:(by left)) as [(ea & He & Harm) Hl].
  cbn [day_rows].
  destruct (day_row frames in_learning n_trials exit_arm_map per_day_exit a g)
    as [e'|[row g1]] eqn:Hrow; cbn [rbind ok].
  - intros [= <-]. by eapply day_row_raises.
  - destruct (day_rows frames in_learning n_trials exit_arm_map per_day_exit rest g1)
      as [e'|[rs g2]] eqn:Hrows; cbn [rbind ok]; [|done].
    intros [= <-]. eapply IH; [|exact Hrows]. intros b Hb. apply Hall. by right.
Qed.

Lemma learning_exits_ok (animals_today : list Animal) (exit_arm_map : gmap string Z)
    (per_day_exit : gmap string Z) :
  covered animals_today exit_arm_map →
  per_day_exit ⊆ exit_arm_map →
  ∃ per_day_exit',
    learning_exits animals_today exit_arm_map per_day_exit = ok per_day_exit'
    ∧ per_day_exit' ⊆ exit_arm_map
    ∧ per_day_exit ⊆ per_day_exit'
    ∧ ∀ a, a ∈ animals_today → per_day_exit' !! AnimalID a = exit_arm_map !! AnimalID a.
Proof.
  revert per_day_exit. induction animals_today as [|a rest IH]; intros m Hcov Hsub.
  - exists m. split; [done|]. split; [done|]. split; [done|].
    intros a Ha. by apply elem_of_nil in Ha.
  - destruct (Hcov a ltac:(by left)) as [arm Harm].
    destruct (IH (<[AnimalID a := arm]> m)) as (m' & Hm' & Hsub' & Hext & Hall).
    + intros b Hb. apply Hcov. by right.
    + by apply insert_subseteq_l.
    + exists m'. cbn [learning_exits]. rewrite Harm. split; [done|]. split; [done|].
      assert (m' !! AnimalID a = Some arm) as Ha.
      { eapply lookup_weaken; [|exact Hext]. apply lookup_insert_eq. }
      split.
      * apply map_subseteq_spec. intros k v Hk.
        eapply lookup_weaken; [|exact Hext].
        rewrite lookup_insert. destruct (decide (AnimalID a = k)) as [<-|]; [|done].
        eapply lookup_weaken in Hk; [|exact Hsub]. congruence.
      * intros b Hb. apply elem_of_cons in Hb as [->|Hb]; [congruence|by apply Hall].
Qed.

(** every animal has a learning exit arm, one of 1, 2, 3 *)
Definition exit_arms_ok (animal_data : list Animal) (exit_arm_map : gmap string Z) : Prop :=
  ∀ a, a ∈ animal_data →
    ∃ arm, exit_arm_map !! AnimalID a = Some arm ∧ is_arm arm.

Lemma exit_arms_ok_covered (animal_data : list Animal) (exit_arm_map : gmap string Z) :
  exit_arms_ok animal_data exit_arm_map → covered animal_data exit_arm_map.
Proof. intros H a Ha. destruct (H a Ha) as (arm & Harm & _). eauto. Qed.

Section DayTables.

Variable set_order : list string → list string.
Variable frames : nat.
Hypothesis set_order_perm : ∀ l, NoDup l → set_order l ≡ₚ l.

Variable animal_data : list Animal.
Variable exit_arm_map : gmap string Z.
Variables learning_days n_trials : Z.
Hypothesis Hroster : animal_data ≠ [].
Hypothesis Harms : exit_arms_ok animal_data exit_arm_map.
Hypothesis Hframes : (Z.to_nat n_trials < frames)%nat.

(** the table of day [d], counted from 0 *)
Definition table_spec (d : Z) (t : DayTable) : Prop :=
  day t = d + 1
  ∧ header t = header_of n_trials
  ∧ if d <? learning_days then
      type t = "Learning"
      ∧ Forall2 (row_for exit_arm_map) animal_data (rows t)
    else
      type t = "Reversal"
      ∧ ∃ ordered_animals per_animal_exit,
          build_nonlearning_plan_cage_packs set_order animal_data exit_arm_map
          = ok (ordered_animals, per_animal_exit)
          ∧ Forall2 (row_for per_animal_exit) ordered_animals (rows t).

Lemma row_for_weaken (m m' : gmap string Z) (a : Animal) (row : list cell) :
  m !! AnimalID a = m' !! AnimalID a → row_for m a row → row_for m' a row.
Proof. intros H (e & trials & He & ->). exists e, trials. by rewrite <- H. Qed.

Lemma day_table_ok (d : Z) (g : Random.state) :
  ∃ t g', day_table set_order frames animal_data learning_days n_trials exit_arm_map d g
          = ok (t, g')
          ∧ table_spec d t.
Proof.
  unfold day_table, table_spec.
  pose proof (exit_arms_ok_covered _ _ Harms) as Hcov.
  destruct (d <? learning_days) eqn:Hd.
  - destruct (learning_exits_ok animal_data exit_arm_map ∅ Hcov)
      as (per & Hper & Hsub & _ & Hall); [apply map_empty_subseteq|].
    rewrite Hper. cbn [rbind ok].
    destruct (day_rows_ok frames true n_trials exit_arm_map per animal_data g Hframes)
      as (rows & g' & Hrows & Hfor).
    { intros a Ha. destruct (Harms a Ha) as (arm & Harm & Hisarm).
      split; [|eauto]. exists arm. by rewrite Hall. }
    rewrite Hrows. cbn [rbind ok]. eexists _, _. split; [reflexivity|].
    simpl. split; [done|]. split; [done|]. split; [done|].
    eapply Forall2_impl; [exact Hfor|].
    intros a row Hrow. destruct Hrow as (e & trials & He & ->).
    exists e, trials. split; [|done]. eapply lookup_weaken; eauto.
  - destruct (build_nonlearning_plan_cage_packs_ok set_order set_order_perm
                animal_data exit_arm_map Hroster Hcov)
      as (ordered & per & Hb & cage_sequence & Hperm & Hord & Hok & Hcovd).
    rewrite Hb. cbn [rbind ok].
    destruct (day_rows_ok frames false n_trials exit_arm_map per ordered g Hframes)
      as (rows & g' & Hrows & Hfor).
    { intros a Ha.
      assert (a ∈ animal_data) as Ha'.
      { rewrite Hord in Ha. apply elem_of_concat in Ha as (l & Ha & Hl).
        apply list_elem_of_fmap in Hl as (c & -> & _).
        by apply list_elem_of_filter in Ha as [_ Ha]. }
      destruct (Hcovd a Ha') as [e He].
      split; [|by apply Hcov]. exists e. split; [done|]. by apply (Hok _ _ He). }
    rewrite Hrows. cbn [rbind ok]. eexists _, _. split; [reflexivity|].
    simpl. split; [done|]. split; [done|]. split; [done|]. eauto.
Qed.

Lemma day_table_raises (d : Z) (g : Random.state) (e : exn) :
  day_table set_order frames animal_data learning_days n_trials exit_arm_map d g = inl e →
  e = RecursionError.
Proof.
  unfold day_table.
  pose proof (exit_arms_ok_covered _ _ Harms) as Hcov.
  destruct (d <? learning_days) eqn:Hd.
  - destruct (learning_exits_ok animal_data exit_arm_map ∅ Hcov)
      as (per & Hper & Hsub & _ & Hall); [apply map_empty_subseteq|].
    rewrite Hper. cbn [rbind ok].
    destruct (day_rows frames true n_trials exit_arm_map per animal_data g)
      as [e'|[rs g']] eqn:Hrows; cbn [rbind ok]; [|done].
    intros [= <-]. eapply day_rows_raises; [|exact Hrows].
    intros a Ha. destruct (Harms a Ha) as (arm & Harm & Hisarm).
    split; [|eauto]. exists arm. by rewrite Hall.
  - destruct (build_nonlearning_plan_cage_packs_ok set_order set_order_perm
                animal_data exit_arm_map Hroster Hcov)
      as (ordered & per & Hb & cage_sequence & Hperm & Hord & Hok & Hcovd).
    rewrite Hb. cbn [rbind ok].
    destruct (day_rows frames false n_trials exit_arm_map per ordered g)
      as [e'|[rs g']] eqn:Hrows; cbn [rbind ok]; [|done].
    intros [= <-]. eapply day_rows_raises; [|exact Hrows].
    intros a Ha.
    assert (a ∈ animal_data) as Ha'.
    { rewrite Hord in Ha. apply elem_of_concat in Ha as (l & Ha & Hl).
      apply list_elem_of_fmap in Hl as (c & -> & _).
      by apply list_elem_of_filter in Ha as [_ Ha]. }
    destruct (Hcovd a Ha') as [ea He].
    split; [|by apply Hcov]. exists ea. split; [done|]. by apply (Hok _ _ He).
Qed.

Lemma day_tables_for_raises (days : list Z) (g : Random.state) (e : exn) :
  day_tables_for set_order frames animal_data learning_days n_trials exit_arm_map days g
  = inl e →
  e = RecursionError.
Proof.
  revert g. induction days as [|d days IH]; intros g; [done|].
  cbn [day_tables_for].
  destruct (day_table set_order frames animal_data learning_days n_trials exit_arm_map d g)
    as [e'|[t g1]] eqn:Ht; cbn [rbind ok].
  - intros [= <-]. by eapply day_table_raises.
  - destruct (day_tables_for set_order frames animal_data learning_days n_trials
                exit_arm_map days g1) as [e'|[ts g2]] eqn:Hts; cbn [rbind ok]; [|done].
    intros [= <-]. by eapply IH.
Qed.

Lemma generate_day_tables_raises (reversal_days : Z) (g : Random.state) (e : exn) :
  generate_day_tables set_order frames animal_data learning_days reversal_days n_trials
    exit_arm_map g = inl e →
  e = RecursionError.
Proof.
  unfold generate_day_tables.
  destruct (learning_days + reversal_days <=? 0); [done|].
  apply day_tables_for_raises.
Qed.

Lemma day_tables_for_ok (days : list Z) (g : Random.state) :
  ∃ tables g',
    day_tables_for set_order frames animal_data learning_days n_trials exit_arm_map days g
    = ok (tables, g')
    ∧ Forall2 table_spec days tables.
Proof.
  revert g. induction days as [|d days IH]; intros g.
  - exists [], g. split; [done|constructor].
  - destruct (day_table_ok d g) as (t & g1 & Ht & Hspec).
    destruct (IH g1) as (tables & g2 & Hts & Hspecs).
    exists (t :: tables), g2. cbn [day_tables_for]. rewrite Ht. cbn [rbind ok].
    rewrite Hts. cbn [rbind ok]. split; [done|]. by constructor.
Qed.

Lemma generate_day_tables_ok (reversal_days : Z) (g : Random.state) :
  ∃ tables g',
    generate_day_tables set_order frames animal_data learning_days reversal_days n_trials
      exit_arm_map g = ok (tables, g')
    ∧ Forall2 table_spec (range (learning_days + reversal_days)) tables.
Proof.
  unfold generate_day_tables.
  destruct (Z.leb_spec (learning_days + reversal_days) 0) as [Hle|Hgt].
  - exists [], g. split; [done|].
    unfold range. replace (Z.to_nat (learning_days + reversal_days)) with 0%nat by lia.
    constructor.
  - apply day_tables_for_ok.
Qed.

End DayTables.

Lemma range_lookup (n : Z) (i : nat) (d : Z) :
  range n !! i = Some d → d = Z.of_nat i.
Proof.
  unfold range. intros H.
  change (map Z.of_nat (seq 0 (Z.to_nat n))) with (Z.of_nat <$> seq 0 (Z.to_nat n)) in H.
  rewrite list_lookup_fmap in H.
  destruct (seq 0 (Z.to_nat n) !! i) as [j|] eqn:E; [|done].
  apply lookup_seq in E as [-> _]. simpl in H. by injection H as <-.
Qed.

Lemma range_length (n : Z) : length (range n) = Z.to_nat n.
Proof. unfold range. by rewrite length_map, length_seq. Qed.

(** the rows of a reversal day: every animal of the roster once, with
    an exit arm of 1, 2, 3 that is not its learning exit arm *)
Definition reversal_rows_ok (animal_data : list Animal) (exit_arm_map : gmap string Z)
    (t : DayTable) : Prop :=
  ∃ ordered_animals,
    ordered_animals ≡ₚ animal_data
    ∧ Forall2 (fun a row =>
                 ∃ exit_arm trials,
                   row = identity_cells a exit_arm ++ map CInt trials
                   ∧ is_arm exit_arm
                   ∧ exit_arm_map !! AnimalID a ≠ Some exit_arm)
              ordered_animals (rows t).

Definition day_tables_spec (animal_data : list Animal) (exit_arm_map : gmap string Z)
    (learning_days reversal_days : Z) (tables : list DayTable) : Prop :=
  length tables = Z.to_nat (learning_days + reversal_days)
  ∧ ∀ (i : nat) t, tables !! i = Some t →
      day t = Z.of_nat i + 1
      ∧ type t = (if Z.of_nat i <? learning_days then "Learning" else "Reversal")
      ∧ (type t = "Reversal" → reversal_rows_ok animal_data exit_arm_map t).

(** C3: on every reversal day of the tables that [generate_day_tables]
    returns, every animal of the roster has a row, and the ExitArm of
    the row differs from the learning exit arm of the animal.  The
    tables are returned when the interpreter has more frames left for
    the search of a trial sequence than a day has trials. *)
Theorem reversal_exit_differs (set_order : list string → list string)
    (frames : nat)
    (animal_data : list Animal) (learning_days reversal_days n_trials : Z)
    (exit_arm_map : gmap string Z) (g : Random.state) :
  (∀ l, NoDup l → set_order l ≡ₚ l) →
  animal_data ≠ [] → exit_arms_ok animal_data exit_arm_map →
  (Z.to_nat n_trials < frames)%nat →
  ∃ tables g',
    generate_day_tables set_order frames animal_data learning_days reversal_days n_trials
      exit_arm_map g = ok (tables, g')
    ∧ day_tables_spec animal_data exit_arm_map learning_days reversal_days tables.
Proof.
  intros Hset Hne Harms Hfr.
  destruct (generate_day_tables_ok set_order frames Hset animal_data exit_arm_map
              learning_days n_trials Hne Harms Hfr reversal_days g)
    as (tables & g' & Hgen & Hspec).
  exists tables, g'. split; [done|]. split.
  - apply Forall2_length in Hspec. by rewrite <- Hspec, range_length.
  - intros i t Hi.
    destruct (Forall2_lookup_r _ _ _ _ _ Hspec Hi) as (d & Hd & Hday & _ & Hrows).
    apply range_lookup in Hd as ->.
    split; [done|].
    destruct (Z.of_nat i <? learning_days).
    + destruct Hrows as [-> _]. split; [done|]. done.
    + destruct Hrows as (-> & ordered & per & Hb & Hfor). split; [done|]. intros _.
      destruct (build_nonlearning_plan_cage_packs_ok set_order Hset animal_data
                  exit_arm_map Hne (exit_arms_ok_covered _ _ Harms))
        as (ordered' & per' & Hb' & Hpacks).
      rewrite Hb in Hb'. injection Hb' as <- <-.
      pose proof (cage_packs_spec_order _ _ _ _ Hpacks) as [Hperm _].
      destruct Hpacks as (_ & _ & _ & Hok & _).
      exists ordered. split; [done|].
      eapply Forall2_impl; [exact Hfor|].
      intros a row (e & trials & He & ->). exists e, trials.
      split; [done|]. by apply (Hok _ _ He).
Qed.

Lemma exit_arms_ok_roster6 : exit_arms_ok roster6 exits6.
Proof.
  intros a Ha. unfold roster6 in Ha.
  repeat (apply elem_of_cons in Ha as [->|Ha];
          [eexists; split; [reflexivity|unfold is_arm; lia]|]).
  by apply elem_of_nil in Ha.
Defined.

Lemma reversal_exit_differs_witness :
  ∃ tables g',
    generate_day_tables (fun l => l) 10 roster6 1 2 3 exits6 (fun i => N.of_nat i)
    = ok (tables, g')
    ∧ day_tables_spec roster6 exits6 1 2 tables.
Proof.
  apply reversal_exit_differs; [done|done|exact exit_arms_ok_roster6|lia].
Defined.

(** the identity and ExitArm columns that the plan of the optimizer
    gives *)
Definition plan_columns (ordered_animals : list Animal)
    (per_animal_exit : gmap string Z) : list (list cell) :=
  map (fun a => identity_cells a (default 0 (per_animal_exit !! AnimalID a)))
      ordered_animals.

Lemma row_for_columns (per_animal_exit : gmap string Z)
    (ordered_animals : list Animal) (rows : list (list cell)) :
  Forall2 (row_for per_animal_exit) ordered_animals rows →
  map (take 6) rows = plan_columns ordered_animals per_animal_exit.
Proof.
  induction 1 as [|a row l rows (e & trials & He & ->) _ IH]; [done|].
  unfold plan_columns in *. simpl. rewrite IH, He. done.
Qed.

(** all reversal days of a schedule have the order and the exit arms
    of the one plan of the optimizer *)
Definition reversal_days_fixed (set_order : list string → list string)
    (animal_data : list Animal) (exit_arm_map : gmap string Z)
    (tables : list DayTable) : Prop :=
  ∃ ordered_animals per_animal_exit,
    build_nonlearning_plan_cage_packs set_order animal_data exit_arm_map
    = ok (ordered_animals, per_animal_exit)
    ∧ (∀ t, t ∈ tables → type t = "Reversal" →
         Forall2 (row_for per_animal_exit) ordered_animals (rows t)
         ∧ map (take 6) (rows t) = plan_columns ordered_animals per_animal_exit)
    ∧ ∀ t1 t2, t1 ∈ tables → t2 ∈ tables →
        type t1 = "Reversal" → type t2 = "Reversal" →
        map (take 6) (rows t1) = map (take 6) (rows t2).

(** C10: [build_nonlearning_plan_cage_packs] takes no generator state:
    its result is a function of the roster and of the learning-exit map
    (and of the iteration order of the sets of the process).  So all
    reversal days of one schedule have the same order of animals and the
    same exit arms; the rows differ in the trial columns only.  The
    schedule is returned when the interpreter has more frames left for
    the search of a trial sequence than a day has trials. *)
Theorem reversal_days_identical (set_order : list string → list string)
    (frames : nat)
    (animal_data : list Animal) (learning_days reversal_days n_trials : Z)
    (exit_arm_map : gmap string Z) (g : Random.state) :
  (∀ l, NoDup l → set_order l ≡ₚ l) →
  animal_data ≠ [] → exit_arms_ok animal_data exit_arm_map →
  (Z.to_nat n_trials < frames)%nat →
  ∃ tables g',
    generate_day_tables set_order frames animal_data learning_days reversal_days n_trials
      exit_arm_map g = ok (tables, g')
    ∧ reversal_days_fixed set_order animal_data exit_arm_map tables.
Proof.
  intros Hset Hne Harms Hfr.
  destruct (generate_day_tables_ok set_order frames Hset animal_data exit_arm_map
              learning_days n_trials Hne Harms Hfr reversal_days g)
    as (tables & g' & Hgen & Hspec).
  destruct (build_nonlearning_plan_cage_packs_ok set_order Hset animal_data
              exit_arm_map Hne (exit_arms_ok_covered _ _ Harms))
    as (ordered & per & Hb & _).
  exists tables, g'. split; [done|]. exists ordered, per. split; [done|].
  assert (∀ t, t ∈ tables → type t = "Reversal" →
            Forall2 (row_for per) ordered (rows t)) as Hrows.
  { intros t Ht Htype. apply list_elem_of_lookup in Ht as [i Hi].
    destruct (Forall2_lookup_r _ _ _ _ _ Hspec Hi) as (d & _ & _ & _ & Hcase).
    destruct (d <? learning_days).
    - destruct Hcase as [Hl _]. rewrite Hl in Htype. discriminate.
    - destruct Hcase as (_ & ordered' & per' & Hb' & Hfor).
      rewrite Hb in Hb'. by injection Hb' as <- <-. }
  split.
  - intros t Ht Htype. split; [by apply Hrows|]. by apply row_for_columns, Hrows.
  - intros t1 t2 Ht1 Ht2 Hty1 Hty2.
    by rewrite (row_for_columns per ordered _ (Hrows t1 Ht1 Hty1)),
               (row_for_columns per ordered _ (Hrows t2 Ht2 Hty2)).
Qed.

Lemma reversal_days_identical_witness :
  ∃ tables g',
    generate_day_tables (fun l => l) 10 roster6 1 2 3 exits6 (fun i => N.of_nat (2 * i))
    = ok (tables, g')
    ∧ reversal_days_fixed (fun l => l) roster6 exits6 tables.
Proof.
  apply reversal_days_identical; [done|done|exact exit_arms_ok_roster6|lia].
Defined.

(** ** The request handler *)

(** the AnimalIDs of the day, in the order of the optimizer *)
Definition day_order (r : result (list Animal * gmap string Z)) : list string :=
  match r with
  | inr (ordered_animals, _) => map AnimalID ordered_animals
  | inl _ => []
  end.

(** The tie-break of the optimizer follows the iteration order of the
    set of cage names: with three cages of one animal each and equal
    plans, two orders of the set give two orders of the day. *)
Example cage_order_follows_set_order :
  let cages3 :=
    [mkAnimal "A1" "t1" "Male" "WT" "C1"; mkAnimal "A2" "t2" "Male" "WT" "C2";
     mkAnimal "A3" "t3" "Male" "WT" "C3"] in
  let exits := <["A1" := 1]> (<["A2" := 1]> (<["A3" := 1]> (∅ : gmap string Z))) in
  day_order (build_nonlearning_plan_cage_packs (fun l => l) cages3 exits)
  = ["A1"; "A2"; "A3"]
  ∧ day_order (build_nonlearning_plan_cage_packs (@rev string) cages3 exits)
    = ["A1"; "A3"; "A2"].
Proof. split; reflexivity. Qed.

(** a generator seeded from [s] *)
Definition seed_tape (s : Z) : Random.state :=
  fun i => (Z.to_N s + 7 * N.of_nat i)%N.

(** A seeded call does not read the state that the generator had
    before it: in one process, where the sets iterate in one order and
    the example file is the same, the response is a function of the
    request. *)
Lemma generate_schedule_reseeds (set_order : list string → list string)
    (frames : nat) (seed_state : Z → Random.state) (path : string)
    (example_file : option (result (list Animal)))
    (request : ScheduleRequest) (s : Z) (g1 g2 : Random.state) :
  seed request = Some s →
  generate_schedule set_order frames seed_state path example_file request g1
  = generate_schedule set_order frames seed_state path example_file request g2.
Proof.
  intros Hs. unfold generate_schedule, generate_schedule_body. by rewrite Hs.
Qed.

(** the exit arms of a response, as a list *)
Definition response_exits (r : result (ScheduleResponse * Random.state))
  : list (string * Z) :=
  match r with
  | inr (response, _) => map_to_list (exit_arm_map response)
  | inl _ => []
  end.

(** the AnimalIDs of the rows of a response, day by day *)
Definition response_orders (r : result (ScheduleResponse * Random.state))
  : list (list cell) :=
  match r with
  | inr (response, _) => map (fun t => omap head (rows t)) (day_tables response)
  | inl _ => []
  end.

(** four animals, each in a cage of its own *)
Definition cages4 : list Animal :=
  [mkAnimal "A1" "t1" "Male" "WT" "C1"; mkAnimal "A2" "t2" "Male" "WT" "C2";
   mkAnimal "A3" "t3" "Female" "KO" "C3"; mkAnimal "A4" "t4" "Female" "KO" "C4"].

(** one learning day, one reversal day, two trials a day, seed 42 *)
Definition seeded_request : ScheduleRequest :=
  mkRequest cages4 1 1 2 (Some 42) false.

(** the draws of the generator of CPython after [random.seed(42)], as
    far as the call below consumes them: eleven calls of [_randbelow]
    with these outcomes, three for the shuffle of the four groups and
    one for the shuffle of the pool of each of the eight rows *)
Definition draws_42 : Random.state :=
  fun i => nth i [0; 0; 1; 0; 0; 0; 0; 0; 1; 0; 0]%N 0%N.

(** the iteration order of a set of cage names in a process whose
    string hashes order the names as [order] *)
Definition hash_order (order names : list string) : list string :=
  filter (fun c => c ∈ names) order.

(** C6: the seed does not fix the response.  The handler reseeds the
    generator, but the optimizer breaks the ties between cages by
    iterating over a set of cage names, and the order of that iteration
    follows the string hashes of the process, which the seed does not
    set.  The same seeded request, answered by two processes that
    iterate the set {C1, C2, C3, C4} as C2, C4, C1, C3 and as C4, C1, C3,
    C2 (CPython 3.11 with PYTHONHASHSEED=0 and with PYTHONHASHSEED=2),
    gets the same exit-arm map and the same learning day, and two
    different orders of the animals on the reversal day. *)
Theorem generate_schedule_set_order (g1 g2 : Random.state) :
  response_exits
    (generate_schedule (hash_order ["C2"; "C4"; "C1"; "C3"]) 10 (fun _ => draws_42)
       "example_data/animals.csv" None seeded_request g1)
  = response_exits
      (generate_schedule (hash_order ["C4"; "C1"; "C3"; "C2"]) 10 (fun _ => draws_42)
         "example_data/animals.csv" None seeded_request g2)
  ∧ response_orders
      (generate_schedule (hash_order ["C2"; "C4"; "C1"; "C3"]) 10 (fun _ => draws_42)
         "example_data/animals.csv" None seeded_request g1)
    = [[CStr "A1"; CStr "A2"; CStr "A3"; CStr "A4"];
       [CStr "A1"; CStr "A4"; CStr "A2"; CStr "A3"]]
  ∧ response_orders
      (generate_schedule (hash_order ["C4"; "C1"; "C3"; "C2"]) 10 (fun _ => draws_42)
         "example_data/animals.csv" None seeded_request g2)
    = [[CStr "A1"; CStr "A2"; CStr "A3"; CStr "A4"];
       [CStr "A1"; CStr "A4"; CStr "A3"; CStr "A2"]].
Proof. vm_compute. done. Qed.

(** Without a seed the response depends on the state of the generator. *)
Example generate_schedule_unseeded :
  response_exits (generate_schedule (fun l => l) 10 seed_tape "" None
    (mkRequest roster6 1 0 1 None false) (fun _ => 0%N))
  ≠ response_exits (generate_schedule (fun l => l) 10 seed_tape "" None
      (mkRequest roster6 1 0 1 None false) (fun i => N.of_nat (7 * i + 3))).
Proof. vm_compute. intros H. discriminate H. Qed.

(** the number of animals a call schedules; 0 when it is rejected *)
Definition scheduled_animals (r : result (ScheduleResponse * Random.state)) : nat :=
  match r with
  | inr (response, _) => size (exit_arm_map response)
  | inl _ => 0%nat
  end.

(** C7, as stated, fails: a call with an empty animal list is not
    rejected when the example file is there; its four animals are
    scheduled instead. *)
Lemma empty_roster_not_rejected :
  scheduled_animals
    (generate_schedule (fun l => l) 10 seed_tape "example_data/animals.csv"
       (Some (ok roster4)) (mkRequest [] 1 1 2 None false) (fun _ => 0%N)) = 4%nat.
Proof. vm_compute. reflexivity. Qed.

(** C8, as stated, fails: a request with learning_days = 0 is rejected
    by the request model, not answered with an empty sequence. *)
Lemma learning_days_zero_rejected :
  post_generate_schedule (fun l => l) 10 seed_tape "example_data/animals.csv" None
    (mkRequest roster4 0 0 2 None false) (fun _ => 0%N)
  = raise ValidationError.
Proof. reflexivity. Qed.

(** C8, amended: the request model rejects learning_days <= 0 (and
    reversal_days < 0, and trials_per_day <= 0), so a request with
    learning_days + reversal_days = 0 does not reach the handler;
    [generate_day_tables] itself returns the empty sequence whenever
    learning_days + reversal_days <= 0, and draws nothing. *)
Theorem no_days_no_tables (set_order : list string → list string)
    (frames : nat) (seed_state : Z → Random.state) (path : string)
    (example_file : option (result (list Animal)))
    (request : ScheduleRequest) (animal_data : list Animal)
    (learning_days' reversal_days' n_trials : Z) (exit_arm_map' : gmap string Z)
    (g : Random.state) :
  (learning_days request ≤ 0 ∨ reversal_days request < 0
   ∨ trials_per_day request ≤ 0 →
   post_generate_schedule set_order frames seed_state path example_file request g
   = raise ValidationError)
  ∧ (learning_days' + reversal_days' ≤ 0 →
     generate_day_tables set_order frames animal_data learning_days' reversal_days'
       n_trials exit_arm_map' g = ok ([], g)).
Proof.
  split.
  - intros H. unfold post_generate_schedule, validate.
    destruct (Z.ltb_spec 0 (learning_days request)); [|done].
    destruct (Z.leb_spec 0 (reversal_days request)); [|done].
    destruct (Z.ltb_spec 0 (trials_per_day request)); [lia|done].
  - intros H. unfold generate_day_tables.
    destruct (Z.leb_spec (learning_days' + reversal_days') 0); [done|lia].
Qed.

Lemma no_days_no_tables_witness :
  post_generate_schedule (fun l => l) 10 seed_tape "example_data/animals.csv" None
    (mkRequest roster4 0 0 2 None false) (fun _ => 0%N)
  = raise ValidationError
  ∧ generate_day_tables (fun l => l) 10 roster4 0 0 2 ∅ (fun _ => 0%N)
    = ok ([], fun _ => 0%N).
Proof.
  destruct (no_days_no_tables (fun l => l) 10 seed_tape "example_data/animals.csv"
              None (mkRequest roster4 0 0 2 None false) roster4 0 0 2 ∅
              (fun _ => 0%N))
    as [Hreject Hempty].
  split; [apply Hreject; simpl; lia|apply Hempty; lia].
Defined.

(** * Further properties of the engine *)

(** ** The per-cage plan: errors, fields and bounds *)

Lemma allowed_of_missing (cage_animals : list Animal) (learning_exit_map : gmap string Z) :
  (∃ a, a ∈ cage_animals ∧ learning_exit_map !! AnimalID a = None) →
  allowed_of cage_animals learning_exit_map = raise KeyError.
Proof.
  induction cage_animals as [|b rest IH]; intros (a & Ha & Hnone).
  - by apply elem_of_nil in Ha.
  - cbn [allowed_of].
    destruct (learning_exit_map !! AnimalID b) as [forbid|] eqn:Hb; [|done].
    apply elem_of_cons in Ha as [->|Ha]; [congruence|].
    rewrite IH by eauto. done.
Qed.

Lemma covered_or_missing (animals : list Animal) (learning_exit_map : gmap string Z) :
  covered animals learning_exit_map
  ∨ ∃ a, a ∈ animals ∧ learning_exit_map !! AnimalID a = None.
Proof.
  induction animals as [|b rest [IH|(a & Ha & Hnone)]].
  - left. intros a Ha. by apply elem_of_nil in Ha.
  - destruct (learning_exit_map !! AnimalID b) as [arm|] eqn:Hb.
    + left. intros a Ha. apply elem_of_cons in Ha as [->|Ha]; [eauto|by apply IH].
    + right. exists b. split; [by left|done].
  - right. exists a. split; [by right|done].
Qed.

Lemma plan_cage_dp_missing (cage_animals : list Animal) (prev_arm : option Z)
    (learning_exit_map : gmap string Z) :
  (∃ a, a ∈ cage_animals ∧ learning_exit_map !! AnimalID a = None) →
  plan_cage_dp cage_animals prev_arm learning_exit_map = raise KeyError.
Proof.
  intros Hmiss. pose proof (allowed_of_missing _ _ Hmiss) as Hal.
  destruct cage_animals as [|a0 rest].
  - destruct Hmiss as (a & Ha & _). by apply elem_of_nil in Ha.
  - unfold plan_cage_dp. by rewrite Hal.
Qed.

(** X1: [plan_cage_dp] fails only with a [KeyError], and exactly when an
    animal of the cage has no entry in the learning-exit map. *)
Theorem plan_cage_dp_error (cage_animals : list Animal) (prev_arm : option Z)
    (learning_exit_map : gmap string Z) (e : exn) :
  plan_cage_dp cage_animals prev_arm learning_exit_map = raise e
  ↔ e = KeyError
    ∧ ∃ a, a ∈ cage_animals ∧ learning_exit_map !! AnimalID a = None.
Proof.
  split.
  - intros Hfail.
    destruct (covered_or_missing cage_animals learning_exit_map) as [Hcov|Hmiss].
    + destruct (decide (cage_animals = [])) as [->|Hne]; [done|].
      destruct (plan_cage_dp_ok cage_animals prev_arm learning_exit_map Hne Hcov)
        as (plan & allowed & Hplan & _).
      rewrite Hplan in Hfail. done.
    + split; [|done].
      rewrite (plan_cage_dp_missing _ prev_arm _ Hmiss) in Hfail.
      by injection Hfail as <-.
  - intros [-> Hmiss]. by apply plan_cage_dp_missing.
Qed.

Lemma switch_range (c c_prev : Z) : 0 ≤ switch c c_prev ≤ 1.
Proof. unfold switch. destruct (c =? c_prev); lia. Qed.

Lemma boundary_range (prev_arm : option Z) (c : Z) : 0 ≤ boundary prev_arm c ≤ 1.
Proof. destruct prev_arm; simpl; [apply switch_range|lia]. Qed.

Lemma switches_cons (a b : Z) (t : list Z) :
  switches (a :: b :: t) = switch b a + switches (b :: t).
Proof. reflexivity. Qed.

Lemma switches_range (s : list Z) :
  0 ≤ switches s ≤ Z.of_nat (length s) - 1 ∨ s = [].
Proof.
  induction s as [|a [|b t] IH]; [by right|left; simpl; lia|].
  left. rewrite switches_cons. pose proof (switch_range b a).
  destruct IH as [IH|IH]; [|done]. simpl length in *. lia.
Qed.

Lemma switch_cost_prev (prev_arm : option Z) (s : list Z) :
  switch_cost None s ≤ switch_cost prev_arm s ≤ switch_cost None s + 1.
Proof.
  unfold switch_cost. destruct s as [|c t]; [lia|].
  pose proof (boundary_range prev_arm c). change (boundary None c) with 0. lia.
Qed.

(** the fields of a plan and the range of its cost *)
Definition plan_fields_spec (cage_animals : list Animal) (prev_arm : option Z)
    (plan : CagePlan) : Prop :=
  end_arm plan = last (colors plan)
  ∧ first plan = head (colors plan)
  ∧ 0 ≤ cost plan
  ∧ cost plan ≤ Z.of_nat (length cage_animals) - 1
                + match prev_arm with Some _ => 1 | None => 0 end.

(** X2: For a non-empty cage, 'end' is the last color of the plan and
    'first' its first color; the cost is at least 0 and at most the
    number of animals minus 1, plus 1 when an incoming arm is given. *)
Theorem plan_cage_dp_fields (cage_animals : list Animal) (prev_arm : option Z)
    (learning_exit_map : gmap string Z) (plan : CagePlan) :
  cage_animals ≠ [] →
  plan_cage_dp cage_animals prev_arm learning_exit_map = ok plan →
  plan_fields_spec cage_animals prev_arm plan.
Proof.
  intros Hne Hplan.
  destruct (covered_or_missing cage_animals learning_exit_map) as [Hcov|Hmiss].
  - destruct (plan_cage_dp_ok cage_animals prev_arm learning_exit_map Hne Hcov)
      as (plan' & allowed & Hplan' & Hal & Hadm & Hcost & _ & Hend & Hfirst).
    rewrite Hplan in Hplan'. injection Hplan' as <-.
    destruct (allowed_of_spec _ _ Hcov) as (allowed' & Hal' & Hall).
    rewrite Hal in Hal'. injection Hal' as <-.
    assert (length (colors plan) = length cage_animals) as Hlen.
    { apply Forall2_length in Hadm, Hall. lia. }
    split; [done|]. split; [done|]. rewrite Hcost.
    unfold switch_cost.
    destruct (colors plan) as [|c t] eqn:Ec; [by destruct cage_animals|].
    pose proof (boundary_range prev_arm c) as Hb.
    destruct (switches_range (c :: t)) as [Hs|Hs]; [|done].
    rewrite <- Hlen.
    assert (boundary prev_arm c ≤ match prev_arm with Some _ => 1 | None => 0 end) as Hb'.
    { destruct prev_arm; simpl in *; lia. }
    lia.
  - pose proof (plan_cage_dp_missing _ prev_arm _ Hmiss) as H.
    rewrite H in Hplan. done.
Qed.

Lemma plan_cage_dp_fields_witness :
  plan_fields_spec cage3 (Some 1)
    {| cost := 2; end_arm := Some 1; first := Some 2; colors := [2; 1; 1] |}.
Proof.
  apply (plan_cage_dp_fields cage3 (Some 1) exits3); [done|reflexivity].
Defined.

(** X3: An incoming arm costs at most one switch more than none. *)
Theorem plan_cage_dp_incoming_arm (cage_animals : list Animal) (s : Z)
    (learning_exit_map : gmap string Z) (plan_none plan_s : CagePlan) :
  cage_animals ≠ [] →
  plan_cage_dp cage_animals None learning_exit_map = ok plan_none →
  plan_cage_dp cage_animals (Some s) learning_exit_map = ok plan_s →
  cost plan_none ≤ cost plan_s ≤ cost plan_none + 1.
Proof.
  intros Hne Hn Hs.
  destruct (covered_or_missing cage_animals learning_exit_map) as [Hcov|Hmiss].
  - destruct (plan_cage_dp_ok cage_animals None learning_exit_map Hne Hcov)
      as (pn & allowed & Hpn & Hal & Hadm_n & Hcost_n & Hopt_n & _).
    destruct (plan_cage_dp_ok cage_animals (Some s) learning_exit_map Hne Hcov)
      as (ps & allowed' & Hps & Hal' & Hadm_s & Hcost_s & Hopt_s & _).
    rewrite Hal in Hal'. injection Hal' as <-.
    rewrite Hn in Hpn. injection Hpn as <-.
    rewrite Hs in Hps. injection Hps as <-.
    pose proof (Hopt_n _ Hadm_s) as H1. pose proof (Hopt_s _ Hadm_n) as H2.
    pose proof (switch_cost_prev (Some s) (colors plan_s)).
    pose proof (switch_cost_prev (Some s) (colors plan_none)).
    lia.
  - pose proof (plan_cage_dp_missing _ None _ Hmiss) as H.
    rewrite H in Hn. done.
Qed.

Lemma plan_cage_dp_incoming_arm_witness :
  cost {| cost := 1; end_arm := Some 1; first := Some 2; colors := [2; 1; 1] |}
  ≤ cost {| cost := 2; end_arm := Some 1; first := Some 2; colors := [2; 1; 1] |}
  ≤ cost {| cost := 1; end_arm := Some 1; first := Some 2; colors := [2; 1; 1] |} + 1.
Proof.
  apply (plan_cage_dp_incoming_arm cage3 1 exits3); [done|reflexivity|reflexivity].
Defined.

Lemma switches_zero (s : list Z) (c : Z) :
  switches (c :: s) = 0 → ∀ x, x ∈ c :: s → x = c.
Proof.
  revert c. induction s as [|b t IH]; intros c H x Hx.
  - by apply list_elem_of_singleton in Hx.
  - rewrite switches_cons in H.
    pose proof (switch_range b c).
    destruct (switches_range (b :: t)) as [Hr|Hr]; [|done].
    assert (switch b c = 0 ∧ switches (b :: t) = 0) as [Hbc Ht] by lia.
    unfold switch in Hbc. destruct (Z.eqb_spec b c) as [->|]; [|lia].
    apply elem_of_cons in Hx as [->|Hx]; [done|]. by apply IH.
Qed.

Lemma switches_repeat (c : Z) (n : nat) : switches (repeat c n) = 0.
Proof.
  induction n as [|[|n] IH]; try done.
  change (repeat c (S (S n))) with (c :: c :: repeat c n).
  rewrite switches_cons. change (c :: repeat c n) with (repeat c (S n)).
  rewrite IH. unfold switch. by rewrite Z.eqb_refl.
Qed.

(** X4: Without an incoming arm, the cage needs no switch exactly when one
    arm of 1, 2, 3 is the learning exit arm of none of its animals. *)
Theorem plan_cage_dp_no_switch (cage_animals : list Animal)
    (learning_exit_map : gmap string Z) (plan : CagePlan) :
  cage_animals ≠ [] →
  plan_cage_dp cage_animals None learning_exit_map = ok plan →
  cost plan = 0
  ↔ ∃ c, is_arm c ∧ ∀ a, a ∈ cage_animals → learning_exit_map !! AnimalID a ≠ Some c.
Proof.
  intros Hne Hplan.
  destruct (covered_or_missing cage_animals learning_exit_map) as [Hcov|Hmiss].
  2:{ pose proof (plan_cage_dp_missing _ None _ Hmiss) as H.
      rewrite H in Hplan. done. }
  destruct (plan_cage_dp_ok cage_animals None learning_exit_map Hne Hcov)
    as (plan' & allowed & Hplan' & Hal & Hadm & Hcost & Hopt & _).
  rewrite Hplan in Hplan'. injection Hplan' as <-.
  destruct (allowed_of_spec _ _ Hcov) as (allowed' & Hal' & Hall).
  rewrite Hal in Hal'. injection Hal' as <-.
  pose proof (proj1 (allowed_avoids _ _ _ _ Hall) Hadm) as Hav.
  split.
  - intros Hzero. rewrite Hcost in Hzero. unfold switch_cost in Hzero.
    destruct (colors plan) as [|c t] eqn:Ec.
    { apply Forall2_length in Hav. by destruct cage_animals. }
    change (boundary None c) with 0 in Hzero.
    pose proof (switches_zero t c ltac:(lia)) as Hconst.
    exists c. split.
    + inversion Hav as [|? ? ? ? [Harm _]]; by subst.
    + intros a Ha.
      apply list_elem_of_lookup in Ha as [i Hi].
      destruct (Forall2_lookup_l _ _ _ _ _ Hav Hi) as (x & Hx & _ & Hne').
      apply list_elem_of_lookup_2 in Hx. by rewrite (Hconst x Hx) in Hne'.
  - intros (c & Harm & Hfree).
    assert (avoids_learning_exit cage_animals learning_exit_map
              (repeat c (length cage_animals))) as Hrep.
    { clear -Harm Hfree. unfold avoids_learning_exit.
      induction cage_animals as [|a l IH]; [constructor|].
      simpl. constructor.
      - split; [done|]. apply Hfree. by left.
      - apply IH. intros b Hb. apply Hfree. by right. }
    pose proof (Hopt _ (proj2 (allowed_avoids _ _ _ _ Hall) Hrep)) as Hle.
    unfold switch_cost in Hle. rewrite switches_repeat in Hle.
    assert (0 ≤ cost plan).
    { rewrite Hcost. unfold switch_cost.
      destruct (colors plan) as [|x t]; [simpl; lia|].
      change (boundary None x) with 0.
      destruct (switches_range (x :: t)) as [?|?]; [lia|done]. }
    destruct (repeat c (length cage_animals)); change (boundary None ?x) with 0 in Hle; lia.
Qed.

Lemma plan_cage_dp_no_switch_witness :
  cost {| cost := 0; end_arm := Some 3; first := Some 3; colors := [3; 3] |} = 0
  ↔ ∃ c, is_arm c
         ∧ ∀ a, a ∈ take 2 cage3 → exits3 !! AnimalID a ≠ Some c.
Proof.
  apply (plan_cage_dp_no_switch (take 2 cage3) exits3); [done|reflexivity].
Defined.

(** ** The cages of a roster *)

(** the distinct elements of a list, in order of first appearance *)
Fixpoint first_seen (l : list string) : list string :=
  match l with
  | [] => []
  | x :: l' => x :: filter (fun y => y ≠ x) (first_seen l')
  end.

Lemma first_seen_elem (l : list string) (x : string) : x ∈ first_seen l ↔ x ∈ l.
Proof.
  induction l as [|y l IH]; [done|]. simpl.
  rewrite !elem_of_cons, list_elem_of_filter, IH.
  destruct (decide (x = y)) as [->|Hne]; [split; by left|].
  split; [intros [?|[_ ?]]; [done|by right]|intros [?|?]; [done|by right]].
Qed.

Lemma dict_append_fold_keys (l : list Animal) (d : list (string * list Animal)) :
  (fold_left (fun cages a => dict_append (Cage a) a cages) l d).*1
  = d.*1 ++ filter (fun c => c ∉ d.*1) (first_seen (Cage <$> l)).
Proof.
  revert d. induction l as [|a l IH]; intros d.
  - simpl. by rewrite filter_nil, app_nil_r.
  - cbn [fold_left]. rewrite IH, dict_append_keys, fmap_cons.
    cbn [first_seen]. rewrite filter_cons.
    destruct (decide (Cage a ∈ d.*1)) as [Hin|Hnin].
    + rewrite decide_False by (intros H; by apply H).
      f_equal. rewrite list_filter_filter. apply list_filter_iff.
      intros c. split; [|by intros [? _]]. intros Hc. split; [done|]. by intros ->.
    + rewrite decide_True by done. rewrite <- app_assoc. simpl. do 2 f_equal.
      rewrite list_filter_filter. apply list_filter_iff.
      intros c. rewrite elem_of_app, list_elem_of_singleton. tauto.
Qed.

Lemma dict_get_NoDup {K V : Type} `{EqDecision K} (k : K) (v : V) (d : list (K * V)) :
  NoDup d.*1 → (k, v) ∈ d → dict_get k d = Some v.
Proof.
  induction d as [|[k' v'] d IH]; intros Hnd Hin; [by apply elem_of_nil in Hin|].
  rewrite fmap_cons in Hnd. apply NoDup_cons in Hnd as [Hk' Hnd]. simpl.
  apply elem_of_cons in Hin as [[= -> ->]|Hin].
  - by rewrite decide_True.
  - rewrite decide_False; [by apply IH|].
    intros ->. apply Hk'. apply list_elem_of_fmap. by exists (k', v).
Qed.

Lemma dict_by_keys {K V : Type} (F : K → V) (d : list (K * V)) :
  (∀ k v, (k, v) ∈ d → v = F k) → d = (fun k => (k, F k)) <$> d.*1.
Proof.
  induction d as [|[k v] d IH]; intros H; [done|].
  rewrite !fmap_cons. simpl. f_equal.
  - f_equal. apply H. by left.
  - apply IH. intros k' v' Hin. apply H. by right.
Qed.

(** X5: The cages are the distinct cage names of the roster in order of
    first appearance; each one holds the animals of that cage in the
    order of the roster, and no cage is empty. *)
Theorem group_animals_by_cage_in_order_first_seen (animal_data : list Animal) :
  group_animals_by_cage_in_order animal_data
  = (fun c => (c, cage_of c animal_data)) <$> first_seen (Cage <$> animal_data)
  ∧ ∀ c animals, (c, animals) ∈ group_animals_by_cage_in_order animal_data →
                 animals ≠ [].
Proof.
  pose proof (group_animals_by_cage_in_order_ok animal_data) as Hok.
  assert (∀ c animals, (c, animals) ∈ group_animals_by_cage_in_order animal_data →
            animals = cage_of c animal_data ∧ animals ≠ []) as Hval.
  { intros c animals Hin.
    pose proof (dict_get_NoDup c animals _ (proj1 Hok) Hin) as Hget.
    destruct (cages_ok_lookup animal_data _ c Hok) as [Hget' Hne].
    { apply list_elem_of_fmap. by exists (c, animals). }
    rewrite Hget in Hget'. injection Hget' as ->. done. }
  split.
  - rewrite (dict_by_keys (fun c => cage_of c animal_data)
               (group_animals_by_cage_in_order animal_data)) at 1
      by (intros c animals Hin; by destruct (Hval c animals Hin)).
    f_equal. unfold group_animals_by_cage_in_order.
    rewrite dict_append_fold_keys. simpl.
    induction (first_seen (Cage <$> animal_data)) as [|c l IH]; [done|].
    rewrite filter_cons_True by apply not_elem_of_nil. by rewrite IH.
  - intros c animals Hin. by destruct (Hval c animals Hin).
Qed.

(** ** The balancer on any roster *)

Lemma insert_all_lookup (pairs : list (string * Z)) (m : gmap string Z) (k : string) :
  (k ∈ pairs.*1 → ∃ v, insert_all pairs m !! k = Some v ∧ v ∈ pairs.*2)
  ∧ (k ∉ pairs.*1 → insert_all pairs m !! k = m !! k).
Proof.
  revert m. induction pairs as [|[k' v'] pairs IH]; intros m.
  - split; [intros H; by apply elem_of_nil in H|done].
  - change (insert_all ((k', v') :: pairs) m) with (insert_all pairs (<[k' := v']> m)).
    destruct (IH (<[k' := v']> m)) as [IHin IHout].
    rewrite !fmap_cons. cbn [fst snd].
    destruct (decide (k ∈ pairs.*1)) as [Hin|Hnin].
    + split; [|intros H; exfalso; apply H; by right].
      intros _. destruct (IHin Hin) as (v & Hv & Hv'). exists v. split; [done|by right].
    + split.
      * intros H. apply elem_of_cons in H as [->|H]; [|done].
        exists v'. rewrite (IHout Hnin), lookup_insert_eq. split; [done|by left].
      * intros H. rewrite (IHout Hnin). apply lookup_insert_ne.
        intros ->. apply H. by left.
Qed.

(** the arms handed out by the balancer, in the order of the groups *)
Lemma assign_balanced_exit_arms_arms (animal_data : list Animal) (g : Random.state) :
  ∃ ids arms,
    ids ≡ₚ AnimalID <$> animal_data
    ∧ length arms = length ids
    ∧ Forall is_arm arms
    ∧ (assign_balanced_exit_arms animal_data g).1 = insert_all (zip ids arms) ∅.
Proof.
  unfold assign_balanced_exit_arms.
  pose proof (shuffle_groups_concat (groupings_of animal_data) g) as Hsg.
  destruct (shuffle_groups (groupings_of animal_data) g) as [groups0 g1].
  pose proof (shuffle_Permutation groups0 g1) as Hsh.
  destruct (Random.shuffle groups0 g1) as [groups g2]. simpl in Hsg, Hsh.
  assert (concat groups.*2 ≡ₚ animal_data) as Hall.
  { rewrite Hsh, Hsg. apply groupings_of_concat. }
  set (N := Z.of_nat (length animal_data)).
  destruct (target_of_lookup N) as (Ht1 & Ht2 & Ht3).
  pose proof (Z.mod_pos_bound N 3) as Hmod.
  pose proof (Z.div_mod N 3) as Hdiv.
  destruct (assign_groups_spec groups (target_of N) ∅ g2)
    as (arms & Hmap & Hlen & Harms & _).
  { unfold quota_ok. rewrite Ht1, Ht2, Ht3.
    assert (0 ≤ N / 3) by (apply Z.div_pos; lia).
    repeat case_decide; lia. }
  { unfold quota_sum. rewrite Ht1, Ht2, Ht3, Hall. fold N.
    repeat case_decide; lia. }
  destruct (assign_groups groups (target_of N) ∅ g2) as [[m remaining] g3].
  simpl in *.
  exists (AnimalID <$> concat groups.*2), arms.
  split; [by rewrite Hall|]. split; [by rewrite length_fmap|]. done.
Qed.

Lemma assign_balanced_exit_arms_keys (animal_data : list Animal)
    (g : Random.state) :
  exit_arms_ok animal_data (assign_balanced_exit_arms animal_data g).1.
Proof.
  destruct (assign_balanced_exit_arms_arms animal_data g)
    as (ids & arms & Hids & Hlen & Harms & ->).
  intros a Ha.
  destruct (insert_all_lookup (zip ids arms) ∅ (AnimalID a)) as [Hin _].
  destruct Hin as (arm & Hlook & Harm).
  { rewrite fst_zip by lia. rewrite Hids. by apply list_elem_of_fmap_2. }
  exists arm. split; [done|].
  rewrite snd_zip in Harm by lia. by eapply Forall_forall in Harms.
Qed.

(** X6: Whatever the roster is, also with repeated IDs, the map returned by
    [assign_balanced_exit_arms] has exactly the IDs of the roster as its
    keys, and every animal is given one of the arms 1, 2, 3. *)
Theorem assign_balanced_exit_arms_covers (animal_data : list Animal)
    (g : Random.state) :
  dom (assign_balanced_exit_arms animal_data g).1
  = list_to_set (AnimalID <$> animal_data)
  ∧ exit_arms_ok animal_data (assign_balanced_exit_arms animal_data g).1.
Proof.
  split; [|apply assign_balanced_exit_arms_keys].
  destruct (assign_balanced_exit_arms_arms animal_data g)
    as (ids & arms & Hids & Hlen & Harms & ->).
  rewrite insert_all_dom, fst_zip by lia.
  rewrite dom_empty_L, (right_id_L ∅ (∪)).
  by apply list_to_set_perm_L.
Qed.

(** ** Rotations that fit the quotas *)

(** the sequence asks of no arm more than is left of its quota *)
Definition fits (s : list Z) (remaining : gmap Z Z) : Prop :=
  ∀ a, is_arm a → Counter s a ≤ remaining !!! a.

Lemma score_sequence_over (s : list Z) (remaining : gmap Z Z) :
  0 ≤ (score_sequence s remaining).1
  ∧ ((score_sequence s remaining).1 = 0 ↔ fits s remaining).
Proof.
  unfold score_sequence, fits, is_arm. cbn [fst map foldr].
  split; [lia|]. split.
  - intros H a [->|[->| ->]]; lia.
  - intros H. pose proof (H 1). pose proof (H 2). pose proof (H 3). lia.
Qed.

Lemma score_lt_over (p q : Z * Z) :
  if score_lt p q then p.1 ≤ q.1 else q.1 ≤ p.1.
Proof.
  unfold score_lt, lex_lt.
  destruct (Z.ltb_spec p.1 q.1); [simpl; lia|]. simpl.
  destruct (Z.eqb_spec p.1 q.1); simpl; [destruct (p.2 <? q.2)|]; lia.
Qed.

Lemma best_sequence_min (m : nat) (remaining : gmap Z Z) :
  ∃ o, o ∈ [0; 1; 2]
       ∧ best_sequence m remaining = (o, seq_from_offset m o)
       ∧ ∀ o', o' ∈ [0; 1; 2] →
           (score_sequence (seq_from_offset m o) remaining).1
           ≤ (score_sequence (seq_from_offset m o') remaining).1.
Proof.
  unfold best_sequence. cbn [first_min snd].
  pose proof (score_lt_over (score_sequence (seq_from_offset m 1) remaining)
                (score_sequence (seq_from_offset m 0) remaining)) as H10.
  destruct (score_lt (score_sequence (seq_from_offset m 1) remaining)
              (score_sequence (seq_from_offset m 0) remaining)); cbn [snd].
  - pose proof (score_lt_over (score_sequence (seq_from_offset m 2) remaining)
                  (score_sequence (seq_from_offset m 1) remaining)) as H21.
    destruct (score_lt (score_sequence (seq_from_offset m 2) remaining)
                (score_sequence (seq_from_offset m 1) remaining)); cbn [fst].
    + exists 2. split; [by do 2 right; left|]. split; [done|].
      intros o' Ho'. repeat (apply elem_of_cons in Ho' as [->|Ho']); try lia.
      by apply elem_of_nil in Ho'.
    + exists 1. split; [by right; left|]. split; [done|].
      intros o' Ho'. repeat (apply elem_of_cons in Ho' as [->|Ho']); try lia.
      by apply elem_of_nil in Ho'.
  - pose proof (score_lt_over (score_sequence (seq_from_offset m 2) remaining)
                  (score_sequence (seq_from_offset m 0) remaining)) as H20.
    destruct (score_lt (score_sequence (seq_from_offset m 2) remaining)
                (score_sequence (seq_from_offset m 0) remaining)); cbn [fst].
    + exists 2. split; [by do 2 right; left|]. split; [done|].
      intros o' Ho'. repeat (apply elem_of_cons in Ho' as [->|Ho']); try lia.
      by apply elem_of_nil in Ho'.
    + exists 0. split; [by left|]. split; [done|].
      intros o' Ho'. repeat (apply elem_of_cons in Ho' as [->|Ho']); try lia.
      by apply elem_of_nil in Ho'.
Qed.

Lemma adjust_fits (best_seq adjusted : list Z) (remaining : gmap Z Z)
    (g : Random.state) :
  Forall is_arm best_seq → fits best_seq remaining →
  (adjust best_seq adjusted remaining g).1.1 = adjusted ++ best_seq
  ∧ (adjust best_seq adjusted remaining g).2 = g
  ∧ ∀ a, (adjust best_seq adjusted remaining g).1.2 !!! a
         = remaining !!! a - Counter best_seq a.
Proof.
  intros Harms. revert adjusted remaining.
  induction Harms as [|arm rest Harm _ IH]; intros adjusted remaining Hfit.
  - simpl. rewrite app_nil_r. split; [done|]. split; [done|].
    intros a. unfold Counter. rewrite filter_nil. simpl. lia.
  - cbn [adjust].
    pose proof (Hfit arm Harm) as Hpos. rewrite Counter_cons, decide_True in Hpos by done.
    assert (0 ≤ Counter rest arm) by (unfold Counter; lia).
    destruct (Z.ltb_spec 0 (remaining !!! arm)) as [_|]; [|lia].
    pose proof (quota_update remaining arm Harm) as Hupd. simpl in Hupd.
    destruct (IH (adjusted ++ [arm]) (<[arm := remaining !!! arm - 1]> remaining))
      as (Hseq & Hg & Hrem).
    { intros a Ha. rewrite Hupd. pose proof (Hfit a Ha) as H'.
      rewrite Counter_cons in H'. lia. }
    split; [by rewrite Hseq, <- app_assoc|]. split; [done|].
    intros a. rewrite Hrem, Hupd, Counter_cons. lia.
Qed.

(** what the loop of the balancer does for a group of [m] animals
    when a rotation of 1, 2, 3 fits the quotas *)
Definition rotation_kept (m : nat) (remaining : gmap Z Z) (g : Random.state) : Prop :=
  let best := best_sequence m remaining in
  let r := adjust best.2 [] remaining g in
  best.1 ∈ [0; 1; 2]
  ∧ best.2 = seq_from_offset m best.1
  ∧ fits best.2 remaining
  ∧ r.1.1 = best.2
  ∧ r.2 = g
  ∧ ∀ a, r.1.2 !!! a = remaining !!! a - Counter best.2 a.

(** X7: When one of the three rotations of 1, 2, 3 of the length of the
    group fits the remaining quotas, the chosen rotation fits them
    too, the group is given exactly this rotation, no random number is
    drawn, and the quotas go down by the counts of the rotation. *)
Theorem adjust_keeps_rotation (m : nat) (remaining : gmap Z Z) (g : Random.state)
    (o : Z) :
  o ∈ [0; 1; 2] → fits (seq_from_offset m o) remaining →
  rotation_kept m remaining g.
Proof.
  intros Ho Hfit. unfold rotation_kept.
  destruct (best_sequence_min m remaining) as (o' & Ho' & Hbest & Hmin).
  rewrite Hbest. cbn [fst snd].
  assert (fits (seq_from_offset m o') remaining) as Hfit'.
  { apply score_sequence_over.
    pose proof (proj1 (score_sequence_over (seq_from_offset m o') remaining)).
    pose proof (proj2 (proj2 (score_sequence_over (seq_from_offset m o) remaining)) Hfit).
    pose proof (Hmin o Ho). lia. }
  destruct (adjust_fits (seq_from_offset m o') [] remaining g
              (seq_from_offset_arms m o') Hfit') as (Hseq & Hg & Hrem).
  done.
Qed.

Lemma adjust_keeps_rotation_witness :
  rotation_kept 4 (target_of 7) (fun i => N.of_nat i).
Proof.
  apply (adjust_keeps_rotation 4 (target_of 7) _ 0); [by left|].
  intros a [->|[->| ->]]; vm_compute; discriminate.
Defined.

(** ** The arms of a trial sequence *)

Lemma balanced_pool_arms (n_trials armA armB : Z) (g : Random.state) :
  (∀ x, x ∈ (balanced_pool n_trials armA armB g).1 → x = armA ∨ x = armB)
  ∧ (n_trials ≤ 0 → (balanced_pool n_trials armA armB g).1 = []).
Proof.
  unfold balanced_pool.
  assert (∀ cA cB : Z, ∀ x, x ∈ repeat armA (Z.to_nat cA) ++ repeat armB (Z.to_nat cB) →
            x = armA ∨ x = armB) as Helem.
  { intros cA cB x Hx. apply elem_of_app in Hx as [Hx|Hx];
      apply list_elem_of_In, repeat_spec in Hx; auto. }
  assert (∀ cA cB : Z, cA ≤ 0 → cB ≤ 0 →
            repeat armA (Z.to_nat cA) ++ repeat armB (Z.to_nat cB) = []) as Hnil.
  { intros cA cB HA HB.
    replace (Z.to_nat cA) with 0%nat by lia. replace (Z.to_nat cB) with 0%nat by lia.
    done. }
  assert (n_trials ≤ 0 → n_trials / 2 ≤ 0) as Hdiv.
  { intros Hn. pose proof (Z.div_mod n_trials 2 ltac:(lia)).
    pose proof (Z.mod_pos_bound n_trials 2 ltac:(lia)). lia. }
  assert (n_trials ≤ 0 → n_trials mod 2 = 1 → n_trials / 2 + 1 ≤ 0) as Hdiv'.
  { intros Hn Hm. pose proof (Z.div_mod n_trials 2 ltac:(lia)). lia. }
  destruct (Z.eqb_spec (n_trials mod 2) 1) as [H1|H1].
  - destruct (Random.random g) as [r g'].
    destruct (r <? Random.half)%N; simpl; (split; [apply Helem|]);
      intros Hn; apply Hnil; auto.
  - simpl. split; [apply Helem|]. intros Hn. apply Hnil; auto.
Qed.

(** what the generator returns for any arguments, with [frames] frames
    left for the search *)
Definition sequence_arms_spec (frames : nat) (n_trials armA armB : Z)
    (avoid_first : option Z) (g : Random.state) : Prop :=
  ((Z.to_nat n_trials < frames)%nat →
   ∃ s g',
     generate_pseudorandom_sequence frames n_trials armA armB avoid_first g
     = ok (s, g'))
  ∧ ∀ s g',
      generate_pseudorandom_sequence frames n_trials armA armB avoid_first g
      = ok (s, g') →
      (∀ x, x ∈ s → x = armA ∨ x = armB)
      ∧ (n_trials ≤ 0 → s = []).

Lemma sequence_search_balanced_pool (n_trials armA armB : Z)
    (avoid_first : option Z) (g : Random.state) :
  (free_sequence n_trials armA armB avoid_first g).1
    ≡ₚ (balanced_pool n_trials armA armB g).1.
Proof.
  rewrite generate_pseudorandom_sequence_Permutation.
  unfold free_search.
  destruct (balanced_pool n_trials armA armB g) as [pool g1].
  pose proof (shuffle_Permutation pool g1) as Hs.
  destruct (Random.shuffle pool g1) as [pool' g2]. done.
Qed.

(** X8: A trial sequence holds no value other than the two arms it was
    asked for, whatever the arguments are; for a number of trials of 0
    or less it is empty.  A sequence is returned when the interpreter
    has more frames left for the search than there are trials. *)
Theorem generate_pseudorandom_sequence_arms (frames : nat) (n_trials armA armB : Z)
    (avoid_first : option Z) (g : Random.state) :
  sequence_arms_spec frames n_trials armA armB avoid_first g.
Proof.
  unfold sequence_arms_spec. split.
  - intros Hfr. rewrite generate_pseudorandom_sequence_frames by done.
    destruct (free_sequence n_trials armA armB avoid_first g) as [s g']. eauto.
  - intros s g' Hgen. apply generate_pseudorandom_sequence_returns in Hgen.
    pose proof (sequence_search_balanced_pool n_trials armA armB avoid_first g) as Hperm.
    rewrite <- Hgen in Hperm. cbn [fst] in Hperm.
    destruct (balanced_pool_arms n_trials armA armB g) as [Helem Hnil].
    split.
    + intros x Hx. apply Helem. by rewrite <- Hperm.
    + intros Hn. apply Permutation_nil. by rewrite Hperm, (Hnil Hn).
Qed.

(** ** The rows of the day tables *)

(** the trials of a row whose exit arm is [exit_arm], for an animal
    whose learning exit arm is [learning_exit] *)
Definition trials_ok (n_trials exit_arm learning_exit : Z) (trials : list Z) : Prop :=
  length trials = Z.to_nat n_trials
  ∧ (∀ x, x ∈ trials → is_arm x ∧ x ≠ exit_arm)
  ∧ (∀ a b, is_arm a → is_arm b → a ≠ exit_arm → b ≠ exit_arm →
            Z.abs (Counter trials a - Counter trials b) ≤ 1)
  ∧ (2 ≤ n_trials → no_triple trials ∧ head trials ≠ Some learning_exit).

Lemma sequence_ok (n_trials armA armB : Z) (avoid_first : option Z)
    (g : Random.state) :
  armA ≠ armB →
  let s := (free_sequence n_trials armA armB avoid_first g).1 in
  length s = Z.to_nat n_trials
  ∧ (∀ x, x ∈ s → x = armA ∨ x = armB)
  ∧ Z.abs (Counter s armA - Counter s armB) ≤ 1
  ∧ (2 ≤ n_trials →
     no_triple s ∧ ∀ a, avoid_first = Some a → head s ≠ Some a).
Proof.
  intros Hne s.
  pose proof (sequence_search_balanced_pool n_trials armA armB avoid_first g) as Hbp.
  fold s in Hbp.
  assert (∀ x, x ∈ s → x = armA ∨ x = armB) as Helem.
  { intros x Hx. apply (balanced_pool_arms n_trials armA armB g). by rewrite <- Hbp. }
  assert (n_trials ≤ 0 → s = []) as Hnil.
  { intros Hn. apply Permutation_nil.
    by rewrite Hbp, (proj2 (balanced_pool_arms n_trials armA armB g) Hn). }
  destruct (Z_le_gt_dec n_trials 0) as [Hle|Hgt].
  - rewrite (Hnil Hle). replace (Z.to_nat n_trials) with 0%nat by lia.
    split; [done|]. split; [intros x Hx; by apply elem_of_nil in Hx|].
    split; [unfold Counter; rewrite !filter_nil; simpl; lia|]. lia.
  - destruct (sequence_search_pool n_trials armA armB avoid_first g ltac:(lia))
      as (cA & cB & Hpool & Hsum & Hbal).
    pose proof (generate_pseudorandom_sequence_Permutation
                  n_trials armA armB avoid_first g) as Hperm.
    fold s in Hperm.
    assert (∀ a, Counter s a
                 = (if decide (armA = a) then Z.of_nat cA else 0)
                   + (if decide (armB = a) then Z.of_nat cB else 0)) as Hcount.
    { intros a.
      rewrite (Counter_Permutation _ _ a Hperm), (Counter_Permutation _ _ a Hpool).
      by rewrite Counter_app, !Counter_repeat. }
    split; [|split; [done|split]].
    + rewrite Hperm, Hpool, length_app, !repeat_length. lia.
    + rewrite !Hcount. repeat case_decide; try congruence; lia.
    + intros Hn.
      destruct (valid_arrangement_exists armA armB cA cB avoid_first Hne)
        as (p & Hp & Hok); [lia..|].
      assert (free_fallback n_trials armA armB avoid_first g = false) as Hfb.
      { apply (fallback_not_taken _ _ _ _ _ p); [by rewrite Hp, Hpool| |done].
        intros ->. apply Permutation_nil in Hp.
        apply (f_equal (@length Z)) in Hp. rewrite length_app, !repeat_length in Hp.
        simpl in Hp. lia. }
      destruct (generate_pseudorandom_sequence_cases n_trials armA armB avoid_first g)
        as [[_ H]|[H _]]; [|congruence].
      apply sequence_search_found in H as [_ Hchain]. fold s in Hchain. split.
      * apply (chain_ok_no_triple avoid_first _ [] Hchain).
        apply no_triple_short. simpl. lia.
      * intros a. by apply chain_ok_head.
Qed.

Lemma list_remove_others (arm : Z) :
  is_arm arm →
  ∃ armA armB,
    list_remove arm [1; 2; 3] = ok [armA; armB]
    ∧ armA ≠ armB
    ∧ ∀ x, (is_arm x ∧ x ≠ arm) ↔ (x = armA ∨ x = armB).
Proof.
  unfold is_arm.
  intros [->|[->| ->]]; eexists _, _; (split; [reflexivity|]); (split; [done|]);
    intros x; lia.
Qed.

(** the row of animal [a] on a day whose exit arms are [per_day_exit] *)
Definition row_full (n_trials : Z) (exit_arm_map per_day_exit : gmap string Z)
    (a : Animal) (row : list cell) : Prop :=
  ∃ exit_arm learning_exit trials,
    per_day_exit !! AnimalID a = Some exit_arm
    ∧ exit_arm_map !! AnimalID a = Some learning_exit
    ∧ is_arm exit_arm ∧ is_arm learning_exit
    ∧ row = identity_cells a exit_arm ++ map CInt trials
    ∧ trials_ok n_trials exit_arm learning_exit trials.

Lemma day_row_full (frames : nat) (in_learning : bool) (n_trials : Z)
    (exit_arm_map per_day_exit : gmap string Z) (a : Animal) (g : Random.state)
    (exit_arm learning_exit : Z) :
  (Z.to_nat n_trials < frames)%nat →
  per_day_exit !! AnimalID a = Some exit_arm → is_arm exit_arm →
  exit_arm_map !! AnimalID a = Some learning_exit → is_arm learning_exit →
  (in_learning = true → exit_arm = learning_exit) →
  ∃ row g', day_row frames in_learning n_trials exit_arm_map per_day_exit a g = ok (row, g')
            ∧ row_full n_trials exit_arm_map per_day_exit a row.
Proof.
  intros Hfr He Harm Hl Harm_le Hsame. unfold day_row. rewrite He.
  destruct (list_remove_others exit_arm Harm) as (armA & armB & -> & Hne & Hothers).
  cbn [rbind ok]. rewrite Hl.
  assert ((if in_learning then ok exit_arm else ok learning_exit)
          = (ok learning_exit : result Z)) as ->.
  { destruct in_learning; [by rewrite Hsame|done]. }
  cbn [rbind ok].
  destruct (sequence_ok n_trials armA armB (Some learning_exit) g Hne)
    as (Hlen & Helem & Hbal & Hseq).
  rewrite generate_pseudorandom_sequence_frames by done.
  destruct (free_sequence n_trials armA armB (Some learning_exit) g)
    as [trials g'].
  cbn [fst rbind ok] in *.
  eexists _, _. split; [reflexivity|].
  exists exit_arm, learning_exit, trials.
  split; [done|]. split; [done|]. split; [done|]. split; [done|]. split; [done|].
  split; [done|]. split; [|split].
  - intros x Hx. apply Hothers. by apply Helem.
  - intros x y Hx Hy Hxe Hye.
    destruct (proj1 (Hothers x) (conj Hx Hxe)) as [->| ->],
             (proj1 (Hothers y) (conj Hy Hye)) as [->| ->]; lia.
  - intros Hn. destruct (Hseq Hn) as [Hnt Hhd]. split; [done|]. by apply Hhd.
Qed.

Lemma day_rows_full (frames : nat) (in_learning : bool) (n_trials : Z)
    (exit_arm_map per_day_exit : gmap string Z) (animals_today : list Animal)
    (g : Random.state) :
  (Z.to_nat n_trials < frames)%nat →
  (∀ a, a ∈ animals_today →
        ∃ exit_arm learning_exit,
          per_day_exit !! AnimalID a = Some exit_arm ∧ is_arm exit_arm
          ∧ exit_arm_map !! AnimalID a = Some learning_exit ∧ is_arm learning_exit
          ∧ (in_learning = true → exit_arm = learning_exit)) →
  ∃ rows g',
    day_rows frames in_learning n_trials exit_arm_map per_day_exit animals_today g
    = ok (rows, g')
    ∧ Forall2 (row_full n_trials exit_arm_map per_day_exit) animals_today rows.
Proof.
  intros Hfr. revert g. induction animals_today as [|a rest IH]; intros g Hall.
  - exists [], g. split; [done|constructor].
  - destruct (Hall a ltac:(by left)) as (e & le & He & Harm & Hl & Harm_le & Hsame).
    destruct (day_row_full frames in_learning n_trials exit_arm_map per_day_exit a g e le
                Hfr He Harm Hl Harm_le Hsame) as (row & g1 & Hrow & Hfor).
    destruct (IH g1) as (rows & g2 & Hrows & Hfors);
      [intros b Hb; apply Hall; by right|].
    exists (row :: rows), g2. cbn [day_rows]. rewrite Hrow. cbn [rbind ok].
    rewrite Hrows. cbn [rbind ok]. split; [done|]. by constructor.
Qed.

Lemma row_full_weaken (n_trials : Z) (exit_arm_map m m' : gmap string Z)
    (a : Animal) (row : list cell) :
  m !! AnimalID a = m' !! AnimalID a →
  row_full n_trials exit_arm_map m a row → row_full n_trials exit_arm_map m' a row.
Proof.
  intros H (e & le & trials & He & Hrest). exists e, le, trials. by rewrite <- H.
Qed.

Section Rows.

Variable set_order : list string → list string.
Variable frames : nat.
Hypothesis set_order_perm : ∀ l, NoDup l → set_order l ≡ₚ l.

Variable animal_data : list Animal.
Variable exit_arm_map : gmap string Z.
Variable learning_days n_trials : Z.

Hypothesis Hroster : animal_data ≠ [].
Hypothesis Harms : exit_arms_ok animal_data exit_arm_map.
Hypothesis Hframes : (Z.to_nat n_trials < frames)%nat.

(** the table of day [d], counted from 0, with the trials of its rows *)
Definition table_full (d : Z) (t : DayTable) : Prop :=
  day t = d + 1
  ∧ header t = header_of n_trials
  ∧ if d <? learning_days then
      type t = "Learning"
      ∧ Forall2 (row_full n_trials exit_arm_map exit_arm_map) animal_data (rows t)
    else
      type t = "Reversal"
      ∧ ∃ ordered_animals per_animal_exit,
          build_nonlearning_plan_cage_packs set_order animal_data exit_arm_map
          = ok (ordered_animals, per_animal_exit)
          ∧ cage_packs_spec animal_data exit_arm_map ordered_animals per_animal_exit
          ∧ Forall2 (row_full n_trials exit_arm_map per_animal_exit)
                    ordered_animals (rows t).

Lemma day_table_full (d : Z) (g : Random.state) :
  ∃ t g', day_table set_order frames animal_data learning_days n_trials exit_arm_map d g
          = ok (t, g')
          ∧ table_full d t.
Proof.
  unfold day_table, table_full.
  pose proof (exit_arms_ok_covered _ _ Harms) as Hcov.
  destruct (d <? learning_days) eqn:Hd.
  - destruct (learning_exits_ok animal_data exit_arm_map ∅ Hcov)
      as (per & Hper & Hsub & _ & Hall); [apply map_empty_subseteq|].
    rewrite Hper. cbn [rbind ok].
    destruct (day_rows_full frames true n_trials exit_arm_map per animal_data g Hframes)
      as (rows & g' & Hrows & Hfor).
    { intros a Ha. destruct (Harms a Ha) as (arm & Harm & Hisarm).
      exists arm, arm. by rewrite Hall. }
    rewrite Hrows. cbn [rbind ok]. eexists _, _. split; [reflexivity|].
    simpl. split; [done|]. split; [done|]. split; [done|].
    apply Forall2_same_length_lookup. split; [by apply Forall2_length in Hfor|].
    intros i a row Ha Hrow.
    pose proof (Forall2_lookup_lr _ _ _ _ _ _ Hfor Ha Hrow) as Hfull.
    apply (row_full_weaken _ _ per); [|done].
    apply Hall. by apply list_elem_of_lookup_2 in Ha.
  - destruct (build_nonlearning_plan_cage_packs_ok set_order set_order_perm
                animal_data exit_arm_map Hroster Hcov)
      as (ordered & per & Hb & Hspec).
    pose proof Hspec as (cage_sequence & Hperm & Hord & Hok & Hcovd).
    rewrite Hb. cbn [rbind ok].
    destruct (day_rows_full frames false n_trials exit_arm_map per ordered g Hframes)
      as (rows & g' & Hrows & Hfor).
    { intros a Ha.
      assert (a ∈ animal_data) as Ha'.
      { rewrite Hord in Ha. apply elem_of_concat in Ha as (l & Ha & Hl).
        apply list_elem_of_fmap in Hl as (c & -> & _).
        by apply list_elem_of_filter in Ha as [_ Ha]. }
      destruct (Hcovd a Ha') as [e He]. destruct (Harms a Ha') as (le & Hle & Harm_le).
      exists e, le. split; [done|]. split; [by apply (Hok _ _ He)|]. done. }
    rewrite Hrows. cbn [rbind ok]. eexists _, _. split; [reflexivity|].
    simpl. split; [done|]. split; [done|]. split; [done|]. eauto.
Qed.

Lemma day_tables_for_full (days : list Z) (g : Random.state) :
  ∃ tables g',
    day_tables_for set_order frames animal_data learning_days n_trials exit_arm_map days g
    = ok (tables, g')
    ∧ Forall2 table_full days tables.
Proof.
  revert g. induction days as [|d days IH]; intros g.
  - exists [], g. split; [done|constructor].
  - destruct (day_table_full d g) as (t & g1 & Ht & Hspec).
    destruct (IH g1) as (tables & g2 & Hts & Hspecs).
    exists (t :: tables), g2. cbn [day_tables_for]. rewrite Ht. cbn [rbind ok].
    rewrite Hts. cbn [rbind ok]. split; [done|]. by constructor.
Qed.

Lemma generate_day_tables_full (reversal_days : Z) (g : Random.state) :
  ∃ tables g',
    generate_day_tables set_order frames animal_data learning_days reversal_days n_trials
      exit_arm_map g = ok (tables, g')
    ∧ Forall2 table_full (range (learning_days + reversal_days)) tables.
Proof.
  unfold generate_day_tables.
  destruct (Z.leb_spec (learning_days + reversal_days) 0) as [Hle|Hgt].
  - exists [], g. split; [done|].
    unfold range. replace (Z.to_nat (learning_days + reversal_days)) with 0%nat by lia.
    constructor.
  - apply day_tables_for_full.
Qed.

End Rows.

Lemma header_of_length (n_trials : Z) :
  length (header_of n_trials) = (6 + Z.to_nat n_trials)%nat.
Proof.
  unfold header_of. rewrite length_app, length_map, range_length. done.
Qed.

(** a row as wide as the header: the five identity cells, an exit arm
    of 1, 2, 3, and trials over the two other arms *)
Definition row_well_formed (n_trials : Z) (t : DayTable) (row : list cell) : Prop :=
  length row = length (header t)
  ∧ ∃ a exit_arm trials,
      row = identity_cells a exit_arm ++ map CInt trials
      ∧ is_arm exit_arm
      ∧ length trials = Z.to_nat n_trials
      ∧ (∀ x, x ∈ trials → is_arm x ∧ x ≠ exit_arm)
      ∧ (∀ x y, is_arm x → is_arm y → x ≠ exit_arm → y ≠ exit_arm →
                Z.abs (Counter trials x - Counter trials y) ≤ 1)
      ∧ (2 ≤ n_trials → no_triple trials).

Lemma row_full_well_formed (n_trials : Z) (exit_arm_map per_day_exit : gmap string Z)
    (a : Animal) (t : DayTable) (row : list cell) :
  header t = header_of n_trials →
  row_full n_trials exit_arm_map per_day_exit a row →
  row_well_formed n_trials t row.
Proof.
  intros Hh (e & le & trials & He & Hle & Harm & _ & -> & Hlen & Helem & Hbal & Hseq).
  split.
  - rewrite Hh, header_of_length, length_app, length_map, Hlen. done.
  - exists a, e, trials. split; [done|]. split; [done|]. split; [done|].
    split; [done|]. split; [done|]. intros Hn. by destruct (Hseq Hn).
Qed.

(** X9: Every row of every table that [generate_day_tables] returns is as
    wide as the header of its table; its ExitArm is one of 1, 2, 3; its
    trials are as many as asked for, each one an arm of 1, 2, 3 other
    than the ExitArm, the two start arms used equally often up to 1;
    with two trials or more no arm comes three times in a row.  The
    tables are returned when the interpreter has more frames left for
    the search of a trial sequence than a day has trials. *)
Theorem generate_day_tables_rows (set_order : list string → list string)
    (frames : nat)
    (animal_data : list Animal) (learning_days reversal_days n_trials : Z)
    (exit_arm_map : gmap string Z) (g : Random.state) :
  (∀ l, NoDup l → set_order l ≡ₚ l) →
  animal_data ≠ [] → exit_arms_ok animal_data exit_arm_map →
  (Z.to_nat n_trials < frames)%nat →
  ∃ tables g',
    generate_day_tables set_order frames animal_data learning_days reversal_days n_trials
      exit_arm_map g = ok (tables, g')
    ∧ ∀ t row, t ∈ tables → row ∈ rows t → row_well_formed n_trials t row.
Proof.
  intros Hset Hne Harms Hfr.
  destruct (generate_day_tables_full set_order frames Hset animal_data exit_arm_map
              learning_days n_trials Hne Harms Hfr reversal_days g)
    as (tables & g' & Hgen & Hspec).
  exists tables, g'. split; [done|].
  intros t row Ht Hrow.
  apply list_elem_of_lookup in Ht as [i Hi].
  destruct (Forall2_lookup_r _ _ _ _ _ Hspec Hi) as (d & _ & _ & Hh & Hrows).
  apply list_elem_of_lookup in Hrow as [j Hj].
  destruct (d <? learning_days).
  - destruct Hrows as [_ Hfor].
    destruct (Forall2_lookup_r _ _ _ _ _ Hfor Hj) as (a & _ & Hfull).
    by eapply row_full_well_formed.
  - destruct Hrows as (_ & ordered & per & _ & _ & Hfor).
    destruct (Forall2_lookup_r _ _ _ _ _ Hfor Hj) as (a & _ & Hfull).
    by eapply row_full_well_formed.
Qed.

Lemma generate_day_tables_rows_witness :
  ∃ tables g',
    generate_day_tables (fun l => l) 10 roster6 1 2 3 exits6 (fun i => N.of_nat i)
    = ok (tables, g')
    ∧ ∀ t row, t ∈ tables → row ∈ rows t → row_well_formed 3 t row.
Proof.
  apply generate_day_tables_rows; [done|done|exact exit_arms_ok_roster6|lia].
Defined.

(** the rows of a learning day: the roster in its order, every animal
    with its learning exit arm *)
Definition learning_rows (animal_data : list Animal) (exit_arm_map : gmap string Z)
    (t : DayTable) : Prop :=
  type t = "Learning"
  ∧ Forall2 (fun a row =>
               ∃ learning_exit trials,
                 exit_arm_map !! AnimalID a = Some learning_exit
                 ∧ row = identity_cells a learning_exit ++ map CInt trials)
            animal_data (rows t).

(** X10: On every learning day the table lists the animals in the order of
    the roster, one row each, and the ExitArm of a row is the exit arm
    that the map gives the animal.  The tables are returned when the
    interpreter has more frames left for the search of a trial sequence
    than a day has trials. *)
Theorem learning_days_keep_roster_order (set_order : list string → list string)
    (frames : nat)
    (animal_data : list Animal) (learning_days reversal_days n_trials : Z)
    (exit_arm_map : gmap string Z) (g : Random.state) :
  (∀ l, NoDup l → set_order l ≡ₚ l) →
  animal_data ≠ [] → exit_arms_ok animal_data exit_arm_map →
  (Z.to_nat n_trials < frames)%nat →
  ∃ tables g',
    generate_day_tables set_order frames animal_data learning_days reversal_days n_trials
      exit_arm_map g = ok (tables, g')
    ∧ ∀ (i : nat) t, tables !! i = Some t → Z.of_nat i < learning_days →
                     learning_rows animal_data exit_arm_map t.
Proof.
  intros Hset Hne Harms Hfr.
  destruct (generate_day_tables_full set_order frames Hset animal_data exit_arm_map
              learning_days n_trials Hne Harms Hfr reversal_days g)
    as (tables & g' & Hgen & Hspec).
  exists tables, g'. split; [done|].
  intros i t Hi Hlt.
  destruct (Forall2_lookup_r _ _ _ _ _ Hspec Hi) as (d & Hd & _ & _ & Hrows).
  apply range_lookup in Hd as ->.
  destruct (Z.ltb_spec (Z.of_nat i) learning_days) as [_|]; [|lia].
  destruct Hrows as [Htype Hfor]. split; [done|].
  eapply Forall2_impl; [exact Hfor|].
  intros a row (e & le & trials & He & Hle & _ & _ & -> & _).
  exists e, trials. split; [done|done].
Qed.

Lemma learning_days_keep_roster_order_witness :
  ∃ tables g',
    generate_day_tables (fun l => l) 10 roster6 2 1 3 exits6 (fun i => N.of_nat i)
    = ok (tables, g')
    ∧ ∀ (i : nat) t, tables !! i = Some t → Z.of_nat i < 2 →
                     learning_rows roster6 exits6 t.
Proof.
  apply learning_days_keep_roster_order; [done|done|exact exit_arms_ok_roster6|lia].
Defined.

(** the first trial of a row of a reversal day is the arm that is
    neither the exit arm of the day nor the learning exit arm *)
Definition first_trial_forced (exit_arm_map : gmap string Z) (row : list cell) : Prop :=
  ∃ a exit_arm learning_exit rest,
    exit_arm_map !! AnimalID a = Some learning_exit
    ∧ exit_arm ≠ learning_exit
    ∧ row = identity_cells a exit_arm ++ CInt (6 - exit_arm - learning_exit) :: rest.

(** X11: With two trials or more per day, the first trial of every row of a
    reversal day is fixed: it is the one arm of 1, 2, 3 that is neither
    the exit arm of the day nor the learning exit arm of the animal.
    The tables are returned when the interpreter has more frames left
    for the search of a trial sequence than a day has trials. *)
Theorem reversal_first_trial (set_order : list string → list string)
    (frames : nat)
    (animal_data : list Animal) (learning_days reversal_days n_trials : Z)
    (exit_arm_map : gmap string Z) (g : Random.state) :
  (∀ l, NoDup l → set_order l ≡ₚ l) →
  animal_data ≠ [] → exit_arms_ok animal_data exit_arm_map →
  (Z.to_nat n_trials < frames)%nat →
  2 ≤ n_trials →
  ∃ tables g',
    generate_day_tables set_order frames animal_data learning_days reversal_days n_trials
      exit_arm_map g = ok (tables, g')
    ∧ ∀ (i : nat) t row, tables !! i = Some t → learning_days ≤ Z.of_nat i →
                         row ∈ rows t → first_trial_forced exit_arm_map row.
Proof.
  intros Hset Hne Harms Hfr Hn.
  destruct (generate_day_tables_full set_order frames Hset animal_data exit_arm_map
              learning_days n_trials Hne Harms Hfr reversal_days g)
    as (tables & g' & Hgen & Hspec).
  exists tables, g'. split; [done|].
  intros i t row Hi Hge Hrow.
  destruct (Forall2_lookup_r _ _ _ _ _ Hspec Hi) as (d & Hd & _ & _ & Hrows).
  apply range_lookup in Hd as ->.
  destruct (Z.ltb_spec (Z.of_nat i) learning_days) as [|_]; [lia|].
  destruct Hrows as (_ & ordered & per & _ & Hpacks & Hfor).
  destruct Hpacks as (_ & _ & _ & Hok & _).
  apply list_elem_of_lookup in Hrow as [j Hj].
  destruct (Forall2_lookup_r _ _ _ _ _ Hfor Hj)
    as (a & Ha & e & le & trials & He & Hle & Harm & Harm_le & -> & Hlen & Helem & _ & Hseq).
  destruct (Hok _ _ He) as [_ Hdiff].
  assert (e ≠ le) as Hne' by (intros ->; by apply Hdiff).
  destruct (Hseq Hn) as [_ Hhd].
  destruct trials as [|x rest]; [simpl in Hlen; lia|].
  destruct (Helem x ltac:(by left)) as [Hx Hxe].
  exists a, e, le, (map CInt rest). split; [done|]. split; [done|].
  assert (x = 6 - e - le) as ->; [|done].
  assert (x ≠ le) by (intros ->; by apply Hhd).
  unfold is_arm in *. lia.
Qed.

Lemma reversal_first_trial_witness :
  ∃ tables g',
    generate_day_tables (fun l => l) 10 roster6 1 2 3 exits6 (fun i => N.of_nat i)
    = ok (tables, g')
    ∧ ∀ (i : nat) t row, tables !! i = Some t → 1 ≤ Z.of_nat i →
                         row ∈ rows t → first_trial_forced exits6 row.
Proof.
  apply reversal_first_trial; [done|done|exact exit_arms_ok_roster6|lia|lia].
Defined.

(** ** Exit-arm maps that miss an animal *)

Lemma plans_for_ok (animals : list Animal) (learning_exit_map : gmap string Z) :
  animals ≠ [] → covered animals learning_exit_map →
  ∃ p, plans_for animals learning_exit_map = ok p.
Proof.
  intros Hne Hcov. unfold plans_for.
  destruct (plan_cage_dp_ok animals (Some 1) learning_exit_map Hne Hcov)
    as (p1 & ? & -> & _).
  destruct (plan_cage_dp_ok animals (Some 2) learning_exit_map Hne Hcov)
    as (p2 & ? & -> & _).
  destruct (plan_cage_dp_ok animals (Some 3) learning_exit_map Hne Hcov)
    as (p3 & ? & -> & _).
  cbn [rbind ok]. eauto.
Qed.

Lemma plans_of_missing (cages : list (string * list Animal))
    (learning_exit_map : gmap string Z) :
  (∀ c animals, (c, animals) ∈ cages → animals ≠ []) →
  (∃ c animals a, (c, animals) ∈ cages ∧ a ∈ animals
                  ∧ learning_exit_map !! AnimalID a = None) →
  plans_of cages learning_exit_map = raise KeyError.
Proof.
  induction cages as [|[c animals] cages IH]; intros Hne Hmiss.
  - destruct Hmiss as (? & ? & ? & H & _). by apply elem_of_nil in H.
  - cbn [plans_of].
    destruct (covered_or_missing animals learning_exit_map) as [Hcov|Hm].
    + destruct (plans_for_ok animals learning_exit_map) as [p ->];
        [apply (Hne c); by left|done|].
      cbn [rbind ok]. rewrite IH; [done| |].
      * intros c' animals' Hin. apply (Hne c'). by right.
      * destruct Hmiss as (c' & animals' & a & Hin & Ha & Hnone).
        apply elem_of_cons in Hin as [[= -> ->]|Hin].
        -- destruct (Hcov a Ha) as [? ?]. congruence.
        -- eauto 6.
    + unfold plans_for. by rewrite (plan_cage_dp_missing _ (Some 1) _ Hm).
Qed.

Lemma dict_get_elem {K V : Type} `{EqDecision K} (k : K) (v : V) (d : list (K * V)) :
  dict_get k d = Some v → (k, v) ∈ d.
Proof.
  induction d as [|[k' v'] d IH]; [done|]. simpl.
  destruct (decide (k = k')) as [->|]; [intros [= ->]; by left|].
  intros H. right. by apply IH.
Qed.

Lemma build_nonlearning_plan_cage_packs_missing
    (set_order : list string → list string) (animal_data : list Animal)
    (learning_exit_map : gmap string Z) :
  (∃ a, a ∈ animal_data ∧ learning_exit_map !! AnimalID a = None) →
  build_nonlearning_plan_cage_packs set_order animal_data learning_exit_map
  = raise KeyError.
Proof.
  intros (a & Ha & Hnone). unfold build_nonlearning_plan_cage_packs.
  pose proof (group_animals_by_cage_in_order_ok animal_data) as Hok.
  rewrite plans_of_missing; [done| |].
  - intros c animals Hin.
    pose proof (dict_get_NoDup c animals _ (proj1 Hok) Hin) as Hget.
    destruct (cages_ok_lookup animal_data _ c Hok) as [Hget' Hne].
    { apply list_elem_of_fmap. by exists (c, animals). }
    rewrite Hget in Hget'. by injection Hget' as ->.
  - destruct (cages_ok_lookup animal_data _ (Cage a) Hok) as [Hget _].
    { by apply (cages_ok_names animal_data). }
    exists (Cage a), (cage_of (Cage a) animal_data), a.
    split; [by apply dict_get_elem|]. split; [|done].
    by apply list_elem_of_filter.
Qed.

Lemma learning_exits_missing (animals_today : list Animal)
    (exit_arm_map per_day_exit : gmap string Z) :
  (∃ a, a ∈ animals_today ∧ exit_arm_map !! AnimalID a = None) →
  learning_exits animals_today exit_arm_map per_day_exit = raise KeyError.
Proof.
  revert per_day_exit.
  induction animals_today as [|b rest IH]; intros per (a & Ha & Hnone).
  - by apply elem_of_nil in Ha.
  - cbn [learning_exits].
    destruct (exit_arm_map !! AnimalID b) as [arm|] eqn:Hb; [|done].
    apply elem_of_cons in Ha as [->|Ha]; [congruence|].
    apply IH. eauto.
Qed.

(** X12: When one day or more is asked for and an animal of the roster has
    no entry in the exit-arm map, [generate_day_tables] fails with a
    [KeyError]; on the first day already, learning or reversal. *)
Theorem generate_day_tables_missing_exit (set_order : list string → list string)
    (frames : nat)
    (animal_data : list Animal) (learning_days reversal_days n_trials : Z)
    (exit_arm_map : gmap string Z) (g : Random.state) :
  0 < learning_days + reversal_days →
  (∃ a, a ∈ animal_data ∧ exit_arm_map !! AnimalID a = None) →
  generate_day_tables set_order frames animal_data learning_days reversal_days n_trials
    exit_arm_map g = raise KeyError.
Proof.
  intros Hdays Hmiss. unfold generate_day_tables.
  destruct (Z.leb_spec (learning_days + reversal_days) 0) as [|_]; [lia|].
  unfold range.
  destruct (Z.to_nat (learning_days + reversal_days)) as [|n] eqn:En; [lia|].
  cbn [seq map day_tables_for]. unfold day_table.
  destruct (Z.of_nat 0 <? learning_days).
  - by rewrite (learning_exits_missing _ _ _ Hmiss).
  - by rewrite (build_nonlearning_plan_cage_packs_missing _ _ _ Hmiss).
Qed.

Lemma generate_day_tables_missing_exit_witness :
  generate_day_tables (fun l => l) 10 roster6 1 1 3 (delete "A4" exits6)
    (fun i => N.of_nat i) = raise KeyError.
Proof.
  apply generate_day_tables_missing_exit; [lia|].
  exists (mkAnimal "A4" "t4" "Female" "KO" "C3").
  split; [|reflexivity].
  unfold roster6. do 3 right. by left.
Defined.

(** ** The empty roster *)

(** the table of a learning day without animals *)
Definition empty_table (n_trials d : Z) : DayTable :=
  {| day := d + 1; type := "Learning"; header := header_of n_trials; rows := [] |}.

Lemma day_tables_for_empty_roster (set_order : list string → list string)
    (frames : nat)
    (learning_days n_trials : Z) (exit_arm_map : gmap string Z) (days : list Z)
    (g : Random.state) :
  day_tables_for set_order frames [] learning_days n_trials exit_arm_map days g
  = if forallb (fun d => d <? learning_days) days
    then ok (map (empty_table n_trials) days, g)
    else raise TypeError.
Proof.
  induction days as [|d days IH]; [done|].
  cbn [day_tables_for forallb map]. unfold day_table.
  destruct (d <? learning_days); cbn [andb].
  - cbn [learning_exits rbind ok day_rows]. rewrite IH.
    by destruct (forallb (λ d0 : Z, d0 <? learning_days) days).
  - done.
Qed.

(** X13: For an empty roster [generate_day_tables] returns no table when no
    day is asked for; it fails with a [TypeError] when a reversal day
    is among the days (the search of the optimizer has no solution to
    unpack); otherwise it returns a table without rows for every
    learning day, and draws no random number. *)
Theorem generate_day_tables_empty_roster (set_order : list string → list string)
    (frames : nat)
    (learning_days reversal_days n_trials : Z) (exit_arm_map : gmap string Z)
    (g : Random.state) :
  generate_day_tables set_order frames [] learning_days reversal_days n_trials exit_arm_map g
  = if learning_days + reversal_days <=? 0 then ok ([], g)
    else if 0 <? reversal_days then raise TypeError
    else ok (map (empty_table n_trials) (range (learning_days + reversal_days)), g).
Proof.
  unfold generate_day_tables.
  destruct (Z.leb_spec (learning_days + reversal_days) 0) as [|Hpos]; [done|].
  rewrite day_tables_for_empty_roster.
  destruct (Z.ltb_spec 0 reversal_days) as [Hr|Hr].
  - destruct (forallb _ _) eqn:E; [|done].
    rewrite forallb_forall in E.
    assert (In (Z.of_nat (Z.to_nat (learning_days + reversal_days - 1)))
               (range (learning_days + reversal_days))) as Hin.
    { unfold range. apply in_map, in_seq. lia. }
    apply E in Hin. apply Z.ltb_lt in Hin. lia.
  - destruct (forallb _ _) eqn:E; [done|].
    assert (forallb (λ d : Z, d <? learning_days)
              (range (learning_days + reversal_days)) = true) as E'; [|congruence].
    apply forallb_forall. intros d Hd. unfold range in Hd.
    apply in_map_iff in Hd as (k & <- & Hk). apply in_seq in Hk.
    apply Z.ltb_lt. lia.
Qed.

(** ** The outcomes of a request *)

Lemma generate_day_tables_all (set_order : list string → list string)
    (frames : nat)
    (animal_data : list Animal) (learning_days reversal_days n_trials : Z)
    (exit_arm_map : gmap string Z) (g : Random.state) :
  (∀ l, NoDup l → set_order l ≡ₚ l) →
  animal_data ≠ [] → exit_arms_ok animal_data exit_arm_map →
  (Z.to_nat n_trials < frames)%nat →
  ∃ tables g',
    generate_day_tables set_order frames animal_data learning_days reversal_days n_trials
      exit_arm_map g = ok (tables, g')
    ∧ day_tables_spec animal_data exit_arm_map learning_days reversal_days tables
    ∧ (∀ (i : nat) t, tables !! i = Some t → Z.of_nat i < learning_days →
                      learning_rows animal_data exit_arm_map t)
    ∧ (∀ t row, t ∈ tables → row ∈ rows t → row_well_formed n_trials t row).
Proof.
  intros Hset Hne Harms Hfr.
  destruct (generate_day_tables_full set_order frames Hset animal_data exit_arm_map
              learning_days n_trials Hne Harms Hfr reversal_days g)
    as (tables & g' & Hgen & Hspec).
  exists tables, g'. split; [done|]. split; [|split].
  - split.
    + apply Forall2_length in Hspec. by rewrite <- Hspec, range_length.
    + intros i t Hi.
      destruct (Forall2_lookup_r _ _ _ _ _ Hspec Hi) as (d & Hd & Hday & _ & Hrows).
      apply range_lookup in Hd as ->. split; [done|].
      destruct (Z.of_nat i <? learning_days).
      * destruct Hrows as [-> _]. done.
      * destruct Hrows as (-> & ordered & per & Hb & Hpacks & Hfor).
        split; [done|]. intros _.
        pose proof (cage_packs_spec_order _ _ _ _ Hpacks) as [Hperm _].
        destruct Hpacks as (_ & _ & _ & Hok & _).
        exists ordered. split; [done|].
        eapply Forall2_impl; [exact Hfor|].
        intros a row (e & le & trials & He & _ & Harm & _ & -> & _).
        exists e, trials. split; [done|]. split; [done|]. by apply (Hok _ _ He).
  - intros i t Hi Hlt.
    destruct (Forall2_lookup_r _ _ _ _ _ Hspec Hi) as (d & Hd & _ & _ & Hrows).
    apply range_lookup in Hd as ->.
    destruct (Z.ltb_spec (Z.of_nat i) learning_days) as [_|]; [|lia].
    destruct Hrows as [Htype Hfor]. split; [done|].
    eapply Forall2_impl; [exact Hfor|].
    intros a row (e & le & trials & He & Hle & _ & _ & -> & _).
    exists e, trials. done.
  - intros t row Ht Hrow.
    apply list_elem_of_lookup in Ht as [i Hi].
    destruct (Forall2_lookup_r _ _ _ _ _ Hspec Hi) as (d & _ & _ & Hh & Hrows).
    apply list_elem_of_lookup in Hrow as [j Hj].
    destruct (d <? learning_days).
    + destruct Hrows as [_ Hfor].
      destruct (Forall2_lookup_r _ _ _ _ _ Hfor Hj) as (a & _ & Hfull).
      by eapply row_full_well_formed.
    + destruct Hrows as (_ & ordered & per & _ & _ & Hfor).
      destruct (Forall2_lookup_r _ _ _ _ _ Hfor Hj) as (a & _ & Hfull).
      by eapply row_full_well_formed.
Qed.

(** beyond the frames, the first row of the first learning day already
    fails *)
Lemma generate_day_tables_limit (set_order : list string → list string)
    (frames : nat)
    (animal_data : list Animal) (learning_days reversal_days n_trials : Z)
    (exit_arm_map : gmap string Z) (g : Random.state) :
  animal_data ≠ [] → exit_arms_ok animal_data exit_arm_map →
  0 < learning_days → 0 < learning_days + reversal_days →
  2 ≤ n_trials → (frames ≤ Z.to_nat n_trials)%nat →
  generate_day_tables set_order frames animal_data learning_days reversal_days n_trials
    exit_arm_map g = raise RecursionError.
Proof.
  intros Hne Harms Hl Hdays Hn Hfr. unfold generate_day_tables.
  destruct (Z.leb_spec (learning_days + reversal_days) 0) as [|_]; [lia|].
  unfold range.
  destruct (Z.to_nat (learning_days + reversal_days)) as [|k] eqn:Ek; [lia|].
  cbn [seq map day_tables_for]. unfold day_table.
  destruct (Z.ltb_spec (Z.of_nat 0) learning_days) as [_|]; [|lia].
  destruct (learning_exits_ok animal_data exit_arm_map ∅
              (exit_arms_ok_covered _ _ Harms))
    as (per & Hper & _ & _ & Hall); [apply map_empty_subseteq|].
  rewrite Hper. cbn [rbind ok].
  destruct animal_data as [|a rest]; [done|].
  destruct (Harms a ltac:(by left)) as (arm & Harm & Hisarm).
  cbn [day_rows]. unfold day_row.
  rewrite (Hall a ltac:(by left)), Harm.
  destruct (list_remove_others arm Hisarm) as (armA & armB & -> & Hab & _).
  cbn [rbind ok]. unfold generate_pseudorandom_sequence.
  by rewrite sequence_search_limit.
Qed.

(** what the handler takes for the roster: what reading the example
    file gives when the flag is set or the request has no animal, the
    animals of the request otherwise; [None] when the file does not
    exist *)
Definition request_animals (example_file : option (result (list Animal)))
    (request : ScheduleRequest) : option (result (list Animal)) :=
  if use_example request || bool_decide (animals request = [])
  then example_file
  else Some (ok (animals request)).

(** the state of the generator after the seed of the request, if any *)
Definition seeded (seed_state : Z → Random.state) (request : ScheduleRequest)
    (g : Random.state) : Random.state :=
  match seed request with
  | Some s => seed_state s
  | None => g
  end.

(** the response to a request whose roster is [animal_data] *)
Definition response_for (seed_state : Z → Random.state) (request : ScheduleRequest)
    (animal_data : list Animal) (g : Random.state) (response : ScheduleResponse)
  : Prop :=
  success response = true
  ∧ exit_arm_map response
    = (assign_balanced_exit_arms animal_data (seeded seed_state request g)).1
  ∧ exit_arms_ok animal_data (exit_arm_map response)
  ∧ day_tables_spec animal_data (exit_arm_map response)
      (learning_days request) (reversal_days request) (day_tables response)
  ∧ (∀ (i : nat) t, day_tables response !! i = Some t →
        Z.of_nat i < learning_days request →
        learning_rows animal_data (exit_arm_map response) t)
  ∧ (∀ t row, t ∈ day_tables response → row ∈ rows t →
        row_well_formed (trials_per_day request) t row).

(** the answer [r] of a handler when reading the example file raises
    [e]: status 400 with the message of a [FileNotFoundError] (the file
    was removed after the test of its existence), status 500 for the
    other exceptions of the reader; an [HTTPException], which the
    reader does not raise, would pass *)
Definition read_failure {A : Type} (e : exn) (r : result A) : Prop :=
  match e with
  | FileNotFoundError message => r = raise (HTTPException 400 message)
  | HTTPException status_code detail => r = raise (HTTPException status_code detail)
  | _ => r = raise (HTTPException 500 (str_exn e))
  end.

(** the answer [r] of [generate_schedule], by the roster it takes *)
Definition schedule_cases (frames : nat) (seed_state : Z → Random.state)
    (path : string) (example_file : option (result (list Animal)))
    (request : ScheduleRequest) (g : Random.state)
    (r : result (ScheduleResponse * Random.state)) : Prop :=
  match request_animals example_file request with
  | None => r = raise (HTTPException 400 ("Missing example dataset at " +:+ path))
  | Some (inl e) => read_failure e r
  | Some (inr []) => r = raise (HTTPException 400 "No animals provided.")
  | Some (inr animal_data) =>
      ((Z.to_nat (trials_per_day request) < frames)%nat →
       ∃ response g',
         r = ok (response, g')
         ∧ response_for seed_state request animal_data g response)
      ∧ (∀ e, r = raise e → e = HTTPException 500 (str_exn RecursionError))
      ∧ (0 < learning_days request → 0 ≤ reversal_days request →
         2 ≤ trials_per_day request →
         (frames ≤ Z.to_nat (trials_per_day request))%nat →
         r = raise (HTTPException 500 (str_exn RecursionError)))
  end.

Lemma generate_schedule_cases (set_order : list string → list string)
    (frames : nat) (seed_state : Z → Random.state) (path : string)
    (example_file : option (result (list Animal)))
    (request : ScheduleRequest) (g : Random.state) :
  (∀ l, NoDup l → set_order l ≡ₚ l) →
  schedule_cases frames seed_state path example_file request g
    (generate_schedule set_order frames seed_state path example_file request g).
Proof.
  intros Hset.
  assert (∀ animal_data, animal_data ≠ [] →
            ∃ body,
              body
              = (let '(exit_arm_map, g0) :=
                   assign_balanced_exit_arms animal_data (seeded seed_state request g) in
                 try '(day_tables, g1) <-
                   generate_day_tables set_order frames animal_data
                     (learning_days request) (reversal_days request)
                     (trials_per_day request) exit_arm_map g0;;
                 ok ({| success := true; exit_arm_map := exit_arm_map;
                        day_tables := day_tables |}, g1))
              ∧ ((Z.to_nat (trials_per_day request) < frames)%nat →
                 ∃ response g',
                   body = ok (response, g')
                   ∧ response_for seed_state request animal_data g response)
              ∧ (∀ e, body = inl e → e = RecursionError)
              ∧ (0 < learning_days request → 0 ≤ reversal_days request →
                 2 ≤ trials_per_day request →
                 (frames ≤ Z.to_nat (trials_per_day request))%nat →
                 body = raise RecursionError)) as Hrun.
  { intros animal_data Hne. eexists. split; [reflexivity|].
    pose proof (assign_balanced_exit_arms_keys animal_data (seeded seed_state request g))
      as Harms.
    destruct (assign_balanced_exit_arms animal_data (seeded seed_state request g))
      as [m g0] eqn:Em. cbn [fst] in Harms.
    split; [|split].
    - intros Hfr.
      destruct (generate_day_tables_all set_order frames animal_data
                  (learning_days request) (reversal_days request)
                  (trials_per_day request) m g0 Hset Hne Harms Hfr)
        as (tables & g1 & -> & Hspec & Hlearn & Hrows).
      cbn [rbind ok]. eexists _, _. split; [reflexivity|].
      unfold response_for. cbn [success exit_arm_map day_tables].
      rewrite Em. done.
    - intros e.
      destruct (generate_day_tables set_order frames animal_data (learning_days request)
                  (reversal_days request) (trials_per_day request) m g0)
        as [e'|[tables g1]] eqn:Hgen; cbn [rbind ok]; [|done].
      intros [= <-].
      by eapply (generate_day_tables_raises set_order frames Hset animal_data m).
    - intros Hl Hr Hn Hfr.
      rewrite generate_day_tables_limit by (done || lia). done. }
  unfold schedule_cases, request_animals, generate_schedule, generate_schedule_body,
    load_example_animals.
  fold (seeded seed_state request g).
  assert (∀ animal_data body, animal_data ≠ [] →
            body
            = (let '(exit_arm_map, g0) :=
                 assign_balanced_exit_arms animal_data (seeded seed_state request g) in
               try '(day_tables, g1) <-
                 generate_day_tables set_order frames animal_data
                   (learning_days request) (reversal_days request)
                   (trials_per_day request) exit_arm_map g0;;
               ok ({| success := true; exit_arm_map := exit_arm_map;
                      day_tables := day_tables |}, g1)) →
            let r := match body with
                     | inl (HTTPException status_code detail) =>
                         raise (HTTPException status_code detail)
                     | inl e => raise (HTTPException 500 (str_exn e))
                     | inr r => ok r
                     end in
            ((Z.to_nat (trials_per_day request) < frames)%nat →
             ∃ response g',
               r = ok (response, g')
               ∧ response_for seed_state request animal_data g response)
            ∧ (∀ e, r = raise e → e = HTTPException 500 (str_exn RecursionError))
            ∧ (0 < learning_days request → 0 ≤ reversal_days request →
               2 ≤ trials_per_day request →
               (frames ≤ Z.to_nat (trials_per_day request))%nat →
               r = raise (HTTPException 500 (str_exn RecursionError)))) as Hans.
  { intros animal_data body Hne Hbody.
    destruct (Hrun animal_data Hne) as (body' & Hbody' & Hok & Hfail & Hlim).
    rewrite <- Hbody in Hbody'. subst body'. clear Hbody.
    split; [|split].
    - intros Hfr. destruct (Hok Hfr) as (response & g' & -> & Hfor). eauto.
    - intros e. destruct body as [e'|r'] eqn:Hb; [|done].
      rewrite (Hfail e' eq_refl). by intros [= <-].
    - intros Hl Hr Hn Hfr. by rewrite (Hlim Hl Hr Hn Hfr). }
  destruct (use_example request || bool_decide (animals request = [])) eqn:Eflag.
  - destruct example_file as [[e|[|a records]]|]; cbn [rbind ok].
    + by destruct e.
    + done.
    + rewrite bool_decide_eq_false_2 by done.
      by apply (Hans (a :: records)).
    + done.
  - apply orb_false_iff in Eflag as [_ Hne]. apply bool_decide_eq_false in Hne.
    cbn [rbind ok]. rewrite bool_decide_eq_false_2 by done.
    destruct (animals request) as [|a records] eqn:Ea; [done|].
    by apply (Hans (a :: records)).
Qed.

(** the outcome [r] of a call of the handler: the status of the answer,
    and the number of tables of a response *)
Definition schedule_outcome (frames : nat) (path : string)
    (example_file : option (result (list Animal))) (request : ScheduleRequest)
    (r : result (ScheduleResponse * Random.state)) : Prop :=
  match request_animals example_file request with
  | None => r = raise (HTTPException 400 ("Missing example dataset at " +:+ path))
  | Some (inl e) => read_failure e r
  | Some (inr []) => r = raise (HTTPException 400 "No animals provided.")
  | Some (inr (_ :: _)) =>
      ((Z.to_nat (trials_per_day request) < frames)%nat →
       ∃ response g',
         r = ok (response, g')
         ∧ success response = true
         ∧ length (day_tables response)
           = Z.to_nat (learning_days request + reversal_days request))
      ∧ ((frames ≤ Z.to_nat (trials_per_day request))%nat →
         r = raise (HTTPException 500 (str_exn RecursionError)))
  end.

(** X14: A request that violates a constraint of its fields is rejected
    with a validation error.  Any other request is answered by its
    roster, which is what reading the example file gives when the flag
    is set or no animal is sent: status 400 naming the path when the
    file does not exist; when the reader raises, status 400 for a
    [FileNotFoundError] and status 500 otherwise; status 400 when the
    roster is empty; and for a roster with animals a response with one
    table per day when the interpreter has more frames left for the
    search of a trial sequence than a day has trials, and status 500,
    for the [RecursionError] of the search, when it has not.  (The
    interpreter is taken to leave two frames at least.) *)
Theorem post_generate_schedule_outcomes (set_order : list string → list string)
    (frames : nat) (seed_state : Z → Random.state) (path : string)
    (example_file : option (result (list Animal)))
    (request : ScheduleRequest) (g : Random.state) :
  (∀ l, NoDup l → set_order l ≡ₚ l) →
  (2 ≤ frames)%nat →
  if (0 <? learning_days request) && (0 <=? reversal_days request)
     && (0 <? trials_per_day request)
  then schedule_outcome frames path example_file request
         (post_generate_schedule set_order frames seed_state path example_file
            request g)
  else post_generate_schedule set_order frames seed_state path example_file request g
       = raise ValidationError.
Proof.
  intros Hset Hfr2. unfold post_generate_schedule, validate.
  destruct ((0 <? learning_days request) && (0 <=? reversal_days request)
            && (0 <? trials_per_day request)) eqn:Hv; [|done].
  apply andb_true_iff in Hv as [Hv Ht]. apply andb_true_iff in Hv as [Hl Hr].
  apply Z.ltb_lt in Hl, Ht. apply Z.leb_le in Hr.
  cbn [rbind ok]. unfold schedule_outcome.
  pose proof (generate_schedule_cases set_order frames seed_state path example_file
                request g Hset) as H.
  unfold schedule_cases in H.
  destruct (request_animals example_file request) as [[e|[|a records]]|];
    [done|done| |done].
  destruct H as (Hok & _ & Hlim). split.
  - intros Hfr.
    destruct (Hok Hfr) as (response & g' & Hresp & Hsucc & _ & _ & [Hlen _] & _).
    eauto.
  - intros Hfr. apply Hlim; [done|done|lia|done].
Qed.

Lemma post_generate_schedule_outcomes_witness :
  schedule_outcome 10 "example_data/animals.csv" None
    (mkRequest roster6 2 1 3 (Some 7) false)
    (post_generate_schedule (fun l => l) 10 seed_tape "example_data/animals.csv" None
       (mkRequest roster6 2 1 3 (Some 7) false) (fun _ => 0%N)).
Proof.
  apply (post_generate_schedule_outcomes (fun l => l) 10 seed_tape
           "example_data/animals.csv" None
           (mkRequest roster6 2 1 3 (Some 7) false) (fun _ => 0%N)).
  - done.
  - lia.
Defined.

(** X15: A response is consistent with itself: the tables are built from
    the exit-arm map it carries.  On learning days the rows list the
    roster in its order with these exit arms; on reversal days every
    animal has a row whose exit arm differs from the one of the map;
    and all rows are well formed.  The response is returned when the
    interpreter has more frames left for the search of a trial
    sequence than a day has trials. *)
Theorem generate_schedule_consistent (set_order : list string → list string)
    (frames : nat) (seed_state : Z → Random.state) (path : string)
    (example_file : option (result (list Animal)))
    (request : ScheduleRequest) (g : Random.state) (animal_data : list Animal) :
  (∀ l, NoDup l → set_order l ≡ₚ l) →
  request_animals example_file request = Some (ok animal_data) →
  animal_data ≠ [] →
  (Z.to_nat (trials_per_day request) < frames)%nat →
  ∃ response g',
    generate_schedule set_order frames seed_state path example_file request g
    = ok (response, g')
    ∧ response_for seed_state request animal_data g response.
Proof.
  intros Hset Hdata Hne Hfr.
  pose proof (generate_schedule_cases set_order frames seed_state path example_file
                request g Hset) as H.
  unfold schedule_cases in H. rewrite Hdata in H.
  destruct animal_data as [|a rest]; [done|].
  by apply H.
Qed.

Lemma generate_schedule_consistent_witness :
  ∃ response g',
    generate_schedule (fun l => l) 10 seed_tape "example_data/animals.csv" None
      (mkRequest roster6 2 1 3 (Some 7) false) (fun _ => 0%N) = ok (response, g')
    ∧ response_for seed_tape (mkRequest roster6 2 1 3 (Some 7) false) roster6
        (fun _ => 0%N) response.
Proof.
  apply (generate_schedule_consistent (fun l => l) 10 seed_tape
           "example_data/animals.csv" None
           (mkRequest roster6 2 1 3 (Some 7) false));
    [done|reflexivity|done|simpl; lia].
Defined.

(** ** The empty animal list *)

(** [request] with the animals replaced and the flag cleared *)
Definition with_animals (request : ScheduleRequest) (records : list Animal)
  : ScheduleRequest :=
  {| animals := records;
     learning_days := learning_days request;
     reversal_days := reversal_days request;
     trials_per_day := trials_per_day request;
     seed := seed request;
     use_example := false |}.

(** C7, amended: a call with an empty animal list, as one with the flag
    use_example, is not rejected as such: the handler reads the example
    file.  The call is rejected with status 400 only when the file is
    missing (the detail names its path) or holds no animal (detail
    "No animals provided."); a file that the reader fails on is
    answered with status 500.  Otherwise the animals of the file are
    scheduled as if the request had carried them: the answer is the one
    to that request, a response for these animals when the interpreter
    has the frames for the search of the trial sequences, and its only
    failure is the status 500 of that search. *)
Theorem generate_schedule_empty_roster (set_order : list string → list string)
    (frames : nat) (seed_state : Z → Random.state) (path : string)
    (example_file : option (result (list Animal)))
    (request : ScheduleRequest) (g : Random.state) :
  (∀ l, NoDup l → set_order l ≡ₚ l) →
  animals request = [] ∨ use_example request = true →
  match example_file with
  | None =>
      generate_schedule set_order frames seed_state path example_file request g
      = raise (HTTPException 400 ("Missing example dataset at " +:+ path))
  | Some (inl e) =>
      read_failure e
        (generate_schedule set_order frames seed_state path example_file request g)
  | Some (inr []) =>
      generate_schedule set_order frames seed_state path example_file request g
      = raise (HTTPException 400 "No animals provided.")
  | Some (inr records) =>
      generate_schedule set_order frames seed_state path example_file request g
      = generate_schedule set_order frames seed_state path example_file
          (with_animals request records) g
      ∧ ((Z.to_nat (trials_per_day request) < frames)%nat →
         ∃ response g',
           generate_schedule set_order frames seed_state path example_file request g
           = ok (response, g')
           ∧ response_for seed_state request records g response)
      ∧ (∀ e,
           generate_schedule set_order frames seed_state path example_file request g
           = raise e →
           e = HTTPException 500 (str_exn RecursionError))
  end.
Proof.
  intros Hset Hflag.
  pose proof (generate_schedule_cases set_order frames seed_state path example_file
                request g Hset) as H.
  unfold schedule_cases in H.
  assert (request_animals example_file request = example_file) as Hreq.
  { unfold request_animals. destruct Hflag as [-> | ->]; [|done].
    by rewrite orb_true_r. }
  rewrite Hreq in H.
  destruct example_file as [[e|[|a records]]|]; [done|done| |done].
  destruct H as (Hok & Hfail & _). split; [|by split].
  unfold generate_schedule, generate_schedule_body, load_example_animals.
  assert (use_example request || bool_decide (animals request = []) = true) as ->.
  { destruct Hflag as [-> | ->]; [by rewrite orb_true_r|done]. }
  cbn [rbind ok with_animals animals use_example seed learning_days reversal_days
       trials_per_day orb].
  rewrite (bool_decide_eq_false_2 (a :: records = [])) by done.
  reflexivity.
Qed.

Lemma generate_schedule_empty_roster_witness :
  generate_schedule (fun l => l) 10 seed_tape "example_data/animals.csv"
    (Some (ok roster4)) (mkRequest [] 1 1 2 None false) (fun _ => 0%N)
  = generate_schedule (fun l => l) 10 seed_tape "example_data/animals.csv"
      (Some (ok roster4)) (with_animals (mkRequest [] 1 1 2 None false) roster4)
      (fun _ => 0%N)
  ∧ ((Z.to_nat 2 < 10)%nat →
     ∃ response g',
       generate_schedule (fun l => l) 10 seed_tape "example_data/animals.csv"
         (Some (ok roster4)) (mkRequest [] 1 1 2 None false) (fun _ => 0%N)
       = ok (response, g')
       ∧ response_for seed_tape (mkRequest [] 1 1 2 None false) roster4
           (fun _ => 0%N) response)
  ∧ (∀ e,
       generate_schedule (fun l => l) 10 seed_tape "example_data/animals.csv"
         (Some (ok roster4)) (mkRequest [] 1 1 2 None false) (fun _ => 0%N)
       = raise e →
       e = HTTPException 500 (str_exn RecursionError)).
Proof.
  apply (generate_schedule_empty_roster (fun l => l) 10 seed_tape
           "example_data/animals.csv" (Some (ok roster4))
           (mkRequest [] 1 1 2 None false) (fun _ => 0%N)).
  - done.
  - by left.
Defined.

(** ** The Excel export of the backend *)

Lemma string_length_app (s t : string) :
  String.length (s +:+ t) = (String.length s + String.length t)%nat.
Proof. induction s as [|c s IH]; simpl; [done|]. by rewrite IH. Qed.

Lemma string_app_inj_suffix (a b s t : string) :
  String.length s = String.length t → a +:+ s = b +:+ t → a = b.
Proof.
  revert b. induction a as [|c a IH]; intros [|c' b] Hlen Heq.
  - done.
  - apply (f_equal String.length) in Heq.
    rewrite !string_length_app in Heq. simpl in Heq. lia.
  - apply (f_equal String.length) in Heq.
    rewrite !string_length_app in Heq. simpl in Heq. lia.
  - simpl in Heq. injection Heq as -> Heq. f_equal. by apply IH.
Qed.

Lemma string_app_inj_prefix (a s t : string) : a +:+ s = a +:+ t → s = t.
Proof.
  induction a as [|c a IH]; simpl; [done|]. intros [= H]. by apply IH.
Qed.

(** the two types of a day *)
Definition day_type (s : string) : Prop := s = "Learning" ∨ s = "Reversal".

Lemma sheet_name_inj (t1 t2 : DayTable) :
  day_type (type t1) → day_type (type t2) →
  sheet_name t1 = sheet_name t2 → day t1 = day t2.
Proof.
  unfold sheet_name. intros H1 H2 Heq.
  apply string_app_inj_prefix in Heq.
  apply (inj pretty).
  apply (string_app_inj_suffix _ _ ("_" +:+ type t1) ("_" +:+ type t2)); [|done].
  by destruct H1 as [-> | ->], H2 as [-> | ->].
Qed.

(** [export_excel] writes the tables that [generate_schedule] returns
    for the same request and the same state of the generator. *)
Lemma export_excel_generate_schedule (set_order : list string → list string)
    (frames : nat) (seed_state : Z → Random.state) (path : string)
    (example_file : option (result (list Animal)))
    (request : ScheduleRequest) (g : Random.state) :
  export_excel set_order frames seed_state path example_file request g
  = match generate_schedule set_order frames seed_state path example_file request g with
    | inl e => inl e
    | inr (response, g') => inr (write_sheets (day_tables response), g')
    end.
Proof.
  unfold export_excel, generate_schedule, export_excel_body, generate_schedule_body.
  lazymatch goal with
  | |- match rbind ?m _ with _ => _ end = _ => destruct m as [e|animal_data]
  end; cbn [rbind ok].
  - by destruct e.
  - destruct (bool_decide (animal_data = [])); [done|].
    destruct (assign_balanced_exit_arms animal_data _) as [m g0].
    destruct (generate_day_tables set_order frames animal_data _ _ _ m g0) as [e|[tables g1]];
      cbn [rbind ok]; [by destruct e|done].
Qed.

(** the sheets of a workbook: titles that differ, and rows as wide as
    the columns *)
Definition workbook_ok (sheets : list Sheet) : Prop :=
  NoDup (sheet_title <$> sheets)
  ∧ ∀ sheet row, sheet ∈ sheets → row ∈ data sheet →
                 length row = length (columns sheet).

(** X16: For a request with a non-empty roster, [export_excel] writes one
    sheet per table of the response that [generate_schedule] gives for
    the same request and state of the generator; the titles of the
    sheets are pairwise different, and every row is as wide as the
    columns of its sheet.  The sheets are written when the interpreter
    has more frames left for the search of a trial sequence than a day
    has trials. *)
Theorem export_excel_sheets (set_order : list string → list string)
    (frames : nat) (seed_state : Z → Random.state) (path : string)
    (example_file : option (result (list Animal)))
    (request : ScheduleRequest) (g : Random.state) (animal_data : list Animal) :
  (∀ l, NoDup l → set_order l ≡ₚ l) →
  request_animals example_file request = Some (ok animal_data) →
  animal_data ≠ [] →
  (Z.to_nat (trials_per_day request) < frames)%nat →
  ∃ response g',
    generate_schedule set_order frames seed_state path example_file request g
    = ok (response, g')
    ∧ export_excel set_order frames seed_state path example_file request g
      = ok (write_sheets (day_tables response), g')
    ∧ workbook_ok (write_sheets (day_tables response)).
Proof.
  intros Hset Hdata Hne Hfr.
  pose proof (generate_schedule_cases set_order frames seed_state path example_file
                request g Hset) as H.
  unfold schedule_cases in H.
  rewrite Hdata in H. destruct animal_data as [|a0 rest]; [done|].
  destruct H as [H _]. specialize (H Hfr).
  destruct H as (response & g' & Hr & _ & _ & _ & Hspec & _ & Hrows).
  exists response, g'. split; [done|]. split.
  { by rewrite export_excel_generate_schedule, Hr. }
  destruct Hspec as [_ Hdays]. split.
  - apply NoDup_alt. intros i j title Hi Hj.
    unfold write_sheets in Hi, Hj.
    rewrite list_lookup_fmap in Hi. rewrite list_lookup_fmap in Hj.
    change (map ?f ?l) with (f <$> l) in Hi, Hj.
    rewrite list_lookup_fmap in Hi. rewrite list_lookup_fmap in Hj.
    destruct (day_tables response !! i) as [t1|] eqn:E1; [|done].
    destruct (day_tables response !! j) as [t2|] eqn:E2; [|done].
    simpl in Hi, Hj. injection Hi as Hi. injection Hj as Hj.
    destruct (Hdays i t1 E1) as (Hd1 & Ht1 & _).
    destruct (Hdays j t2 E2) as (Hd2 & Ht2 & _).
    assert (day t1 = day t2) as Hd; [|lia].
    apply sheet_name_inj; [| |congruence].
    + rewrite Ht1. unfold day_type. destruct (Z.of_nat i <? _); [by left|by right].
    + rewrite Ht2. unfold day_type. destruct (Z.of_nat j <? _); [by left|by right].
  - intros sheet row Hsheet Hrow. unfold write_sheets in Hsheet.
    apply list_elem_of_fmap in Hsheet as (t & -> & Ht). simpl in *.
    by destruct (Hrows t row Ht Hrow) as [Hlen _].
Qed.

Lemma export_excel_sheets_witness :
  ∃ response g',
    generate_schedule (fun l => l) 10 seed_tape "example_data/animals.csv" None
      (mkRequest roster6 2 1 3 (Some 7) false) (fun _ => 0%N) = ok (response, g')
    ∧ export_excel (fun l => l) 10 seed_tape "example_data/animals.csv" None
        (mkRequest roster6 2 1 3 (Some 7) false) (fun _ => 0%N)
      = ok (write_sheets (day_tables response), g')
    ∧ workbook_ok (write_sheets (day_tables response)).
Proof.
  apply (export_excel_sheets (fun l => l) 10 seed_tape "example_data/animals.csv" None
           (mkRequest roster6 2 1 3 (Some 7) false) (fun _ => 0%N) roster6);
    [done|reflexivity|done|simpl; lia].
Defined.

(** ** The tables of the desktop application *)

(** a table of the backend as the desktop application stores it: the
    rows with the header first, and the text *)
Definition table_data (t : DayTable) : list (list cell) :=
  map CStr (header t) :: rows t.

Definition table_text (t : DayTable) : string :=
  join newline
    (("Day " +:+ pretty (day t) +:+ " (" +:+ type t +:+ "):")
       :: join tab (header t)
       :: map (fun r => join tab (map str r)) (rows t)).

Definition desktop_view (r : result (list DayTable * Random.state))
  : result (list (list (list cell)) * list string * Random.state) :=
  match r with
  | inl e => inl e
  | inr (tables, g) => inr (map table_data tables, map table_text tables, g)
  end.

Lemma desktop_day_table (set_order : list string → list string)
    (frames : nat)
    (animal_data : list Animal) (learning_days n_trials : Z)
    (exit_arm_map : gmap string Z) (d : Z) (g : Random.state) :
  Desktop.day_table set_order frames animal_data learning_days n_trials exit_arm_map d g
  = match day_table set_order frames animal_data learning_days n_trials exit_arm_map d g with
    | inl e => inl e
    | inr (t, g') => inr (table_data t, table_text t, g')
    end.
Proof.
  unfold Desktop.day_table, day_table.
  lazymatch goal with
  | |- rbind ?m _ = _ => destruct m as [e|[animals_today per_day_exit]]
  end; cbn [rbind ok]; [done|].
  destruct (day_rows frames _ n_trials exit_arm_map per_day_exit animals_today g)
    as [e|[rs g']]; cbn [rbind ok]; [done|].
  unfold table_data, table_text. cbn [header rows day type].
  by destruct (d <? learning_days).
Qed.

Lemma desktop_day_tables_for (set_order : list string → list string)
    (frames : nat)
    (animal_data : list Animal) (learning_days n_trials : Z)
    (exit_arm_map : gmap string Z) (days : list Z) (g : Random.state) :
  Desktop.day_tables_for set_order frames animal_data learning_days n_trials exit_arm_map days g
  = desktop_view
      (day_tables_for set_order frames animal_data learning_days n_trials exit_arm_map days g).
Proof.
  revert g. induction days as [|d days IH]; intros g; [done|].
  cbn [Desktop.day_tables_for day_tables_for]. rewrite desktop_day_table.
  destruct (day_table set_order frames animal_data learning_days n_trials exit_arm_map d g)
    as [e|[t g1]]; cbn [rbind ok]; [done|].
  rewrite IH.
  destruct (day_tables_for set_order frames animal_data learning_days n_trials exit_arm_map
              days g1) as [e|[tables g2]]; cbn [rbind ok desktop_view]; done.
Qed.

(** X17: The desktop application and the backend build the same tables:
    for the same arguments and the same state of the generator,
    [generate_day_tables] of src/code.py fails when the one of the
    backend fails, with the same exception, and otherwise returns its
    tables, each as the list of its header and its rows and as text,
    and leaves the generator in the same state. *)
Theorem desktop_generate_day_tables (set_order : list string → list string)
    (frames : nat)
    (animal_data : list Animal) (learning_days reversal_days n_trials : Z)
    (exit_arm_map : gmap string Z) (g : Random.state) :
  Desktop.generate_day_tables set_order frames animal_data learning_days reversal_days
    n_trials exit_arm_map g
  = desktop_view
      (generate_day_tables set_order frames animal_data learning_days reversal_days
         n_trials exit_arm_map g).
Proof.
  unfold Desktop.generate_day_tables, generate_day_tables.
  destruct (learning_days + reversal_days <=? 0); [done|].
  apply desktop_day_tables_for.
Qed.

Lemma desktop_tables_view (set_order : list string → list string)
    (frames : nat)
    (animal_data : list Animal) (learning_days reversal_days n_trials : Z)
    (exit_arm_map : gmap string Z) (g : Random.state) :
  Desktop.generate_day_tables set_order frames animal_data learning_days reversal_days
    n_trials exit_arm_map g
  = desktop_view
      (generate_day_tables set_order frames animal_data learning_days reversal_days
         n_trials exit_arm_map g).
Proof.
  unfold Desktop.generate_day_tables, generate_day_tables.
  destruct (learning_days + reversal_days <=? 0); [done|].
  apply desktop_day_tables_for.
Qed.

(** ** The combined CSV *)

Global Instance cell_eq_dec : EqDecision cell.
Proof. solve_decision. Defined.

(** the rows of day [k] read back from the rows of the combined CSV:
    the rows that start with [k], without this first cell *)
Definition read_day (k : Z) (csv_rows : list (list cell)) : list (list cell) :=
  map (drop 1) (filter (fun row => head row = Some (CInt k)) csv_rows).

Lemma read_day_app (k : Z) (l1 l2 : list (list cell)) :
  read_day k (l1 ++ l2) = read_day k l1 ++ read_day k l2.
Proof. unfold read_day. by rewrite filter_app, map_app. Qed.

Lemma read_day_prefixed (k start : Z) (rows_1 : list (list cell)) :
  read_day k (map (fun row => CInt start :: row) rows_1)
  = if decide (k = start) then rows_1 else [].
Proof.
  unfold read_day. induction rows_1 as [|row rows_1 IH]; simpl.
  - by destruct (decide (k = start)).
  - rewrite filter_cons. simpl.
    destruct (decide (k = start)) as [->|Hne].
    + rewrite decide_True by done. simpl. by rewrite IH.
    + rewrite decide_False by congruence. exact IH.
Qed.

Lemma combined_rows_spec (start : Z) (day_tables_data : list (list (list cell))) :
  1 ≤ start → Forall (fun table => table ≠ []) day_tables_data →
  ∃ csv_rows,
    Desktop.combined_rows start day_tables_data = Some csv_rows
    ∧ (∀ (i : nat) table, day_tables_data !! i = Some table →
         read_day (start + Z.of_nat i) csv_rows = drop 1 table)
    ∧ (∀ k, k < start → read_day k csv_rows = [])
    ∧ (start = 1 → ∀ table rest, day_tables_data = table :: rest →
         head csv_rows = Some (CStr "Day" :: default [] (head table))).
Proof.
  intros Hstart Hne. revert start Hstart.
  induction Hne as [|table rest Htable _ IH]; intros start Hstart.
  - exists []. split; [done|]. split; [done|]. split; [done|]. done.
  - destruct table as [|rows_0 rows_1]; [done|].
    destruct (IH (start + 1) ltac:(lia)) as (more & Hmore & Hread & Hnone & _).
    cbn [Desktop.combined_rows]. rewrite Hmore.
    eexists. split; [reflexivity|]. split; [|split].
    + intros i t Hi. rewrite !read_day_app, read_day_prefixed.
      assert (read_day (start + Z.of_nat i)
                (if start =? 1 then [CStr "Day" :: rows_0] else []) = []) as ->.
      { by destruct (start =? 1). }
      destruct i as [|i]; simpl in Hi.
      * injection Hi as <-. rewrite decide_True by lia.
        rewrite (Hnone (start + Z.of_nat 0)) by lia. by rewrite app_nil_r.
      * rewrite decide_False by lia.
        replace (start + Z.of_nat (S i)) with (start + 1 + Z.of_nat i) by lia.
        by rewrite (Hread i t Hi).
    + intros k Hk. rewrite !read_day_app, read_day_prefixed.
      rewrite decide_False by lia. rewrite (Hnone k) by lia.
      by destruct (start =? 1).
    + intros -> t rest' [= <- <-]. done.
Qed.

Lemma generate_day_tables_headers (set_order : list string → list string)
    (frames : nat)
    (animal_data : list Animal) (learning_days reversal_days n_trials : Z)
    (exit_arm_map : gmap string Z) (g g' : Random.state) (tables : list DayTable) :
  generate_day_tables set_order frames animal_data learning_days reversal_days n_trials
    exit_arm_map g = ok (tables, g') →
  Forall (fun t => header t = header_of n_trials) tables.
Proof.
  unfold generate_day_tables.
  destruct (learning_days + reversal_days <=? 0); [by intros [= <- _]|].
  generalize (range (learning_days + reversal_days)). intros days.
  revert g g' tables. induction days as [|d days IH]; intros g g' tables.
  - by intros [= <- _].
  - cbn [day_tables_for].
    destruct (day_table set_order frames animal_data learning_days n_trials exit_arm_map d g)
      as [e|[t g1]] eqn:Et; cbn [rbind ok]; [done|].
    destruct (day_tables_for set_order frames animal_data learning_days n_trials exit_arm_map
                days g1) as [e|[ts g2]] eqn:Ets; cbn [rbind ok]; [done|].
    intros [= <- _]. constructor; [|by eapply IH].
    unfold day_table in Et.
    lazymatch type of Et with
    | rbind ?m _ = _ => destruct m as [e|[animals_today per_day_exit]]
    end; cbn [rbind ok] in Et; [done|].
    destruct (day_rows frames _ n_trials exit_arm_map per_day_exit animals_today g)
      as [e|[rows g1']]; cbn [rbind ok] in Et; [done|].
    by injection Et as <- _.
Qed.

(** the tables of a result of the desktop [generate_day_tables] *)
Definition stored_tables
    (r : result (list (list (list cell)) * list string * Random.state))
  : list (list (list cell)) :=
  match r with
  | inr (day_tables_data, _, _) => day_tables_data
  | inl _ => []
  end.

(** the rows of the tables without their headers, each with the number
    of its day in front; the days count from [start] *)
Fixpoint numbered_rows (start : Z) (day_tables_data : list (list (list cell)))
  : list (list cell) :=
  match day_tables_data with
  | [] => []
  | table :: rest =>
      map (fun row => CInt start :: row) (drop 1 table)
        ++ numbered_rows (start + 1) rest
  end.

Lemma combined_rows_rows (start : Z) (day_tables_data : list (list (list cell))) :
  1 ≤ start → Forall (fun table => table ≠ []) day_tables_data →
  Desktop.combined_rows start day_tables_data
  = Some ((if start =? 1
           then match day_tables_data with
                | table :: _ => [CStr "Day" :: default [] (head table)]
                | [] => []
                end
           else [])
            ++ numbered_rows start day_tables_data).
Proof.
  intros Hstart Hne. revert start Hstart.
  induction Hne as [|table rest Htable _ IH]; intros start Hstart.
  - by destruct (start =? 1).
  - destruct table as [|rows_0 rows_1]; [done|].
    cbn [Desktop.combined_rows numbered_rows]. rewrite IH by lia.
    destruct (Z.eqb_spec (start + 1) 1) as [|_]; [lia|].
    cbn [head default drop app]. unfold id.
    by rewrite drop_0, <- app_assoc.
Qed.

(** what the combined CSV holds for the tables [day_tables_data]: the
    header with "Day" in front as its first row, and no other time;
    then the rows of the days in their order, each with the number of
    its day in front; so the rows of day k are read back as the rows
    that start with k *)
Definition combined_csv_ok (n_trials : Z) (day_tables_data : list (list (list cell)))
    (csv_rows : list (list cell)) : Prop :=
  csv_rows
  = (CStr "Day" :: map CStr (header_of n_trials)) :: numbered_rows 1 day_tables_data
  ∧ ∀ (i : nat) table, day_tables_data !! i = Some table →
      read_day (Z.of_nat i + 1) csv_rows = drop 1 table.

(** X18: Exporting the tables that [generate_day_tables] returned to a
    chosen path writes exactly these rows: first the header with "Day"
    in front, once; then, day after day, the rows of the day in their
    order, each with the number of its day in front.  So the rows of
    day k can be read back as the rows that start with k. *)
Theorem on_export_one_csv_round_trip (set_order : list string → list string)
    (frames : nat)
    (animal_data : list Animal) (learning_days reversal_days n_trials : Z)
    (exit_arm_map : gmap string Z) (g : Random.state)
    (day_tables_data : list (list (list cell))) (save_path : string) :
  stored_tables (Desktop.generate_day_tables set_order frames animal_data learning_days
                   reversal_days n_trials exit_arm_map g) = day_tables_data →
  day_tables_data ≠ [] → save_path ≠ "" →
  ∃ csv_rows,
    Desktop.on_export_one_csv (Some day_tables_data) save_path
    = Desktop.Written save_path csv_rows
    ∧ combined_csv_ok n_trials day_tables_data csv_rows.
Proof.
  intros Hgen Hne Hpath.
  rewrite desktop_tables_view in Hgen.
  destruct (generate_day_tables set_order frames animal_data learning_days reversal_days
              n_trials exit_arm_map g) as [e|[tables g']] eqn:Eg;
    cbn [desktop_view stored_tables] in Hgen; [congruence|].
  pose proof (generate_day_tables_headers _ _ _ _ _ _ _ _ _ _ Eg) as Hheaders.
  subst day_tables_data.
  assert (Forall (fun table => table ≠ []) (map table_data tables)) as Hfull.
  { apply Forall_forall. intros t Ht. apply list_elem_of_fmap in Ht as (? & -> & _). done. }
  destruct (combined_rows_spec 1 (map table_data tables)) as (csv & Hcsv & Hread & _ & _);
    [lia|done|].
  pose proof (combined_rows_rows 1 (map table_data tables) ltac:(lia) Hfull) as Hrows.
  rewrite Hcsv in Hrows. injection Hrows as Hrows.
  assert (csv = (CStr "Day" :: map CStr (header_of n_trials))
                  :: numbered_rows 1 (map table_data tables)) as Heq.
  { rewrite Hrows. destruct tables as [|t tables]; [done|].
    apply Forall_cons in Hheaders as [Hh _].
    cbn [Z.eqb Pos.eqb map table_data head default app]. unfold id.
    by rewrite Hh. }
  exists csv. split.
  - unfold Desktop.on_export_one_csv.
    destruct (map table_data tables) as [|t0 rest] eqn:Et; [done|].
    rewrite bool_decide_eq_false_2 by done. by rewrite Hcsv.
  - split; [exact Heq|].
    intros i table Hi. rewrite <- (Hread i table Hi). f_equal. lia.
Qed.

Lemma on_export_one_csv_round_trip_witness :
  ∃ csv_rows,
    Desktop.on_export_one_csv
      (Some (stored_tables (Desktop.generate_day_tables (fun l => l) 10 roster4 1 1 2
                              (<["A1" := 1]> (<["A2" := 2]> (<["A3" := 3]>
                                 (<["A4" := 1]> ∅)))) (fun i => N.of_nat i))))
      "ymaze_all_days.csv"
    = Desktop.Written "ymaze_all_days.csv" csv_rows
    ∧ combined_csv_ok 2
        (stored_tables (Desktop.generate_day_tables (fun l => l) 10 roster4 1 1 2
                          (<["A1" := 1]> (<["A2" := 2]> (<["A3" := 3]>
                             (<["A4" := 1]> ∅)))) (fun i => N.of_nat i)))
        csv_rows.
Proof.
  apply (on_export_one_csv_round_trip (fun l => l) 10 roster4 1 1 2
           (<["A1" := 1]> (<["A2" := 2]> (<["A3" := 3]> (<["A4" := 1]> ∅))))
           (fun i => N.of_nat i)); [reflexivity| |done].
  vm_compute. discriminate.
Defined.

(** ** Normalised strings *)

Import Parser.

(** one of the four characters that [_norm_hyphens] replaces *)
Definition is_hyphen_variant (c : Z) : bool :=
  (c =? 8209) || (c =? 8211) || (c =? 8212) || (c =? 8722).

(** neither the first nor the last character is whitespace *)
Definition trimmed (s : list Z) : Prop :=
  (∀ c, head s = Some c → isspace c = false)
  ∧ (∀ c, last s = Some c → isspace c = false).

Definition hyphen_free (s : list Z) : Prop :=
  Forall (fun c => is_hyphen_variant c = false) s.

(** what the four replacements do to a character *)
Definition norm_char (c : Z) : Z := if is_hyphen_variant c then 45 else c.

Lemma replace_norm_char (s : list Z) :
  replace 8722 45 (replace 8212 45 (replace 8211 45 (replace 8209 45 s)))
  = map norm_char s.
Proof.
  unfold replace. rewrite !map_map. apply map_ext. intros c.
  unfold norm_char, is_hyphen_variant.
  destruct (Z.eqb_spec c 8209) as [->|H1]; [done|].
  destruct (Z.eqb_spec c 8211) as [->|H2]; [done|].
  destruct (Z.eqb_spec c 8212) as [->|H3]; [done|].
  destruct (Z.eqb_spec c 8722) as [->|H4]; [done|]. done.
Qed.

Lemma norm_char_hyphen_free (c : Z) : is_hyphen_variant (norm_char c) = false.
Proof.
  unfold norm_char. destruct (is_hyphen_variant c) eqn:E; [done|exact E].
Qed.

Lemma norm_char_id (c : Z) : is_hyphen_variant c = false → norm_char c = c.
Proof. unfold norm_char. by intros ->. Qed.

Lemma norm_char_space (c : Z) : isspace (norm_char c) = isspace c.
Proof.
  unfold norm_char, is_hyphen_variant.
  destruct (Z.eqb_spec c 8209) as [->|H1]; [done|].
  destruct (Z.eqb_spec c 8211) as [->|H2]; [done|].
  destruct (Z.eqb_spec c 8212) as [->|H3]; [done|].
  destruct (Z.eqb_spec c 8722) as [->|H4]; [done|]. done.
Qed.

Lemma lstrip_spec (s : list Z) :
  ∃ pre, s = pre ++ lstrip s
         ∧ Forall (fun c => isspace c = true) pre
         ∧ ∀ c, head (lstrip s) = Some c → isspace c = false.
Proof.
  induction s as [|c s (pre & Hs & Hpre & Hhd)].
  - exists []. done.
  - simpl. destruct (isspace c) eqn:Ec.
    + exists (c :: pre). split; [by rewrite Hs at 1|]. split; [by constructor|done].
    + exists []. split; [done|]. split; [done|]. by intros c' [= <-].
Qed.

Lemma lstrip_id (s : list Z) :
  (∀ c, head s = Some c → isspace c = false) → lstrip s = s.
Proof. destruct s as [|c s]; [done|]. intros H. simpl. by rewrite (H c). Qed.

Lemma last_rev {A : Type} (l : list A) : last (rev l) = head l.
Proof. by rewrite <- rev_head_last_opt, rev_involutive. Qed.

Lemma rstrip_spec (s : list Z) :
  ∃ post, s = rstrip s ++ post
          ∧ Forall (fun c => isspace c = true) post
          ∧ ∀ c, last (rstrip s) = Some c → isspace c = false.
Proof.
  unfold rstrip. destruct (lstrip_spec (rev s)) as (pre & Hs & Hpre & Hhd).
  exists (rev pre). split; [|split].
  - rewrite <- rev_app_distr, <- Hs. by rewrite rev_involutive.
  - by apply Forall_rev.
  - intros c. rewrite last_rev. apply Hhd.
Qed.

Lemma rstrip_id (s : list Z) :
  (∀ c, last s = Some c → isspace c = false) → rstrip s = s.
Proof.
  intros H. unfold rstrip. rewrite lstrip_id; [apply rev_involutive|].
  intros c. rewrite rev_head_last_opt. apply H.
Qed.

Lemma strip_spec (s : list Z) :
  ∃ pre post, s = pre ++ strip s ++ post
              ∧ Forall (fun c => isspace c = true) pre
              ∧ Forall (fun c => isspace c = true) post
              ∧ trimmed (strip s).
Proof.
  unfold strip.
  destruct (lstrip_spec s) as (pre & Hs & Hpre & Hhd).
  destruct (rstrip_spec (lstrip s)) as (post & Ht & Hpost & Hlast).
  exists pre, post. split; [by rewrite <- Ht|]. split; [done|]. split; [done|].
  split; [|done].
  intros c Hc. apply Hhd. rewrite Ht.
  destruct (rstrip (lstrip s)); [done|exact Hc].
Qed.

Lemma strip_id (s : list Z) : trimmed s → strip s = s.
Proof.
  intros [Hhd Hlast]. unfold strip. rewrite (lstrip_id s Hhd). by apply rstrip_id.
Qed.

Lemma strip_elem (s : list Z) (c : Z) : c ∈ strip s → c ∈ s.
Proof.
  destruct (strip_spec s) as (pre & post & Hs & _). intros Hc.
  rewrite Hs, !elem_of_app. auto.
Qed.

(** a string in normal form: no variant of the hyphen, no whitespace
    at its ends *)
Definition normal (s : list Z) : Prop := hyphen_free s ∧ trimmed s.

Lemma _norm_hyphens_map (s : list Z) : _norm_hyphens s = strip (map norm_char s).
Proof. unfold _norm_hyphens. by rewrite replace_norm_char. Qed.

Lemma _norm_hyphens_normal (s : list Z) : normal (_norm_hyphens s).
Proof.
  rewrite _norm_hyphens_map. split.
  - apply Forall_forall. intros c Hc. apply strip_elem in Hc.
    change (map norm_char s) with (norm_char <$> s) in Hc.
    apply list_elem_of_fmap in Hc as (c' & -> & _). apply norm_char_hyphen_free.
  - by destruct (strip_spec (map norm_char s)) as (? & ? & _ & _ & _ & ?).
Qed.

Lemma _norm_hyphens_id (s : list Z) : normal s → _norm_hyphens s = s.
Proof.
  intros [Hfree Htrim]. rewrite _norm_hyphens_map.
  assert (map norm_char s = s) as ->; [|by apply strip_id].
  clear Htrim. induction Hfree as [|c s Hc _ IH]; [done|].
  simpl. by rewrite norm_char_id, IH.
Qed.

(** X19: [_norm_hyphens] returns a string in normal form: none of the
    characters U+2011, U+2013, U+2014 and U+2212 is left and no
    whitespace stands at its ends.  It changes nothing in a string in
    normal form, so applying it twice is applying it once. *)
Theorem norm_hyphens_idempotent (s : list Z) :
  normal (_norm_hyphens s)
  ∧ _norm_hyphens (_norm_hyphens s) = _norm_hyphens s
  ∧ (_norm_hyphens s = s ↔ normal s).
Proof.
  pose proof (_norm_hyphens_normal s) as Hn.
  split; [done|]. split; [by apply _norm_hyphens_id|].
  split; [intros <-; done|apply _norm_hyphens_id].
Qed.

(** ** The records of the parser *)

(** a word: not empty, and without whitespace *)
Definition word (t : list Z) : Prop :=
  t ≠ [] ∧ Forall (fun c => isspace c = false) t.

Lemma split_from_words (cur s : list Z) :
  Forall (fun c => isspace c = false) cur → Forall word (split_from cur s).
Proof.
  revert cur. induction s as [|c s IH]; intros cur Hcur; simpl.
  - destruct cur; [constructor|]. constructor; [by split|constructor].
  - destruct (isspace c) eqn:Ec.
    + destruct cur as [|c0 cur0]; [by apply IH|].
      constructor; [by split|by apply IH].
    + apply IH. apply Forall_app. split; [done|]. by constructor.
Qed.

Lemma split_words (s : list Z) : Forall word (split s).
Proof. by apply split_from_words. Qed.

Lemma find_sex_Some (i k : nat) (tokens : list (list Z)) :
  find_sex i tokens = Some k →
  (i ≤ k)%nat
  ∧ (∃ t, tokens !! (k - i)%nat = Some t ∧ is_sex t = true)
  ∧ Forall (fun t => is_sex t = false) (take (k - i) tokens).
Proof.
  revert i. induction tokens as [|t tokens IH]; intros i; simpl; [done|].
  destruct (is_sex t) eqn:Et.
  - intros [= <-]. replace (i - i)%nat with 0%nat by lia.
    split; [lia|]. split; [by exists t|constructor].
  - intros H. destruct (IH _ H) as (Hle & (t' & Ht' & Hsex) & Hbefore).
    split; [lia|].
    replace (k - i)%nat with (S (k - S i)) by lia. split; [by exists t'|].
    simpl. by constructor.
Qed.

Lemma norm_word (t : list Z) :
  word t → _norm_hyphens t = map norm_char t ∧ word (map norm_char t).
Proof.
  intros [Hne Hns].
  assert (Forall (fun c => isspace c = false) (map norm_char t)) as Hns'.
  { clear Hne. induction Hns as [|c t Hc _ IH]; [constructor|].
    simpl. constructor; [by rewrite norm_char_space|done]. }
  split; [|split; [by destruct t|done]].
  rewrite _norm_hyphens_map. apply strip_id. split.
  - intros c Hc. apply head_Some in Hc as [l' Hl']. rewrite Hl' in Hns'.
    by apply Forall_cons in Hns' as [? _].
  - intros c Hc. apply last_Some in Hc as [l' Hl']. rewrite Hl' in Hns'.
    apply Forall_app in Hns' as [_ Hns']. by apply Forall_cons in Hns' as [? _].
Qed.

Lemma utf8_nil (s : list Z) : utf8 s = "" ↔ s = [].
Proof.
  split; [|by intros ->]. destruct s as [|c s]; [done|].
  unfold utf8, utf8_char. simpl.
  by destruct (c <? 128), (c <? 2048), (c <? 65536).
Qed.

Lemma is_sex_utf8 (t : list Z) :
  is_sex t = true → utf8 (_norm_hyphens t) = "Male" ∨ utf8 (_norm_hyphens t) = "Female".
Proof.
  unfold is_sex. intros H. apply orb_true_iff in H as [H|H];
    apply bool_decide_eq_true in H; subst t; [by left|by right].
Qed.

(** a record as the parser returns it *)
Definition parsed_ok (d : Animal) : Prop :=
  (Sex d = "Male" ∨ Sex d = "Female")
  ∧ AnimalID d ≠ "" ∧ Genotype d ≠ "" ∧ Cage d ≠ ""
  ∧ ∃ animal_id tag genotype cage,
      AnimalID d = utf8 animal_id ∧ Tag d = utf8 tag
      ∧ Genotype d = utf8 genotype ∧ Cage d = utf8 cage
      ∧ word animal_id ∧ word cage
      ∧ normal animal_id ∧ normal tag ∧ normal genotype ∧ normal cage.

Lemma parse_line_ok (raw : list Z) (d : Animal) :
  parse_line raw = Some d → parsed_ok d.
Proof.
  unfold parse_line.
  destruct (bool_decide (strip raw = [])); [done|].
  destruct (contains _ _ && contains _ _); [done|].
  pose proof (split_words (strip raw)) as Hwords.
  generalize dependent (split (strip raw)). intros tokens Hwords.
  destruct (Nat.ltb_spec (length tokens) 4) as [|Hlen]; [done|].
  destruct (find_sex 0 tokens) as [sex_idx|] eqn:Hsex; [|done].
  destruct (Nat.ltb_spec sex_idx 1) as [|Hidx]; [done|].
  destruct (Nat.ltb_spec (length tokens) (sex_idx + 2)) as [|Hlen2]; [done|].
  cbn [orb].
  apply find_sex_Some in Hsex as (_ & (sex & Hsex & His_sex) & _).
  rewrite Nat.sub_0_r in Hsex. rewrite Hsex. cbn [default].
  destruct (tokens !! 0%nat) as [animal_id|] eqn:Hid;
    [|apply lookup_ge_None in Hid; lia].
  destruct (last tokens) as [cage|] eqn:Hcage;
    [|apply last_None in Hcage; rewrite Hcage in Hlen; simpl in Hlen; lia].
  cbn [default Genotype Cage]. unfold id.
  destruct (bool_decide (utf8 _ = "")) eqn:Eg; [done|].
  destruct (bool_decide (utf8 (_norm_hyphens cage) = "")) eqn:Ec; cbn [orb]; [done|].
  intros [= <-].
  apply bool_decide_eq_false in Eg, Ec.
  pose proof (Forall_lookup_1 _ _ _ _ Hwords Hid) as Hw_id.
  assert (word cage) as Hw_cage.
  { rewrite last_lookup in Hcage. by apply (Forall_lookup_1 _ _ _ _ Hwords Hcage). }
  destruct (norm_word _ Hw_id) as [Hn_id Hw_id'].
  destruct (norm_word _ Hw_cage) as [Hn_cage Hw_cage'].
  split; [by apply is_sex_utf8|]. cbn [AnimalID Tag Sex Genotype Cage].
  split. { rewrite utf8_nil, Hn_id. by destruct Hw_id'. }
  split; [done|]. split; [done|].
  eexists _, _, _, _. split; [reflexivity|]. split; [reflexivity|].
  split; [reflexivity|]. split; [reflexivity|].
  split; [by rewrite Hn_id|]. split; [by rewrite Hn_cage|].
  repeat split; apply _norm_hyphens_normal.
Qed.

(** X20: Every record that [parse_animal_data] returns has the sex "Male"
    or "Female" and an AnimalID, a genotype and a cage that are not
    empty; the AnimalID and the cage hold no whitespace; and no field
    holds a variant of the hyphen or starts or ends with whitespace. *)
Theorem parse_animal_data_records (text : list Z) (d : Animal) :
  d ∈ parse_animal_data text → parsed_ok d.
Proof.
  unfold parse_animal_data. intros Hd.
  apply list_elem_of_omap in Hd as (line & _ & Hline).
  by apply parse_line_ok in Hline.
Qed.

Lemma parse_animal_data_records_witness :
  parsed_ok (mkAnimal "A-1" "left ear" "Female" "IL-17 KO" "C2").
Proof.
  apply (parse_animal_data_records
           (literal "AnimalID  Tag  Sex  Genotype  Cage" ++ [10]
              ++ [65; 8211; 49; 9] ++ literal "left ear" ++ [9]
              ++ literal "Female" ++ [9] ++ literal "IL" ++ [8209]
              ++ literal "17 KO" ++ [9; 160] ++ literal "C2" ++ [13; 10])).
  vm_compute. left.
Defined.

(** ** Parsing a formatted line *)

Lemma split_from_word (cur w s : list Z) :
  Forall (fun c => isspace c = false) w →
  split_from cur (w ++ s) = split_from (cur ++ w) s.
Proof.
  intros Hw. revert cur. induction Hw as [|c w Hc _ IH]; intros cur.
  - by rewrite app_nil_r.
  - simpl. rewrite Hc, IH, <- app_assoc. done.
Qed.

Lemma split_from_spaces (sep s : list Z) :
  Forall (fun c => isspace c = true) sep →
  split_from [] (sep ++ s) = split_from [] s.
Proof.
  induction 1 as [|c sep Hc _ IH]; [done|]. simpl. by rewrite Hc.
Qed.

Lemma split_from_sep (cur sep s : list Z) :
  cur ≠ [] → sep ≠ [] → Forall (fun c => isspace c = true) sep →
  split_from cur (sep ++ s) = cur :: split_from [] s.
Proof.
  intros Hcur Hsep Hws. destruct Hws as [|c sep Hc Hws]; [done|].
  simpl. rewrite Hc. destruct cur; [done|]. by rewrite split_from_spaces.
Qed.

Lemma join_head (sep w : list Z) (words : list (list Z)) :
  w ≠ [] → head (join sep (w :: words)) = head w.
Proof. intros Hw. destruct w; [done|]. by destruct words. Qed.

Lemma join_last (sep : list Z) (words : list (list Z)) (w : list Z) :
  w ≠ [] → last (join sep (words ++ [w])) = last w.
Proof.
  intros Hw. induction words as [|w0 words IH]; [done|].
  destruct (words ++ [w]) as [|w1 rest] eqn:E; [by destruct words|].
  change (join sep ((w0 :: words) ++ [w])) with (join sep (w0 :: words ++ [w])).
  rewrite E. change (join sep (w0 :: w1 :: rest)) with (w0 ++ sep ++ join sep (w1 :: rest)).
  rewrite !last_app. rewrite IH.
  destruct (last w) eqn:El; [done|]. apply last_None in El. done.
Qed.

Lemma join_trimmed (sep : list Z) (words : list (list Z)) :
  Forall word words → trimmed (join sep words).
Proof.
  intros Hwords. split.
  - destruct Hwords as [|w words [Hne Hw] _]; [done|].
    intros c. rewrite join_head by done. intros Hc.
    apply head_Some in Hc as [l' ->]. by apply Forall_cons in Hw as [? _].
  - destruct words as [|w0 words0] using rev_ind; [done|]. clear IHwords0.
    apply Forall_app in Hwords as [_ Hw]. apply Forall_cons in Hw as [[Hne Hw] _].
    intros c. rewrite join_last by done. intros Hc.
    apply last_Some in Hc as [l' ->].
    apply Forall_app in Hw as [_ Hw]. by apply Forall_cons in Hw as [? _].
Qed.

Lemma join_norm (words : list (list Z)) :
  map norm_char (join [32] words) = join [32] (map (map norm_char) words).
Proof.
  induction words as [|w words IH]; [done|].
  destruct words as [|w' words]; [done|].
  change (join [32] (w :: w' :: words)) with (w ++ [32] ++ join [32] (w' :: words)).
  rewrite !map_app, IH. done.
Qed.

Lemma map_norm_word (w : list Z) : word w → word (map norm_char w).
Proof. intros Hw. by destruct (norm_word w Hw). Qed.

Lemma _norm_hyphens_join (words : list (list Z)) :
  Forall word words →
  _norm_hyphens (strip (join [32] words)) = join [32] (map (map norm_char) words).
Proof.
  intros Hwords.
  rewrite (strip_id (join [32] words)) by (by apply join_trimmed).
  rewrite _norm_hyphens_map, join_norm. apply strip_id, join_trimmed.
  apply Forall_forall. intros w Hw.
  change (map (map norm_char) words) with (map norm_char <$> words) in Hw.
  apply list_elem_of_fmap in Hw as (w' & -> & Hw').
  apply map_norm_word. by eapply Forall_forall in Hwords.
Qed.

Lemma find_sex_app (i : nat) (before : list (list Z)) (sex : list Z)
    (after : list (list Z)) :
  Forall (fun t => is_sex t = false) before → is_sex sex = true →
  find_sex i (before ++ sex :: after) = Some (i + length before)%nat.
Proof.
  intros Hbefore Hsex. revert i.
  induction Hbefore as [|t before Ht _ IH]; intros i; simpl.
  - rewrite Hsex. f_equal. lia.
  - rewrite Ht, IH. f_equal. lia.
Qed.

(** [tokens] with the whitespace [seps] between them, one separator
    after every token but the last *)
Fixpoint interleave (tokens seps : list (list Z)) : list Z :=
  match tokens with
  | [] => []
  | [t] => t
  | t :: tokens' =>
      match seps with
      | [] => t ++ interleave tokens' []
      | sep :: seps' => t ++ sep ++ interleave tokens' seps'
      end
  end.

(** whitespace between two tokens: one character or more, all of them
    whitespace *)
Definition gap (sep : list Z) : Prop :=
  sep ≠ [] ∧ Forall (fun c => isspace c = true) sep.

Lemma split_interleave (tokens seps : list (list Z)) :
  Forall word tokens → Forall gap seps → (length tokens ≤ S (length seps))%nat →
  split (interleave tokens seps) = tokens.
Proof.
  intros Hwords. unfold split. revert seps.
  induction Hwords as [|w words [Hne Hw] Hwords IH]; intros seps Hseps Hlen; [done|].
  destruct words as [|w' words].
  - pose proof (split_from_word [] w [] Hw) as H. rewrite app_nil_r in H.
    simpl. rewrite H. simpl. by destruct w.
  - destruct Hseps as [|sep seps [Hsep Hws] Hseps]; [simpl in Hlen; lia|].
    change (interleave (w :: w' :: words) (sep :: seps))
      with (w ++ sep ++ interleave (w' :: words) seps).
    rewrite split_from_word by done. rewrite app_nil_l.
    rewrite split_from_sep by done. rewrite IH; [done|done|simpl in *; lia].
Qed.

Lemma interleave_head (t : list Z) (tokens seps : list (list Z)) :
  t ≠ [] → head (interleave (t :: tokens) seps) = head t.
Proof. intros Ht. destruct t; [done|]. by destruct tokens, seps. Qed.

Lemma interleave_last (tokens seps : list (list Z)) (c : Z) :
  Forall word tokens →
  last (interleave tokens seps) = Some c → isspace c = false.
Proof.
  intros Hwords. revert seps.
  induction Hwords as [|w words [Hne Hw] Hwords IH]; intros seps; [done|].
  destruct words as [|w' words].
  - simpl. intros Hc. apply last_Some in Hc as [l' ->].
    apply Forall_app in Hw as [_ Hw]. by apply Forall_cons in Hw as [? _].
  - assert (∀ seps', last (interleave (w' :: words) seps') ≠ None) as Hsome.
    { intros seps' Hnone. apply last_None in Hnone.
      apply Forall_cons in Hwords as [[Hne' _] _].
      pose proof (interleave_head w' words seps' Hne') as Hhd.
      rewrite Hnone in Hhd. by destruct w'. }
    destruct seps as [|sep seps].
    + change (interleave (w :: w' :: words) [])
        with (w ++ interleave (w' :: words) []).
      rewrite last_app. specialize (Hsome []).
      destruct (last (interleave (w' :: words) [])) eqn:El; [|done].
      intros [= <-]. by eapply IH.
    + change (interleave (w :: w' :: words) (sep :: seps))
        with (w ++ sep ++ interleave (w' :: words) seps).
      rewrite !last_app. specialize (Hsome seps).
      destruct (last (interleave (w' :: words) seps)) eqn:El; [|done].
      intros [= <-]. by eapply IH.
Qed.

Lemma interleave_trimmed (tokens seps : list (list Z)) :
  Forall word tokens → trimmed (interleave tokens seps).
Proof.
  intros Hwords. split.
  - destruct Hwords as [|w words [Hne Hw] _]; [done|].
    intros c. rewrite interleave_head by done. intros Hc.
    apply head_Some in Hc as [l' ->]. by apply Forall_cons in Hw as [? _].
  - intros c. by apply interleave_last.
Qed.

Lemma lstrip_app (lead s : list Z) :
  Forall (fun c => isspace c = true) lead →
  (∀ c, head s = Some c → isspace c = false) →
  lstrip (lead ++ s) = s.
Proof.
  intros Hlead Hs. induction Hlead as [|c lead Hc _ IH]; [by apply lstrip_id|].
  simpl. by rewrite Hc.
Qed.

Lemma rstrip_app (s trail : list Z) :
  Forall (fun c => isspace c = true) trail →
  (∀ c, last s = Some c → isspace c = false) →
  rstrip (s ++ trail) = s.
Proof.
  intros Htrail Hs. unfold rstrip. rewrite rev_app_distr.
  rewrite lstrip_app; [apply rev_involutive|by apply Forall_rev|].
  intros c. rewrite rev_head_last_opt. apply Hs.
Qed.

(** whitespace around a line that starts and ends with a character of
    a token is stripped *)
Lemma strip_app (lead s trail : list Z) :
  Forall (fun c => isspace c = true) lead →
  Forall (fun c => isspace c = true) trail →
  s ≠ [] → trimmed s →
  strip (lead ++ s ++ trail) = s.
Proof.
  intros Hlead Htrail Hne [Hhd Hlast]. unfold strip.
  rewrite lstrip_app; [by apply rstrip_app|done|].
  intros c Hc. apply Hhd. by destruct s.
Qed.

(** the fields of a record, as the tokens of its line *)
Definition fields (animal_id : list Z) (tag_words : list (list Z))
    (sex : list Z) (genotype_words : list (list Z)) (cage : list Z)
  : list (list Z) :=
  [animal_id] ++ tag_words ++ [sex] ++ genotype_words ++ [cage].

(** a line of a record: the tokens with the whitespace [seps] between
    them, one separator for every gap (tabs or several spaces between
    the columns, a space inside a tag or a genotype of two words), with
    the whitespace [lead] before and [trail] after *)
Definition format_line (lead : list Z) (seps : list (list Z)) (trail : list Z)
    (tokens : list (list Z)) : list Z :=
  lead ++ interleave tokens seps ++ trail.

(** X21: A line made of an AnimalID, the words of a tag, "Male" or "Female",
    one word or more of a genotype and a cage, with whitespace of any
    kind and length in every gap between two of them, each gap with its
    own, and whitespace or nothing before and after, is parsed into the
    record of these fields, the words of the tag and of the genotype
    joined by single spaces and the variants of the hyphen replaced;
    provided no word before the sex is "Male" or "Female" and the line
    does not hold both "AnimalID" and "Sex". *)
Theorem parse_line_formatted (lead : list Z) (seps : list (list Z)) (trail : list Z)
    (animal_id : list Z) (tag_words : list (list Z))
    (sex : list Z) (genotype_words : list (list Z)) (cage : list Z) :
  Forall (fun c => isspace c = true) lead →
  Forall (fun c => isspace c = true) trail →
  Forall gap seps →
  length seps = (2 + length tag_words + length genotype_words)%nat →
  word animal_id → Forall word tag_words → Forall word genotype_words → word cage →
  is_sex animal_id = false → Forall (fun t => is_sex t = false) tag_words →
  is_sex sex = true → genotype_words ≠ [] →
  contains (literal "AnimalID")
    (interleave (fields animal_id tag_words sex genotype_words cage) seps)
  && contains (literal "Sex")
       (interleave (fields animal_id tag_words sex genotype_words cage) seps) = false →
  parse_line (format_line lead seps trail
                (fields animal_id tag_words sex genotype_words cage))
  = Some {| AnimalID := utf8 (map norm_char animal_id);
            Tag := utf8 (join [32] (map (map norm_char) tag_words));
            Sex := utf8 sex;
            Genotype := utf8 (join [32] (map (map norm_char) genotype_words));
            Cage := utf8 (map norm_char cage) |}.
Proof.
  intros Hlead Htrail Hseps Hgaps Hid Htag Hgeno Hcage Hid_sex Htag_sex Hsex Hgeno_ne
    Hheader.
  assert (word sex) as Hw_sex.
  { unfold is_sex in Hsex. apply orb_true_iff in Hsex as [H|H];
      apply bool_decide_eq_true in H; subst sex; split; try done;
      repeat constructor. }
  assert (_norm_hyphens sex = sex) as Hn_sex.
  { unfold is_sex in Hsex. apply orb_true_iff in Hsex as [H|H];
      apply bool_decide_eq_true in H; by subst sex. }
  unfold fields in *.
  set (tokens := [animal_id] ++ tag_words ++ [sex] ++ genotype_words ++ [cage]).
  assert (Forall word tokens) as Hwords.
  { unfold tokens. repeat (apply Forall_app; split); try done; by constructor. }
  assert (length tokens = (3 + length tag_words + length genotype_words)%nat) as Hlen.
  { unfold tokens. rewrite !length_app. simpl. lia. }
  unfold parse_line. fold tokens in Hheader |- *. unfold format_line.
  assert (interleave tokens seps ≠ []) as Hline.
  { intros Hnil. pose proof (split_interleave tokens seps Hwords Hseps ltac:(lia)) as Hs.
    rewrite Hnil in Hs. unfold tokens in Hs. done. }
  rewrite strip_app by (done || by apply interleave_trimmed).
  rewrite bool_decide_eq_false_2 by done.
  rewrite Hheader, split_interleave by (done || lia).
  assert (length genotype_words ≠ 0%nat) as Hgl by (by destruct genotype_words).
  destruct (Nat.ltb_spec (length tokens) 4) as [|_]; [lia|].
  assert (find_sex 0 tokens = Some (S (length tag_words))) as ->.
  { unfold tokens.
    change ([animal_id] ++ tag_words ++ [sex] ++ genotype_words ++ [cage])
      with ((animal_id :: tag_words) ++ sex :: (genotype_words ++ [cage])).
    rewrite find_sex_app; [done|by constructor|done]. }
  destruct (Nat.ltb_spec (S (length tag_words)) 1) as [|_]; [lia|].
  destruct (Nat.ltb_spec (length tokens) (S (length tag_words) + 2)) as [|_]; [lia|].
  cbn [orb].
  assert (tokens !! 0%nat = Some animal_id) as -> by done.
  assert (take (S (length tag_words) - 1) (drop 1 tokens) = tag_words) as ->.
  { unfold tokens.
    change (drop 1 ([animal_id] ++ ?r)) with r.
    replace (S (length tag_words) - 1)%nat with (length tag_words) by lia.
    apply take_app_length. }
  assert (tokens !! S (length tag_words) = Some sex) as ->.
  { unfold tokens.
    change ([animal_id] ++ tag_words ++ [sex] ++ genotype_words ++ [cage])
      with ((animal_id :: tag_words) ++ sex :: (genotype_words ++ [cage])).
    by apply list_lookup_middle. }
  assert (last tokens = Some cage) as ->.
  { unfold tokens. rewrite !app_assoc. apply last_snoc. }
  assert (drop (S (length tag_words) + 1) (take (length tokens - 1) tokens)
          = genotype_words) as ->.
  { rewrite Hlen. unfold tokens.
    replace ([animal_id] ++ tag_words ++ [sex] ++ genotype_words ++ [cage])
      with (([animal_id] ++ tag_words ++ [sex] ++ genotype_words) ++ [cage])
      by (by rewrite <- !app_assoc).
    rewrite take_app_length'; [|rewrite !length_app; simpl; lia].
    replace ([animal_id] ++ tag_words ++ [sex] ++ genotype_words)
      with (([animal_id] ++ tag_words ++ [sex]) ++ genotype_words)
      by (by rewrite <- !app_assoc).
    apply drop_app_length'. rewrite !length_app. simpl. lia. }
  cbn [default]. unfold id.
  rewrite !_norm_hyphens_join by done.
  rewrite (proj1 (norm_word _ Hid)), (proj1 (norm_word _ Hcage)), Hn_sex.
  cbn [Genotype Cage].
  rewrite !bool_decide_eq_false_2; [done| |].
  - rewrite utf8_nil. by destruct (map_norm_word _ Hcage).
  - rewrite utf8_nil. destruct genotype_words as [|w ws]; [done|].
    apply Forall_cons in Hgeno as [Hw _]. destruct (map_norm_word _ Hw) as [Hne _].
    simpl. destruct (map norm_char w) eqn:E; [done|]. by destruct ws.
Qed.

(** a line as it is pasted: two spaces before, a tab or two spaces
    between the columns, one space inside the tag and the genotype, and
    a carriage return after *)
Lemma parse_line_formatted_witness :
  parse_line (format_line [32; 32] [[9]; [32]; [32; 32]; [9]; [32]; [9; 32]] [13]
                (fields (literal "A1") [literal "left"; literal "ear"]
                   (literal "Male")
                   [literal "IL" ++ [8209] ++ literal "17"; literal "KO"]
                   (literal "C1")))
  = Some {| AnimalID := "A1"; Tag := "left ear"; Sex := "Male";
            Genotype := "IL-17 KO"; Cage := "C1" |}.
Proof.
  apply (parse_line_formatted [32; 32] [[9]; [32]; [32; 32]; [9]; [32]; [9; 32]] [13]
           (literal "A1") [literal "left"; literal "ear"]
           (literal "Male") [literal "IL" ++ [8209] ++ literal "17"; literal "KO"]
           (literal "C1")); try done; by repeat constructor.
Defined.

(** ** Generating from the desktop application *)

(** the application after [on_generate] with valid entries *)
Definition generated (learning_days reversal_days : Z) (self' : YMazeApp.app) : Prop :=
  ∃ data text,
    YMazeApp.day_tables_data self' = Some data
    ∧ YMazeApp.day_tables_text self' = Some text
    ∧ length data = Z.to_nat (learning_days + reversal_days)
    ∧ length text = Z.to_nat (learning_days + reversal_days)
    ∧ ∀ save_path,
        Desktop.on_export_one_csv (YMazeApp.day_tables_data self') save_path
        = Desktop.NothingToExport
        ↔ learning_days + reversal_days = 0.

(** X22: When the three entries are integers, with days of 0 or more and
    one trial or more, the text has a valid animal row, the seed, if
    asked for, is an integer, and the interpreter has more frames left
    for the search of a trial sequence than a day has trials,
    [on_generate] does not fail and shows no message box; it stores one
    table and one text per day, also when the days are 0 and 0; the
    export of the combined CSV then finds nothing to export exactly
    when the days are 0 and 0. *)
Theorem on_generate_valid (set_order : list string → list string)
    (frames : nat)
    (seed_state : Z → Random.state) (entropy_state : Random.state)
    (int : list Z → option Z) (self : YMazeApp.app) (g : Random.state)
    (learning_days reversal_days n_trials : Z) :
  (∀ l, NoDup l → set_order l ≡ₚ l) →
  int (YMazeApp.var_learning self) = Some learning_days →
  int (YMazeApp.var_reversal self) = Some reversal_days →
  int (YMazeApp.var_trials self) = Some n_trials →
  0 ≤ learning_days → 0 ≤ reversal_days → 0 < n_trials →
  Parser.parse_animal_data (YMazeApp.txt_animals self) ≠ [] →
  (YMazeApp.var_seed_on self = true → is_Some (int (YMazeApp.var_seed_val self))) →
  (Z.to_nat n_trials < frames)%nat →
  ∃ self' g',
    YMazeApp.on_generate set_order frames seed_state entropy_state int self g
    = ok (self', None, g')
    ∧ generated learning_days reversal_days self'.
Proof.
  intros Hset HL HR Hn HL0 HR0 Hn0 Hdata Hseed Hfr.
  unfold YMazeApp.on_generate. rewrite HL, HR, Hn.
  rewrite bool_decide_eq_false_2 by done.
  destruct (Z.ltb_spec learning_days 0) as [|_]; [lia|].
  destruct (Z.ltb_spec reversal_days 0) as [|_]; [lia|].
  destruct (Z.leb_spec n_trials 0) as [|_]; [lia|]. cbn [orb].
  assert (∃ g0, (if YMazeApp.var_seed_on self
                 then option_map seed_state (int (YMazeApp.var_seed_val self))
                 else Some entropy_state) = Some g0) as [g0 ->].
  { destruct (YMazeApp.var_seed_on self); [|by eexists].
    destruct (Hseed eq_refl) as [s ->]. by eexists. }
  set (animal_data := Parser.parse_animal_data (YMazeApp.txt_animals self)) in *.
  pose proof (assign_balanced_exit_arms_keys animal_data g0) as Harms.
  destruct (assign_balanced_exit_arms animal_data g0) as [m g1]. cbn [fst] in Harms.
  rewrite desktop_tables_view.
  destruct (generate_day_tables_all set_order frames animal_data learning_days
              reversal_days n_trials m g1 Hset Hdata Harms Hfr)
    as (tables & g2 & -> & [Hlen _] & _).
  cbn [desktop_view rbind ok].
  eexists _, _. split; [reflexivity|].
  exists (map table_data tables), (map table_text tables).
  cbn [YMazeApp._set_status YMazeApp.show_tables YMazeApp.day_tables_data
         YMazeApp.day_tables_text].
  split; [done|]. split; [done|]. rewrite !length_map.
  split; [done|]. split; [done|].
  intros save_path. unfold Desktop.on_export_one_csv.
  destruct tables as [|t tables].
  - simpl in Hlen. cbn [map]. split; [lia|done].
  - simpl in Hlen. split; [|lia]. intros Hexp. exfalso.
    destruct (combined_rows_spec 1 (map table_data (t :: tables)))
      as (csv & Hcsv & _); [lia| |].
    + apply Forall_forall. intros x Hx.
      change (map table_data (t :: tables)) with (table_data <$> t :: tables) in Hx.
      by apply list_elem_of_fmap in Hx as (? & -> & _).
    + rewrite Hcsv in Hexp. cbn [map] in Hexp.
      destruct (bool_decide (save_path = "")); discriminate Hexp.
Qed.

(** [int] for one decimal digit *)
Definition digit (s : list Z) : option Z :=
  match s with
  | [c] => if (48 <=? c) && (c <=? 57) then Some (c - 48) else None
  | _ => None
  end.

Definition app0 : YMazeApp.app :=
  {| YMazeApp.day_tables_data := None;
     YMazeApp.day_tables_text := None;
     YMazeApp.var_learning := [50];
     YMazeApp.var_reversal := [49];
     YMazeApp.var_trials := [51];
     YMazeApp.var_seed_on := true;
     YMazeApp.var_seed_val := [55];
     YMazeApp.txt_animals :=
       Parser.literal "A1  t1  Male  WT  C1" ++ [10]
         ++ Parser.literal "A2  t2  Female  KO  C2" ++ [10];
     YMazeApp.txt_output := "";
     YMazeApp.var_status := "Ready." |}.

Lemma on_generate_valid_witness :
  ∃ self' g',
    YMazeApp.on_generate (fun l => l) 10 seed_tape (fun _ => 0%N) digit app0
      (fun _ => 0%N) = ok (self', None, g')
    ∧ generated 2 1 self'.
Proof.
  apply (on_generate_valid (fun l => l) 10 seed_tape (fun _ => 0%N) digit app0
           (fun _ => 0%N) 2 1 3); try done.
  simpl. lia.
Defined.

(** ** The exit arms of a reversal day, cage after cage *)

Section Chain.

Variable set_order : list string → list string.
Hypothesis set_order_perm : ∀ l, NoDup l → set_order l ≡ₚ l.

Variable cages : list (string * list Animal).
Variable learning_exit_map : gmap string Z.
Variable plans : gmap string (gmap Z CagePlan).
Hypothesis Hplans : plans_ok cages learning_exit_map plans.

(** the plan chosen for every cage of [seq] is the plan of
    [plan_cage_dp] for the arm on which the plan of the cage before it
    ends; the first cage is planned for [prev] *)
Fixpoint chained (chosen : gmap string CagePlan) (prev : option Z)
    (seq : list string) : Prop :=
  match seq with
  | [] => True
  | c :: rest =>
      ∃ animals plan,
        dict_get c cages = Some animals
        ∧ chosen !! c = Some plan
        ∧ plan_cage_dp animals prev learning_exit_map = ok plan
        ∧ good_plan animals learning_exit_map plan
        ∧ chained chosen (end_arm plan) rest
  end.

Lemma greedy_chain (rounds : nat) (remaining : list string) (current : option string)
    (prev_end : option Z) (total_cost : Z) (seq : list string)
    (chosen : gmap string CagePlan) :
  NoDup remaining → (∀ c, c ∈ remaining → c ∈ cages.*1) →
  (length remaining ≤ rounds)%nat →
  (∀ c, current = Some c → c ∈ remaining) →
  (∃ s, prev_end = Some s ∧ is_arm s) →
  ∃ total' new chosen' prev_end',
    greedy rounds plans remaining current prev_end total_cost seq chosen
      = ok (total', seq ++ new, chosen', prev_end')
    ∧ new ≡ₚ remaining
    ∧ chained chosen' prev_end new
    ∧ (∀ c, c ∉ remaining → chosen' !! c = chosen !! c).
Proof.
  revert remaining current prev_end total_cost seq chosen.
  induction rounds as [|rounds IH];
    intros remaining current prev_end total_cost seq chosen Hnd Hin Hlen Hcur Hprev.
  - destruct remaining; [|simpl in Hlen; lia].
    exists total_cost, [], chosen, prev_end. rewrite app_nil_r. done.
  - destruct remaining as [|r0 rest] eqn:Erem.
    { exists total_cost, [], chosen, prev_end. rewrite app_nil_r. done. }
    rewrite <- Erem in *.
    destruct Hprev as (s & -> & Hs).
    assert (∃ cur, match current with
                   | None => cheapest plans (Some s) remaining
                   | Some c => ok c
                   end = ok cur ∧ cur ∈ remaining) as (cur & Hcur_eq & Hcur_in).
    { destruct current as [c|]; [exists c; auto|].
      apply (cheapest_ok cages learning_exit_map plans Hplans); [done| |done].
      by rewrite Erem. }
    destruct (proj2 (dict_get_Some_keys cur cages) (Hin cur Hcur_in)) as [animals Ha].
    destruct (Hplans cur animals s Ha Hs) as (plan & Hp & Hdp & Hgood).
    pose proof (remove_Permutation cur remaining Hnd Hcur_in) as Hperm.
    set (remaining' := filter (λ ck, ck ≠ cur) remaining) in *.
    destruct (IH remaining' None (end_arm plan) (total_cost + cost plan)
                (seq ++ [cur]) (<[cur := plan]> chosen))
      as (total' & new & chosen' & prev_end' & Hg & Hnew & Hch & Hout).
    + by apply NoDup_filter.
    + intros c Hc. apply Hin. by apply list_elem_of_filter in Hc as [_ Hc].
    + apply Permutation_length in Hperm. simpl in Hperm. lia.
    + done.
    + destruct Hgood as [_ (e & He & Harm)]. eauto.
    + exists total', (cur :: new), chosen', prev_end'.
      rewrite Erem. cbn [greedy]. rewrite <- Erem.
      rewrite Hcur_eq. cbn [rbind ok]. rewrite Hp. cbn [rbind ok].
      unfold set_remove. rewrite decide_True by done. cbn [rbind ok].
      fold remaining'. rewrite Hg. rewrite <- app_assoc.
      split; [done|]. split; [by rewrite Hperm, Hnew|]. split.
      * exists animals, plan. split; [done|]. split; [|done].
        rewrite Hout, lookup_insert_eq; [done|].
        intros H. by apply list_elem_of_filter in H as [H _].
      * intros c Hc. rewrite Hout.
        -- rewrite lookup_insert_ne; [done|]. intros ->. done.
        -- intros H. apply Hc. by apply list_elem_of_filter in H as [_ H].
Qed.

Variable cage_names : list string.
Hypothesis Hnames : cage_names = cages.*1.
Hypothesis Hnodup : NoDup cage_names.

(** a solution: a start arm, every cage once, and the chain of plans *)
Definition chain_solution (r : Z * (Z * list string * gmap string CagePlan)) : Prop :=
  is_arm r.2.1.1
  ∧ r.2.1.2 ≡ₚ cage_names
  ∧ chained r.2.2 (Some r.2.1.1) r.2.1.2.

Lemma greedy_from_chain (start_arm : Z) (first_cage : string) :
  is_arm start_arm → first_cage ∈ cage_names →
  ∃ r, greedy_from set_order plans cage_names start_arm first_cage = ok r
       ∧ chain_solution r.
Proof.
  intros Hs Hc. unfold greedy_from.
  pose proof (set_order_perm cage_names Hnodup) as Hperm.
  destruct (greedy_chain (length cage_names) (set_order cage_names) (Some first_cage)
              (Some start_arm) 0 [] ∅)
    as (total' & new & chosen' & prev_end' & Hg & Hnew & Hch & _).
  - by rewrite Hperm.
  - intros c Hin. rewrite Hperm in Hin. by rewrite <- Hnames.
  - by rewrite Hperm.
  - intros c [= <-]. by rewrite Hperm.
  - eauto.
  - rewrite Hg. cbn [rbind ok]. eexists. split; [reflexivity|].
    split; [done|]. split; simpl; [by rewrite Hnew|done].
Qed.

Lemma search_chain (starts : list (Z * string))
    (best : option (Z * (Z * list string * gmap string CagePlan))) :
  (∀ s c, (s, c) ∈ starts → is_arm s ∧ c ∈ cage_names) →
  (∀ r, best = Some r → chain_solution r) →
  ∃ best', search set_order plans cage_names starts best = ok best'
           ∧ (∀ r, best' = Some r → chain_solution r)
           ∧ (starts ≠ [] → is_Some best').
Proof.
  revert best. induction starts as [|[s c] starts IH]; intros best Hstarts Hbest.
  - exists best. split; [done|]. split; [done|]. done.
  - destruct (Hstarts s c ltac:(by left)) as [Hs Hc].
    destruct (greedy_from_chain s c Hs Hc) as (r & Hr & Hsol).
    cbn [search]. rewrite Hr. cbn [rbind ok].
    set (best1 := match best with
                  | Some (best_total, _) => if r.1 <? best_total then Some r else best
                  | None => Some r
                  end).
    destruct (IH best1) as (best' & Hsearch & Hok & Hsome).
    + intros s' c' Hin. apply Hstarts. by right.
    + intros r' Hr'. unfold best1 in Hr'.
      destruct best as [[bt bs]|]; [|by injection Hr' as <-].
      destruct (r.1 <? bt); [by injection Hr' as <-|by apply Hbest].
    + exists best'. split; [exact Hsearch|]. split; [done|].
      intros _. destruct starts as [|x starts'].
      * simpl in Hsearch. injection Hsearch as <-. unfold best1.
        destruct best as [[bt bs]|]; [|done]. by destruct (r.1 <? bt).
      * by apply Hsome.
Qed.

(** the arms of the plans of a chain, cage after cage *)
Fixpoint chained_arms (chosen : gmap string CagePlan) (seq : list string) : list Z :=
  match seq with
  | [] => []
  | c :: rest => default [] (colors <$> chosen !! c) ++ chained_arms chosen rest
  end.

(** the animals of the cages of [seq] *)
Definition blocks (seq : list string) : list Animal :=
  concat ((fun c => default [] (dict_get c cages)) <$> seq).

Lemma build_output_chain (chosen : gmap string CagePlan) (prev : option Z)
    (cage_sequence : list string) (ordered_animals : list Animal)
    (per_animal_exit : gmap string Z) :
  chained chosen prev cage_sequence →
  build_output cages chosen cage_sequence ordered_animals per_animal_exit
  = ok (ordered_animals ++ blocks cage_sequence,
        insert_all (zip (AnimalID <$> blocks cage_sequence)
                        (chained_arms chosen cage_sequence))
                   per_animal_exit)
  ∧ length (chained_arms chosen cage_sequence) = length (blocks cage_sequence).
Proof.
  revert prev ordered_animals per_animal_exit.
  induction cage_sequence as [|c rest IH]; intros prev ordered m Hch.
  - unfold blocks. simpl. by rewrite app_nil_r.
  - destruct Hch as (animals & plan & Hget & Hplan & _ & [Hav _] & Hrest).
    assert (length (colors plan) = length animals) as Hlen.
    { apply Forall2_length in Hav. lia. }
    destruct (IH (end_arm plan) (ordered ++ animals)
                (record_arms animals (colors plan) m) Hrest) as [Hb Hlen'].
    cbn [build_output chained_arms]. rewrite Hget, Hplan.
    assert ((zip animals (colors plan)).*1 = animals) as Hfst
      by (apply fst_zip; lia).
    change (map fst (zip animals (colors plan))) with ((zip animals (colors plan)).*1).
    rewrite Hfst. fold (record_arms animals (colors plan) m). rewrite Hb.
    assert (blocks (c :: rest) = animals ++ blocks rest) as ->.
    { unfold blocks. by rewrite fmap_cons, concat_cons, Hget. }
    cbn [default fmap option_fmap option_map].
    unfold id. rewrite <- app_assoc. split.
    + do 2 f_equal. rewrite record_arms_insert_all, <- insert_all_app.
      rewrite fmap_app.
      rewrite (zip_with_app pair (AnimalID <$> animals) _ (colors plan) _)
        by (rewrite length_fmap; lia).
      done.
    + rewrite !length_app. lia.
Qed.

End Chain.

(** the exit arms of the cages of [seq], planned one after the other:
    every cage for the arm on which the cage before it ends *)
Fixpoint chain_arms (animal_data : list Animal) (learning_exit_map : gmap string Z)
    (prev : option Z) (seq : list string) : result (list Z) :=
  match seq with
  | [] => ok []
  | c :: rest =>
      try plan <- plan_cage_dp (cage_of c animal_data) prev learning_exit_map;;
      try arms <- chain_arms animal_data learning_exit_map (end_arm plan) rest;;
      ok (colors plan ++ arms)
  end.

Lemma chained_chain_arms (animal_data : list Animal) (learning_exit_map : gmap string Z)
    (cages : list (string * list Animal)) (chosen : gmap string CagePlan)
    (prev : option Z) (seq : list string) :
  cages_ok animal_data cages → (∀ c, c ∈ seq → c ∈ cages.*1) →
  chained cages learning_exit_map chosen prev seq →
  chain_arms animal_data learning_exit_map prev seq = ok (chained_arms chosen seq).
Proof.
  intros Hcages. revert prev. induction seq as [|c rest IH]; intros prev Hin Hch; [done|].
  destruct Hch as (animals & plan & Hget & Hplan & Hdp & _ & Hrest).
  destruct (cages_ok_lookup animal_data cages c Hcages (Hin c ltac:(by left)))
    as [Hget' _].
  rewrite Hget in Hget'. injection Hget' as ->.
  cbn [chain_arms chained_arms]. rewrite Hdp. cbn [rbind ok].
  rewrite IH; [|intros c' Hc'; apply Hin; by right|done].
  cbn [rbind ok]. by rewrite Hplan.
Qed.

(** what the optimizer returns: the cages in some order, and the exit
    arms of the chain of their plans from some start arm *)
Definition chain_spec (animal_data : list Animal) (learning_exit_map : gmap string Z)
    (ordered_animals : list Animal) (per_animal_exit : gmap string Z) : Prop :=
  ∃ start_arm cage_sequence arms,
    is_arm start_arm
    ∧ cage_sequence ≡ₚ (group_animals_by_cage_in_order animal_data).*1
    ∧ ordered_animals = concat ((fun c => cage_of c animal_data) <$> cage_sequence)
    ∧ chain_arms animal_data learning_exit_map (Some start_arm) cage_sequence = ok arms
    ∧ length arms = length ordered_animals
    ∧ per_animal_exit = insert_all (zip (AnimalID <$> ordered_animals) arms) ∅.

(** X23: The exit arms of a reversal day are those of a chain of plans: for
    some start arm and some order of the cages, the first cage has the
    plan of [plan_cage_dp] for the start arm, every other cage the plan
    for the arm on which the cage before it ends, and the animals get
    the colors of these plans in this order. *)
Theorem build_nonlearning_plan_cage_packs_chain
    (set_order : list string → list string) (animal_data : list Animal)
    (learning_exit_map : gmap string Z) :
  (∀ l, NoDup l → set_order l ≡ₚ l) →
  animal_data ≠ [] → covered animal_data learning_exit_map →
  ∃ ordered_animals per_animal_exit,
    build_nonlearning_plan_cage_packs set_order animal_data learning_exit_map
    = ok (ordered_animals, per_animal_exit)
    ∧ chain_spec animal_data learning_exit_map ordered_animals per_animal_exit.
Proof.
  intros set_order_perm Hne Hcov. unfold build_nonlearning_plan_cage_packs.
  pose proof (group_animals_by_cage_in_order_ok animal_data) as Hcages.
  set (cages := group_animals_by_cage_in_order animal_data) in *.
  pose proof Hcages as [Hnd Hget].
  destruct (plans_of_ok cages learning_exit_map) as (plans & Hplans & Hpok).
  { intros c animals Hin.
    assert (c ∈ cages.*1) as Hc by (by apply (list_elem_of_fmap_2 fst) in Hin).
    destruct (cages_ok_lookup animal_data cages c Hcages Hc) as [Hl Hnil].
    rewrite (dict_get_NoDup c animals cages Hnd Hin) in Hl. injection Hl as ->.
    split; [done|].
    intros a Ha. apply Hcov. by apply list_elem_of_filter in Ha as [_ Ha]. }
  rewrite Hplans. cbn [rbind ok].
  change (map fst cages) with (cages.*1).
  set (cage_names := cages.*1) in *.
  set (starts := s ← [1; 2; 3]; c ← cage_names; [(s, c)]).
  destruct (search_chain set_order set_order_perm cages learning_exit_map plans Hpok
              cage_names eq_refl Hnd starts None)
    as (best & Hsearch & Hsol & Hsome); [|done|].
  { intros s c Hin. unfold starts in Hin.
    apply list_elem_of_bind in Hin as (s' & Hin & Hs').
    apply list_elem_of_bind in Hin as (c' & Hin & Hc').
    apply list_elem_of_singleton in Hin as [= -> ->]. split; [|done].
    unfold is_arm. rewrite !elem_of_cons, elem_of_nil in Hs'. tauto. }
  rewrite Hsearch. cbn [rbind ok].
  assert (starts ≠ []) as Hstarts.
  { destruct animal_data as [|a l]; [done|].
    assert (Cage a ∈ cage_names) as Hc
      by (eapply cages_ok_names; [exact Hcages|by left]).
    destruct cage_names as [|n names]; [by apply elem_of_nil in Hc|]. done. }
  destruct (Hsome Hstarts) as [[total [[start cage_sequence] chosen]] ->].
  destruct (Hsol _ eq_refl) as (Hstart & Hperm & Hch). simpl in Hstart, Hperm, Hch.
  destruct (build_output_chain cages learning_exit_map chosen (Some start)
              cage_sequence [] ∅ Hch) as [Hb Hlen].
  rewrite Hb. eexists _, _. split; [reflexivity|].
  assert (∀ c, c ∈ cage_sequence → default [] (dict_get c cages) = cage_of c animal_data)
    as Hblocks.
  { intros c Hc. rewrite Hperm in Hc.
    destruct (cages_ok_lookup animal_data cages c Hcages Hc) as [-> _]. done. }
  assert (blocks cages cage_sequence
          = concat ((λ c, cage_of c animal_data) <$> cage_sequence)) as Heq.
  { unfold blocks. f_equal. apply list_fmap_ext. intros i c Hc. apply Hblocks.
    by eapply list_elem_of_lookup_2. }
  exists start, cage_sequence, (chained_arms chosen cage_sequence).
  split; [done|]. split; [done|]. rewrite app_nil_l. split; [done|]. split.
  - apply (chained_chain_arms animal_data learning_exit_map cages chosen); [done| |done].
    intros c Hc. by rewrite Hperm in Hc.
  - split; [by rewrite Hlen|done].
Qed.

Lemma build_nonlearning_plan_cage_packs_chain_witness :
  ∃ ordered_animals per_animal_exit,
    build_nonlearning_plan_cage_packs (fun l => l) roster6 exits6
    = ok (ordered_animals, per_animal_exit)
    ∧ chain_spec roster6 exits6 ordered_animals per_animal_exit.
Proof.
  apply build_nonlearning_plan_cage_packs_chain; [done|done|exact covered_roster6].
Defined.
